(** * ssmgr: the node-local process supervisor and the remote-slave client

    A shallow embedding of
      - [manager/slave.go]                (module [Manager]),
      - [slave/shadowsocks/manager_ng.go] (module [Shadowsocks]),
    with concrete remotes, environments and histories ([Fixtures]) and
    the properties established about the two files ([SlaveFacts],
    [SupervisorFacts]).

    Go values are modelled as follows: [int32], [int64] and [int] are [Z]
    (conversions that can wrap are written out), [string] is [string],
    [[]byte] is a slice over a backing array of [Byte.byte], a Go [map] is a
    [gmap], wrapped in [option] where the code can leave it [nil], and a
    pointer to a struct is an address into an explicit heap.  A run-time
    panic is an explicit outcome of every operation that can raise one.

    What lies outside the two files is a parameter: the remote end of the
    RPC channel ([Manager.Remote]), the answers of the operating system
    and the JSON decoder ([Shadowsocks.Env]).  Every method runs to its end
    before the next one starts, which is what the two locks of the manager
    give [Add], [Remove] and the table accesses of the other methods. *)

From Stdlib Require Import ZArith List String Ascii Bool Lia.
From Stdlib.Strings Require Import Byte.
From stdpp Require Import base option gmap sets list strings pretty.

Local Open Scope Z_scope.

(** ** Go run-time conventions *)

Module Go.

(** Why a goroutine stopped with a run-time panic. *)
Inductive fault : Type :=
| NilMapWrite      (* assignment to entry in nil map *)
| NilDereference   (* invalid memory address or nil pointer dereference *)
| SliceBounds.     (* slice bounds out of range *)

Inductive outcome (A : Type) : Type :=
| Ret (a : A)
| Panic (f : fault).
Arguments Ret {A} a.
Arguments Panic {A} f.

(** A computation over a mutable state [S]: the state reached is reported
    in both cases, since what was written before a panic stays written. *)
Definition M (S A : Type) : Type := S -> outcome A * S.

Definition ret {S A} (a : A) : M S A := fun s => (Ret a, s).
Definition panic {S A} (f : fault) : M S A := fun s => (Panic f, s).
Definition bind {S A B} (m : M S A) (k : A -> M S B) : M S B :=
  fun s => match m s with
           | (Ret a, s') => k a s'
           | (Panic f, s') => (Panic f, s')
           end.
Definition get {S} : M S S := fun s => (Ret s, s).
Definition gets {S A} (f : S -> A) : M S A := fun s => (Ret (f s), s).
Definition modify {S} (f : S -> S) : M S unit := fun s => (Ret tt, f s).

(** [for _, x := range xs { body x }] *)
Fixpoint for_each {S A} (xs : list A) (body : A -> M S unit) : M S unit :=
  match xs with
  | [] => ret tt
  | x :: xs' => bind (body x) (fun _ => for_each xs' body)
  end.

Definition returned {A} (o : outcome A) : bool :=
  match o with Ret _ => true | Panic _ => false end.

(** [wp m Q s]: running [m] from [s] ends, returning or panicking, in a
    situation accepted by [Q]. *)
Definition wp {S A} (m : M S A) (Q : outcome A -> S -> Prop) (s : S) : Prop :=
  Q (m s).1 (m s).2.

(** [int32(x)] for an [int] [x]: keep the low 32 bits, two's complement. *)
Definition int32 (x : Z) : Z := (x + 2^31) mod 2^32 - 2^31.

Definition max_int : Z := 2^63 - 1.
Definition min_int : Z := - 2^63.

End Go.

Import Go.

Notation "'let!' x ':=' m 'in' k" := (bind m (fun x => k))
  (at level 10, x name, m at level 100, k at level 200, only parsing).
Notation "m ;;; k" := (bind m (fun _ => k))
  (at level 100, k at level 200, right associativity, only parsing).

(** ** manager/slave.go *)

Module Manager.

(** [type ShadowsocksService struct] *)
Record ShadowsocksService : Type := mkService {
  UserId : string;
  Port : Z;            (* int32 *)
  Password : string
}.

#[global] Instance ShadowsocksService_eq_dec : EqDecision ShadowsocksService.
Proof. solve_decision. Defined.

(** Modelled from the spec: the generated message type
    [protocol.ShadowsocksService] is not part of the sources at hand; the
    spec describes the unit exchanged over RPC as the triple
    (userId, port, password). *)
Record ProtoService : Type := mkProto {
  p_UserId : string;
  p_Port : Z;
  p_Password : string
}.

#[global] Instance ProtoService_eq_dec : EqDecision ProtoService.
Proof. solve_decision. Defined.

(** Modelled from the spec: [constructProtocolServiceList] and
    [constructServiceList] are absent from the sources; they convert
    between the controller-facing services and the RPC message list,
    one message per service, field by field. *)
Definition constructProtocolServiceList (srvs : list ShadowsocksService)
  : list ProtoService :=
  (fun s => mkProto (UserId s) (Port s) (Password s)) <$> srvs.

(** Modelled from the spec: the conversion back, absent as well. *)
Definition constructServiceList (l : list ProtoService)
  : list ShadowsocksService :=
  (fun p => mkService (p_UserId p) (p_Port p) (p_Password p)) <$> l.

(** Modelled from the spec: the identity key of a service is its userId
    together with its port. *)
Definition ident : Type := (string * Z)%type.
Definition key (p : ProtoService) : ident := (p_UserId p, p_Port p).
Definition keys (l : list ProtoService) : gset ident := list_to_set (key <$> l).

(** Modelled from the spec: the two categories a difference enumerates. *)
Inductive diffKind : Type := Missing | Unexpected.

#[global] Instance diffKind_eq_dec : EqDecision diffKind.
Proof. solve_decision. Defined.

Definition diffEntry : Type := (diffKind * ProtoService)%type.

(** Modelled from the spec: [compareLists] is absent from the sources.
    The spec: build a set of identity keys from each side; anything in
    the requested list but not in the returned one is a missing entry,
    anything in the returned list but not in the requested one is an
    unexpected entry. *)
Definition compareLists (required current : list ProtoService)
  : list diffEntry :=
  let have := keys current in
  let asked := keys required in
  ((fun p => (Missing, p)) <$> filter (fun p => key p ∉ have) required)
    ++ ((fun p => (Unexpected, p)) <$> filter (fun p => key p ∉ asked) current).

(** The [error] values met in this file. *)
Inductive error : Type :=
| ErrChannel (msg : string)               (* whatever the RPC layer reports *)
| ErrDifference (diff : list diffEntry).  (* one error for the whole diff *)

(** Modelled from the spec: [constructErrorFromDifferenceServiceList] is
    absent from the sources; it folds the whole difference into a single
    error value enumerating both categories. *)
Definition constructErrorFromDifferenceServiceList (diff : list diffEntry)
  : error := ErrDifference diff.

(** [type slaveMeta struct]; each map is [None] while it is a nil map. *)
Record slaveMeta : Type := mkMeta {
  openedPorts : option (gmap Z ShadowsocksService);
  stats : option (gmap Z Z)
}.

(** [m[k] = v] on a map that may be nil. *)
Definition map_assign {V} (m : option (gmap Z V)) (k : Z) (v : V)
  : outcome (option (gmap Z V)) :=
  match m with
  | None => Panic NilMapWrite
  | Some g => Ret (Some (<[k := v]> g))
  end.

(** [delete(m, k)]: a no-op on a nil map. *)
Definition map_delete {V} (m : option (gmap Z V)) (k : Z) : option (gmap Z V) :=
  delete k <$> m.

(** Entries of a map that may be nil, in the order [range] visits them. *)
Definition map_range {V} (m : option (gmap Z V)) : list (Z * V) :=
  match m with
  | None => []
  | Some g => map_to_list g
  end.

Definition set_openedPorts (k : Z) (v : ShadowsocksService) : M slaveMeta unit :=
  fun m => match map_assign (openedPorts m) k v with
           | Ret o => (Ret tt, mkMeta o (stats m))
           | Panic f => (Panic f, m)
           end.

Definition set_stats (k : Z) (v : Z) : M slaveMeta unit :=
  fun m => match map_assign (stats m) k v with
           | Ret o => (Ret tt, mkMeta (openedPorts m) o)
           | Panic f => (Panic f, m)
           end.

Definition addPorts (srvs : list ShadowsocksService) : M slaveMeta unit :=
  for_each srvs (fun srv =>
    set_openedPorts (Port srv) srv ;;;
    set_stats (Port srv) 0).

Definition removePorts (srvs : list ShadowsocksService) : M slaveMeta unit :=
  for_each srvs (fun srv =>
    modify (fun m => mkMeta (map_delete (openedPorts m) (Port srv))
                            (map_delete (stats m) (Port srv)))).

Definition setStats (traffics : option (gmap Z Z)) : M slaveMeta unit :=
  for_each (map_range traffics) (fun '(port, traffic) => set_stats port traffic).

Definition meta_ListServices (m : slaveMeta) : list ShadowsocksService :=
  snd <$> map_range (openedPorts m).

Definition meta_GetStats (m : slaveMeta) : option (gmap Z Z) := stats m.

(** The client connection handle handed out by [grpc.Dial]. *)
Record ClientConn : Type := mkConn { target : string }.

(** [type slave struct].  The context only carries the token and the
    embedded interface value is never set, so neither has a field here. *)
Record slave : Type := mkSlave {
  remoteURL : string;
  conn : option ClientConn;
  stub : option ClientConn;     (* the generated client wraps the connection *)
  token : string;
  meta : slaveMeta
}.

(** What the state of a call consists of: the receiver and the lines
    written through logrus. *)
Record node : Type := mkNode {
  this : slave;
  logrus : list error
}.

(** The other end of the channel.  Each field answers one RPC: an error
    of the channel, or the response message. *)
Record Remote : Type := mkRemote {
  grpc_Dial : string -> error + ClientConn;
  conn_Close : ClientConn -> option error;
  rpc_Allocate : list ProtoService -> error + list ProtoService;
  rpc_Free : list ProtoService -> error + list ProtoService;
  rpc_ListServices : error + list ProtoService;
  rpc_GetStats : error + option (gmap Z Z);
  rpc_SetStats : option (gmap Z Z) -> option error
}.

Definition NewSlave (url tok : string) : slave :=
  {| remoteURL := url;
     conn := None;
     stub := None;
     token := tok;
     meta := {| openedPorts := Some ∅; stats := None |} |}.

Definition isTokenValid (s : slave) : bool :=
  (String.length (token s) =? 0)%nat.

Definition set_conn (c s : option ClientConn) (sl : slave) : slave :=
  mkSlave (remoteURL sl) c s (token sl) (meta sl).

Definition set_meta (m : slaveMeta) (sl : slave) : slave :=
  mkSlave (remoteURL sl) (conn sl) (stub sl) (token sl) m.

(** Run a computation on [s.meta] inside a computation on the node. *)
Definition on_meta {A} (c : M slaveMeta A) : M node A :=
  fun n => let '(o, m') := c (meta (this n)) in
           (o, mkNode (set_meta m' (this n)) (logrus n)).

Definition warnln (e : error) : M node unit :=
  modify (fun n => mkNode (this n) (logrus n ++ [e])).

(** Calling a method of [s.stub] while it is the nil interface value. *)
Definition need_stub : M node unit :=
  fun n => match stub (this n) with
           | Some _ => (Ret tt, n)
           | None => (Panic NilDereference, n)
           end.

Section WithRemote.
Variable R : Remote.

Definition Dial : M node (option error) :=
  fun n =>
    match grpc_Dial R (remoteURL (this n)) with
    | inl err => (Ret (Some err), n)
    | inr c => (Ret None, mkNode (set_conn (Some c) (Some c) (this n)) (logrus n))
    end.

(** grpc's [ClientConn.Close] starts by reading fields of its
    receiver, so on a nil receiver it stops with a nil dereference. *)
Definition Close : M node (option error) :=
  fun n =>
    let c := conn (this n) in
    let n' := mkNode (set_conn None None (this n)) (logrus n) in
    match c with
    | None => (Panic NilDereference, n')
    | Some cc => (Ret (conn_Close R cc), n')
    end.

Definition Allocate (srvs : list ShadowsocksService)
  : M node (list ShadowsocksService * option error) :=
  let serviceList := constructProtocolServiceList srvs in
  need_stub ;;;
  match rpc_Allocate R serviceList with
  | inl err => ret ([], Some err)
  | inr resp =>
      let diff := compareLists serviceList resp in
      let allocatedList := constructServiceList resp in
      on_meta (addPorts allocatedList) ;;;
      if (length diff =? 0)%nat
      then ret (allocatedList, None)
      else ret (allocatedList, Some (constructErrorFromDifferenceServiceList diff))
  end.

Definition Free (srvs : list ShadowsocksService)
  : M node (list ShadowsocksService * option error) :=
  let serviceList := constructProtocolServiceList srvs in
  need_stub ;;;
  match rpc_Free R serviceList with
  | inl err => ret ([], Some err)
  | inr resp =>
      let diff := compareLists serviceList resp in
      let freedList := constructServiceList resp in
      on_meta (removePorts freedList) ;;;
      if (length diff =? 0)%nat
      then ret (freedList, None)
      else ret (freedList, Some (constructErrorFromDifferenceServiceList diff))
  end.

Definition ListServices : M node (list ShadowsocksService * option error) :=
  need_stub ;;;
  match rpc_ListServices R with
  | inl err => ret ([], Some err)
  | inr resp =>
      let! believed := gets (fun n => meta_ListServices (meta (this n))) in
      let diff := compareLists (constructProtocolServiceList believed) resp in
      (if (length diff =? 0)%nat
       then ret tt
       else warnln (constructErrorFromDifferenceServiceList diff)) ;;;
      ret (constructServiceList resp, None)
  end.

Definition GetStats : M node (option (gmap Z Z) * option error) :=
  need_stub ;;;
  match rpc_GetStats R with
  | inl err => ret (None, Some err)
  | inr traffics =>
      on_meta (setStats traffics) ;;;
      ret (traffics, None)
  end.

Definition SetStats (traffics : option (gmap Z Z)) : M node (option error) :=
  need_stub ;;;
  match rpc_SetStats R traffics with
  | Some err => ret (Some err)
  | None =>
      on_meta (setStats traffics) ;;;
      ret None
  end.

Definition Meta (s : slave) : slaveMeta := meta s.

End WithRemote.

(** *** Vocabulary of the properties *)

(** The identity keys a difference mentions. *)
Definition diff_keys (d : list diffEntry) : gset ident :=
  list_to_set ((fun e => key (snd e)) <$> d).

(** The error result that goes with a difference. *)
Definition report (d : list diffEntry) : option error :=
  match d with
  | [] => None
  | _ => Some (ErrDifference d)
  end.

(** The maps [addPorts] arrives at when neither map is nil. *)
Definition merged (srvs : list ShadowsocksService) (o : gmap Z ShadowsocksService)
  : gmap Z ShadowsocksService :=
  foldl (fun acc srv => <[Port srv := srv]> acc) o srvs.

Definition zeroed (srvs : list ShadowsocksService) (t : gmap Z Z) : gmap Z Z :=
  foldl (fun acc srv => <[Port srv := 0]> acc) t srvs.

(** A caller's use of the interface: one method call, answered by the
    remote as it behaves at that moment. *)
Inductive call : Type :=
| CallDial
| CallClose
| CallAllocate (srvs : list ShadowsocksService)
| CallFree (srvs : list ShadowsocksService)
| CallListServices
| CallGetStats
| CallSetStats (traffics : option (gmap Z Z)).

(** The node after the call, whether it returned or panicked. *)
Definition perform (n : node) (rc : Remote * call) : node :=
  let '(R, c) := rc in
  match c with
  | CallDial => snd (Dial R n)
  | CallClose => snd (Close R n)
  | CallAllocate srvs => snd (Allocate R srvs n)
  | CallFree srvs => snd (Free R srvs n)
  | CallListServices => snd (ListServices R n)
  | CallGetStats => snd (GetStats R n)
  | CallSetStats t => snd (SetStats R t n)
  end.

(** The node a slave made by [NewSlave] has become after some calls. *)
Definition after (url tok : string) (calls : list (Remote * call)) : node :=
  foldl perform (mkNode (NewSlave url tok) []) calls.

(** The map [removePorts] arrives at from a map that is not nil: one
    [delete] per service, in order. *)
Definition without {V} (srvs : list ShadowsocksService) (g : gmap Z V) : gmap Z V :=
  foldl (fun acc srv => delete (Port srv) acc) g srvs.

(** The ports a list of services names. *)
Definition ports (srvs : list ShadowsocksService) : list Z := Port <$> srvs.

(** The entries of a map handed over the channel; a nil map has none. *)
Definition entries (traffics : option (gmap Z Z)) : gmap Z Z := default ∅ traffics.

(** Reading [m.openedPorts[p]] and [m.stats[p]]: a nil map reads as a
    map without entries. *)
Definition opened_at (m : slaveMeta) (p : Z) : option ShadowsocksService :=
  openedPorts m ≫= (fun g => g !! p).

Definition stat_at (m : slaveMeta) (p : Z) : option Z :=
  stats m ≫= (fun g => g !! p).

(** Every opened port holds a service of that very port. *)
Definition keyed_by_port (m : slaveMeta) : Prop :=
  forall o p srv, openedPorts m = Some o -> o !! p = Some srv -> Port srv = p.

End Manager.

(** ** slave/shadowsocks/manager_ng.go *)

Module Shadowsocks.

(** *** Library functions the file calls *)

Definition digit_of (c : ascii) : option Z :=
  let n := Z.of_nat (nat_of_ascii c) in
  if (48 <=? n) && (n <=? 57) then Some (n - 48) else None.

Fixpoint parse_digits (acc : Z) (s : string) : option Z :=
  match s with
  | EmptyString => Some acc
  | String c r =>
      match digit_of c with
      | Some d => parse_digits (10 * acc + d) r
      | None => None
      end
  end.

(** [strconv.Atoi] with its error result dropped, as the caller does:
    0 on a syntax error, the nearest bound of [int] on a range error. *)
Definition Atoi (s : string) : Z :=
  match s with
  | EmptyString => 0
  | String c r =>
      let '(neg, ds) :=
        if Ascii.eqb c "-" then (true, r)
        else if Ascii.eqb c "+" then (false, r)
        else (false, s) in
      match ds with
      | EmptyString => 0
      | _ =>
          match parse_digits 0 ds with
          | None => 0
          | Some n => if neg : bool then Z.max min_int (- n) else Z.min max_int n
          end
      end
  end.

(** [fmt.Sprint] of an integer. *)
Definition Sprint (n : Z) : string := pretty n.

(** [path.Join] of two elements; the elements met here are clean
    already, so the final [path.Clean] has nothing to do. *)
Definition path_Join (a b : string) : string :=
  match a, b with
  | EmptyString, _ => b
  | _, EmptyString => a
  | _, _ => a +:+ "/" +:+ b
  end.

#[global] Instance byte_eq_decision : EqDecision byte := Byte.byte_eq_dec.

(** White space as [bytes.TrimSpace] sees it in ASCII input. *)
Definition is_space (b : byte) : bool :=
  match b with
  | x09 | x0a | x0b | x0c | x0d | x20 => true
  | _ => false
  end.

Fixpoint trim_left (l : list byte) : list byte :=
  match l with
  | [] => []
  | b :: r => if is_space b then trim_left r else l
  end.

Definition TrimSpace (l : list byte) : list byte :=
  rev (trim_left (rev (trim_left l))).

(** A [[]byte]: the backing array from the slice's first element on
    (its length is the capacity) and the slice's length. *)
Record slice : Type := mkSlice { arr : list byte; len : nat }.

(** [data[:hi]]: legal up to the capacity. *)
Definition slice_to (hi : nat) (d : slice) : outcome (list byte) :=
  if (hi <=? length (arr d))%nat then Ret (take hi (arr d))
  else Panic SliceBounds.

(** [data[lo:]]: legal up to the length. *)
Definition slice_from (lo : nat) (d : slice) : outcome (list byte) :=
  if (lo <=? len d)%nat then Ret (drop lo (take (len d) (arr d)))
  else Panic SliceBounds.

(** *** Data *)

Record serverOptions : Type := mkOptions {
  MPTCP : bool;
  TCPFastOpen : bool;
  Auth : bool;
  NameServer : string;
  PidFile : string;
  ManagerAddress : string;
  Interface : string;
  FireWall : bool;
  Verbose : bool
}.

Definition flag (b : bool) (args : list string) : list string :=
  if b then args else [].

Definition nonempty (s : string) : bool := negb (String.length s =? 0)%nat.

Definition BuildArgs (o : serverOptions) : list string :=
  flag (MPTCP o) ["--mptcp"]
  ++ flag (TCPFastOpen o) ["--fast-open"]
  ++ flag (Auth o) ["-A"]
  ++ flag (nonempty (NameServer o)) ["-d"; NameServer o]
  ++ flag (nonempty (ManagerAddress o)) ["--manager-address"; ManagerAddress o]
  ++ flag (FireWall o) ["--firewall"]
  ++ flag (Verbose o) ["-v"].

Definition methods : list string :=
  [ "table"; "rc4"; "rc4-md5"; "aes-128-cfb"; "aes-192-cfb"; "aes-256-cfb";
    "aes-128-ctr"; "aes-192-ctr"; "aes-256-ctr"; "bf-cfb"; "camellia-128-cfb";
    "camellia-192-cfb"; "camellia-256-cfb"; "cast5-cfb"; "des-cfb"; "idea-cfb";
    "rc2-cfb"; "seed-cfb"; "salsa20"; "chacha20"; "chacha20-ietf" ].

Fixpoint search_method (m : string) (ms : list string) : bool :=
  match ms with
  | [] => false
  | method :: rest => if String.eqb m method then true else search_method m rest
  end.

Definition ValidateEncryptMethod (m : string) : bool := search_method m methods.

Inductive error : Type :=
| ErrServerNotFound
| ErrInvalidServer
| ErrServerExists
| ErrMkdirAll (p : string)
| ErrWriteFile (p : string)
| ErrCreate (p : string)
| ErrStart (args : list string)
| ErrRemoveAll (p : string)
| ErrProcessFinished.

(** [type Stat struct] *)
Record Stat : Type := mkStat { Traffic : Z }.   (* int64 *)

(** The anonymous struct of [Server.runtime]: [cmd] points to an
    [exec.Cmd], [logw] is nil or the open log file. *)
Record runtime_t : Type := mkRuntime {
  r_path : string;
  r_cmd : option positive;
  r_logw : option string;
  r_config : string
}.

(** [type Server struct]; [stat] is the content of the [atomic.Value]:
    [None] until the first [Store]. *)
Record Server : Type := mkServer {
  Host : string;
  Port : Z;          (* int32 *)
  Password : string;
  Method : string;
  Timeout : Z;       (* int *)
  stat : option Stat;
  options : serverOptions;
  runtime : runtime_t
}.

(** What the code reads and writes of an [exec.Cmd]. *)
Record Cmd : Type := mkCmd {
  cmd_Args : list string;
  cmd_Stdout : option string;   (* also its Stderr *)
  cmd_Process : option Z        (* the pid, once started *)
}.

Definition set_stat (st : option Stat) (s : Server) : Server :=
  mkServer (Host s) (Port s) (Password s) (Method s) (Timeout s) st
           (options s) (runtime s).
Definition set_options (o : serverOptions) (s : Server) : Server :=
  mkServer (Host s) (Port s) (Password s) (Method s) (Timeout s) (stat s)
           o (runtime s).
Definition set_runtime (r : runtime_t) (s : Server) : Server :=
  mkServer (Host s) (Port s) (Password s) (Method s) (Timeout s) (stat s)
           (options s) r.

Definition Valid (s : Server) : bool :=
  nonempty (Host s) && (0 <? Port s) && (Port s <? 65536)
  && (8 <=? String.length (Password s))%nat
  && ValidateEncryptMethod (Method s) && (0 <? Timeout s).

Definition opts (s : Server) : list string :=
  (if nonempty (r_config (runtime s))
   then ["-c"; r_config (runtime s)]
   else ["-s"; Host s; "-p"; Sprint (Port s); "-m"; Method s;
         "-k"; Password s; "-d"; Sprint (Timeout s)])
  ++ BuildArgs (options s).

Definition GetStat (s : Server) : Stat :=
  match stat s with
  | None => mkStat 0
  | Some st => st
  end.

(** The value [clone] builds before taking its address. *)
Definition clone_value (s : Server) : Server :=
  let copy := s in
  let copy := set_stat (Some (GetStat s)) copy in
  set_runtime (mkRuntime (r_path (runtime copy)) (r_cmd (runtime copy)) None
                         (r_config (runtime copy))) copy.

(** *** The process, its heap and the operating system around it *)

Inductive level : Type := DebugLevel | InfoLevel | WarnLevel.

Inductive message : Type :=
| UnrecognizedCommand (cmd : list byte)
| StatBodyIs (body : list byte)
| UnmarshalError
| InvalidStat
| ServerOnPortNotFound (port : Z)
| CanNotDeletePath (p : string)
| CanNotSavePidFile
| RunningAtProcess (pid : Z)
| KillFailed
| CanNotRestartServer (cmdline : list string)
| DeletingServer.

(** What an observer of the process can see happen, in order. *)
Inductive event : Type :=
| Logged (lv : level) (m : message)
| TableInsert (port : Z) (l : positive)
| TableDelete (port : Z)
| ProcStarted (pid : Z)
| ProcKilled (pid : Z)
| ProcWaited (pid : option Z)
| LogClosed (f : string)
| TreeRemoved (p : string).

Record world : Type := mkWorld {
  (* Go heap *)
  heap : gmap positive Server;
  next_loc : positive;
  cmds : gmap positive Cmd;
  next_cmd : positive;
  (* the [manager] struct, locks apart *)
  servers : gmap Z positive;
  mgr_path : string;
  udpPort : Z;
  (* operating system *)
  files : gset string;
  procs : gset Z;
  next_pid : Z;
  (* history *)
  trace : list event
}.

Definition with_heap (h : gmap positive Server) (n : positive) (w : world) :=
  mkWorld h n (cmds w) (next_cmd w) (servers w) (mgr_path w) (udpPort w)
          (files w) (procs w) (next_pid w) (trace w).
Definition with_cmds (c : gmap positive Cmd) (n : positive) (w : world) :=
  mkWorld (heap w) (next_loc w) c n (servers w) (mgr_path w) (udpPort w)
          (files w) (procs w) (next_pid w) (trace w).
Definition with_servers (t : gmap Z positive) (w : world) :=
  mkWorld (heap w) (next_loc w) (cmds w) (next_cmd w) t (mgr_path w) (udpPort w)
          (files w) (procs w) (next_pid w) (trace w).
Definition with_files (f : gset string) (w : world) :=
  mkWorld (heap w) (next_loc w) (cmds w) (next_cmd w) (servers w) (mgr_path w)
          (udpPort w) f (procs w) (next_pid w) (trace w).
Definition with_procs (p : gset Z) (n : Z) (w : world) :=
  mkWorld (heap w) (next_loc w) (cmds w) (next_cmd w) (servers w) (mgr_path w)
          (udpPort w) (files w) p n (trace w).
Definition with_trace (t : list event) (w : world) :=
  mkWorld (heap w) (next_loc w) (cmds w) (next_cmd w) (servers w) (mgr_path w)
          (udpPort w) (files w) (procs w) (next_pid w) t.

(** How the operating system and [encoding/json] answer.  For
    [os.RemoveAll] there are two answers: whether the call on a path
    returns nil, and, for a call that returns an error, which paths it
    could not delete ([os.RemoveAll] removes everything it can and
    returns the first error it met).  The decoder
    yields the entries of the decoded [map[string]int64] in the order a
    [range] over that map visits them ([Some []] for an empty object or
    [null]), or [None] for an error. *)
Record Env : Type := mkEnv {
  os_MkdirAll : string -> bool;
  os_WriteFile : string -> bool;
  os_Create : string -> bool;
  os_Start : list string -> bool;
  os_RemoveAll : string -> bool;
  os_RemoveAll_left : string -> bool;
  os_Kill : Z -> bool;
  json_Unmarshal : list byte -> option (list (string * Z))
}.

Definition NewManager (home : string) (port : Z) : world :=
  {| heap := ∅; next_loc := 1%positive; cmds := ∅; next_cmd := 1%positive;
     servers := ∅;
     mgr_path := path_Join home ".shadowsocks_manager";
     udpPort := port;
     files := ∅; procs := ∅; next_pid := 1; trace := [] |}.

Definition emit (e : event) : M world unit :=
  modify (fun w => with_trace (trace w ++ [e]) w).

Definition log (lv : level) (m : message) : M world unit := emit (Logged lv m).

(** [*s] *)
Definition load (l : positive) : M world Server :=
  fun w => match heap w !! l with
           | Some s => (Ret s, w)
           | None => (Panic NilDereference, w)
           end.

(** [*s = v] *)
Definition store (l : positive) (v : Server) : M world unit :=
  fun w => match heap w !! l with
           | Some _ => (Ret tt, with_heap (<[l := v]> (heap w)) (next_loc w) w)
           | None => (Panic NilDereference, w)
           end.

(** [&copy] for a local that escapes: a new heap cell. *)
Definition alloc (v : Server) : M world positive :=
  fun w => (Ret (next_loc w),
            with_heap (<[next_loc w := v]> (heap w)) (Pos.succ (next_loc w)) w).

Definition alloc_cmd (c : Cmd) : M world positive :=
  fun w => (Ret (next_cmd w),
            with_cmds (<[next_cmd w := c]> (cmds w)) (Pos.succ (next_cmd w)) w).

(** Is [f] the path [p] or a path below it? *)
Definition under (p f : string) : bool :=
  String.eqb p f || String.prefix (p +:+ "/") f.

(** *** Operations *)

Section WithEnv.
Variable E : Env.

Definition MkdirAll (p : string) : M world (option error) :=
  if os_MkdirAll E p
  then modify (fun w => with_files ({[p]} ∪ files w) w) ;;; ret None
  else ret (Some (ErrMkdirAll p)).

Definition WriteFile (f : string) : M world (option error) :=
  if os_WriteFile E f
  then modify (fun w => with_files ({[f]} ∪ files w) w) ;;; ret None
  else ret (Some (ErrWriteFile f)).

Definition Create (f : string) : M world (error + string) :=
  if os_Create E f
  then modify (fun w => with_files ({[f]} ∪ files w) w) ;;; ret (inr f)
  else ret (inl (ErrCreate f)).

(** [os.RemoveAll]: nothing to do for the empty path.  A call that
    returns nil has removed [p] and everything below it.  A call that
    returns an error has still removed, of [p] and what is below it,
    every path it could: what stays is what the operating system did
    not let it delete. *)
Definition RemoveAll (p : string) : M world (option error) :=
  if negb (nonempty p) then ret None
  else if os_RemoveAll E p
  then modify (fun w =>
         with_files (filter (fun f => under p f = false) (files w)) w) ;;;
       emit (TreeRemoved p) ;;;
       ret None
  else modify (fun w =>
         with_files
           (filter (fun f => under p f = false ∨ os_RemoveAll_left E f = true)
                   (files w)) w) ;;;
       ret (Some (ErrRemoveAll p)).

(** [Save]: marshalling this struct cannot fail, writing the file can. *)
Definition Save (s : positive) (filename : string) : M world (option error) :=
  let! _ := load s in
  WriteFile filename.

Definition Process (s : positive) : M world (option Z) :=
  let! v := load s in
  match r_cmd (runtime v) with
  | Some c =>
      fun w => match cmds w !! c with
               | Some cmd => (Ret (cmd_Process cmd), w)
               | None => (Panic NilDereference, w)
               end
  | None => ret None
  end.

(** Modelled from the spec: [process.Alive] belongs to a package that
    is absent from the sources; it tells whether the operating system
    still has a live process with that pid. *)
Definition process_Alive (pid : Z) : M world bool :=
  gets (fun w => bool_decide (pid ∈ procs w)).

Definition Alive (s : positive) : M world bool :=
  let! proc := Process s in
  match proc with
  | Some pid => process_Alive pid
  | None => ret false
  end.

Definition SavePidFile (s : positive) : M world (option error) :=
  let! proc := Process s in
  let! v := load s in
  if nonempty (PidFile (options v)) && bool_decide (is_Some proc)
  then WriteFile (PidFile (options v))
  else ret None.

Definition clone (s : positive) : M world positive :=
  let! v := load s in
  alloc (clone_value v).

Definition prepareExec (s : positive) : M world (option error) :=
  let! v := load s in
  let! base := gets mgr_path in
  let! port := gets udpPort in
  let pathPrefix := path_Join base (Sprint (Port v)) in
  let o := options v in
  store s (set_options
             (mkOptions (MPTCP o) (TCPFastOpen o) (Auth o) (NameServer o)
                        (path_Join pathPrefix "ss_server.pid")
                        ("127.0.0.1:" +:+ Sprint port)
                        (Interface o) (FireWall o) true) v) ;;;
  let! err := MkdirAll pathPrefix in
  match err with
  | Some e => ret (Some e)
  | None =>
      let configFile := path_Join pathPrefix "ss_server.json" in
      let! err := Save s configFile in
      match err with
      | Some e => ret (Some e)
      | None =>
          let! v := load s in
          let r := runtime v in
          store s (set_runtime
                     (mkRuntime pathPrefix (r_cmd r) (r_logw r) configFile) v) ;;;
          ret None
      end
  end.

Definition deleteResidue (s : positive) : M world (option error) :=
  let! v := load s in
  let! err := RemoveAll (r_path (runtime v)) in
  match err with
  | Some e => log WarnLevel (CanNotDeletePath (r_path (runtime v))) ;;; ret (Some e)
  | None => ret None
  end.

(** [cmd.Start] *)
Definition Start (c : positive) : M world (option error) :=
  fun w =>
    match cmds w !! c with
    | None => (Panic NilDereference, w)
    | Some cmd =>
        if os_Start E (cmd_Args cmd)
        then
          let pid := next_pid w in
          let w := with_procs ({[pid]} ∪ procs w) (pid + 1) w in
          let w := with_cmds
                     (<[c := mkCmd (cmd_Args cmd) (cmd_Stdout cmd) (Some pid)]> (cmds w))
                     (next_cmd w) w in
          (emit (ProcStarted pid) ;;; ret None) w
        else (Ret (Some (ErrStart (cmd_Args cmd))), w)
    end.

Definition exec (s : positive) : M world (option error) :=
  let! err := prepareExec s in
  match err with
  | Some e => ret (Some e)
  | None =>
      let! v := load s in
      let! r := Create (path_Join (r_path (runtime v)) "ss_server.log") in
      match r with
      | inl e => ret (Some e)
      | inr logw =>
          let! cmd := alloc_cmd (mkCmd ("ss-server" :: opts v) (Some logw) None) in
          let rt := runtime v in
          store s (set_runtime
                     (mkRuntime (r_path rt) (Some cmd) (Some logw) (r_config rt)) v) ;;;
          let! err := Start cmd in
          match err with
          | Some e => ret (Some e)
          | None =>
              let! err := SavePidFile s in
              match err with
              | Some _ => log WarnLevel CanNotSavePidFile
              | None => ret tt
              end ;;;
              let! proc := Process s in
              match proc with
              | Some pid => log InfoLevel (RunningAtProcess pid) ;;; ret None
              | None => panic NilDereference
              end
          end
      end
  end.

Definition kill (s : positive) : M world unit :=
  let! proc := Process s in
  match proc with
  | None => panic NilDereference
  | Some pid =>
      modify (fun w => with_procs (procs w ∖ {[pid]}) (next_pid w) w) ;;;
      emit (ProcKilled pid) ;;;
      (if os_Kill E pid then ret tt else log WarnLevel KillFailed) ;;;
      emit (ProcWaited (Some pid)) ;;;
      let! v := load s in
      match r_logw (runtime v) with
      | None => panic NilDereference
      | Some f => emit (LogClosed f)
      end ;;;
      let! _ := deleteResidue s in
      ret tt
  end.

Definition Add (s : positive) : M world (option error) :=
  let! v := load s in
  let! table := gets servers in
  match table !! Port v with
  | Some _ => ret (Some ErrServerExists)
  | None =>
      if negb (Valid v) then ret (Some ErrInvalidServer)
      else
        let! err := exec s in
        match err with
        | Some e => ret (Some e)
        | None =>
            let! v := load s in
            modify (fun w => with_servers (<[Port v := s]> (servers w)) w) ;;;
            emit (TableInsert (Port v) s) ;;;
            ret None
        end
  end.

Definition remove (port : Z) : M world unit :=
  modify (fun w => with_servers (delete port (servers w)) w) ;;;
  emit (TableDelete port).

Definition Remove (port : Z) : M world (option error) :=
  let! table := gets servers in
  match table !! port with
  | None => ret (Some ErrServerNotFound)
  | Some s =>
      modify (fun w => with_servers (delete port (servers w)) w) ;;;
      emit (TableDelete port) ;;;
      kill s ;;;
      ret None
  end.

Fixpoint clone_all (entries : list (Z * positive)) (acc : gmap Z positive)
  : M world (gmap Z positive) :=
  match entries with
  | [] => ret acc
  | (port, s) :: rest =>
      let! c := clone s in
      clone_all rest (<[port := c]> acc)
  end.

Definition ListServers : M world (gmap Z positive) :=
  let! table := gets servers in
  clone_all (map_to_list table) ∅.

Definition GetServer (port : Z) : M world (error + positive) :=
  let! table := gets servers in
  match table !! port with
  | None => ret (inl ErrServerNotFound)
  | Some s =>
      let! c := clone s in
      ret (inr c)
  end.

(** The body of the inner loop of [ServerMonitor]. *)
Definition monitor_one (s : positive) : M world unit :=
  let! alive := Alive s in
  if alive then ret tt
  else
    let! err := exec s in
    match err with
    | Some _ =>
        let! v := load s in
        log WarnLevel (CanNotRestartServer ("ss-server" :: opts v)) ;;;
        log WarnLevel DeletingServer ;;;
        let! _ := deleteResidue s in
        let! v := load s in
        remove (Port v)
    | None => ret tt
    end.

(** One round of [ServerMonitor], entered when the sleep is over. *)
Definition monitor_round : M world unit :=
  let! snapshot := ListServers in
  for_each (map_to_list snapshot) (fun '(_, s) => monitor_one s).

(** The first [rounds] rounds of the endless loop. *)
Fixpoint ServerMonitor (rounds : nat) : M world unit :=
  match rounds with
  | O => ret tt
  | S n => monitor_round ;;; ServerMonitor n
  end.

Definition stat_tag : list byte := [x73; x74; x61; x74].

Definition StatRecvHandler (data : slice) : M world unit :=
  match slice_to 4 data with
  | Panic f => panic f
  | Ret cmd =>
      if negb (bool_decide (cmd = stat_tag))
      then log WarnLevel (UnrecognizedCommand cmd)
      else
        match slice_from 5 data with
        | Panic f => panic f
        | Ret rest =>
            let body := TrimSpace rest in
            log DebugLevel (StatBodyIs body) ;;;
            match json_Unmarshal E body with
            | None => log WarnLevel UnmarshalError
            | Some st =>
                let '(port, traffic) :=
                  match st with
                  | [] => (-1, -1)
                  | (portS, trafficS) :: _ => (Atoi portS, trafficS)
                  end in
                if (port <? 0) || (traffic <? 0)
                then log WarnLevel InvalidStat
                else
                  let! table := gets servers in
                  match table !! int32 port with
                  | None => log WarnLevel (ServerOnPortNotFound port)
                  | Some s =>
                      let! v := load s in
                      store s (set_stat (Some (mkStat traffic)) v)
                  end
            end
        end
  end.

(** One turn of the receive loop started by [Listen]: the datagram
    lands at the front of the 1024-byte buffer [buf], whose tail keeps
    what earlier datagrams left there, and all but the last byte read
    is handed to the handler.  The new buffer is returned. *)
Definition receive (buf dgram : list byte) : M world (list byte) :=
  let n := Nat.min (length dgram) (length buf) in
  let buf' := take n dgram ++ drop n buf in
  match n with
  | O => panic SliceBounds
  | S m => StatRecvHandler (mkSlice buf' m) ;;; ret buf'
  end.

End WithEnv.

(** *** Vocabulary of the properties *)

(** What a caller reads through the pointer [GetServer] returns. *)
Definition GetServer_value (port : Z) : M world (error + Server) :=
  let! r := GetServer port in
  match r with
  | inl e => ret (inl e)
  | inr c =>
      let! v := load c in
      ret (inr v)
  end.

(** What a caller reads through the pointers [ListServers] returns. *)
Definition ListServers_value : M world (gmap Z Server) :=
  let! snapshot := ListServers in
  gets (fun w => omap (fun c => heap w !! c) snapshot).

(** A caller assigns to fields of the struct at [c]. *)
Definition poke (c : positive) (f : Server -> Server) (w : world) : world :=
  with_heap (alter f c (heap w)) (next_loc w) w.

(** Addresses in use lie below the allocation pointer. *)
Definition heap_bounded (w : world) : Prop :=
  map_Forall (fun l _ => (l < next_loc w)%positive) (heap w).

(** The table holds pointers to live structs. *)
Definition table_valid (w : world) : Prop :=
  map_Forall (fun _ s => is_Some (heap w !! s)) (servers w).

(** [v'] has the exported fields and the statistics of [v]. *)
Definition same_config (v v' : Server) : Prop :=
  Host v' = Host v /\ Port v' = Port v /\ Password v' = Password v
  /\ Method v' = Method v /\ Timeout v' = Timeout v /\ stat v' = stat v.

(** The entry at [s] is as [exec] leaves it on success: a working
    directory, an open log and a started process [pid]. *)
Definition launched (w : world) (s : positive) (v : Server) (pid : Z) : Prop :=
  heap w !! s = Some v
  /\ nonempty (r_path (runtime v)) = true
  /\ is_Some (r_logw (runtime v))
  /\ exists c cmd, r_cmd (runtime v) = Some c /\ cmds w !! c = Some cmd
                    /\ cmd_Process cmd = Some pid.

(** The body of a packet as the handler hands it to the decoder. *)
Definition body_of (data : slice) : list byte :=
  TrimSpace (drop 5 (take (len data) (arr data))).

(** The packet passes every check of the handler: it carries the tag,
    its body decodes, the first entry met has a port and a count that
    are not negative, and the table has an entry [s] for that port. *)
Definition accepted (E : Env) (w : world) (data : slice)
    (s : positive) (traffic : Z) : Prop :=
  take 4 (arr data) = stat_tag
  /\ exists portS rest,
       json_Unmarshal E (body_of data) = Some ((portS, traffic) :: rest)
       /\ 0 <= Atoi portS /\ 0 <= traffic
       /\ servers w !! int32 (Atoi portS) = Some s.

(** The last thing that happened from [w] to [w'] is a warning. *)
Definition warned (w w' : world) : Prop :=
  exists pre m, trace w' = trace w ++ pre ++ [Logged WarnLevel m].

(** The table as its readers get to see it: a clone of every entry. *)
Definition table_view (w : world) : gmap Z Server :=
  omap (fun s => clone_value <$> heap w !! s) (servers w).

(** Commands in use lie below the allocation pointer, and the pids they
    record below the next pid the system will give out. *)
Definition cmds_bounded (w : world) : Prop :=
  map_Forall (fun c cmd => (c < next_cmd w)%positive
                           /\ forall pid, cmd_Process cmd = Some pid -> pid < next_pid w)
             (cmds w).

(** From [w] to [w'] commands and processes were only added: the
    commands and the pids [w] knew are as they were. *)
Definition grown (w w' : world) : Prop :=
  (next_cmd w <= next_cmd w')%positive
  /\ (forall c, (c < next_cmd w)%positive -> cmds w' !! c = cmds w !! c)
  /\ (cmds_bounded w -> cmds_bounded w')
  /\ next_pid w <= next_pid w'
  /\ (forall pid, pid < next_pid w -> (pid ∈ procs w' <-> pid ∈ procs w)).

(** From [w0] to [w] no struct that [w0] had was written and no entry
    was put into the table. *)
Definition untouched (w0 w : world) : Prop :=
  (next_loc w0 <= next_loc w)%positive
  /\ (forall l, (l < next_loc w0)%positive -> heap w !! l = heap w0 !! l)
  /\ (heap_bounded w0 -> heap_bounded w)
  /\ grown w0 w
  /\ (forall port s, servers w !! port = Some s -> servers w0 !! port = Some s)
  /\ mgr_path w = mgr_path w0.

(** As [untouched], but processes may have gone. *)
Definition kept (w0 w : world) : Prop :=
  (next_loc w0 <= next_loc w)%positive
  /\ (forall l, (l < next_loc w0)%positive -> heap w !! l = heap w0 !! l)
  /\ (heap_bounded w0 -> heap_bounded w)
  /\ (next_cmd w0 <= next_cmd w)%positive
  /\ (forall c, (c < next_cmd w0)%positive -> cmds w !! c = cmds w0 !! c)
  /\ (cmds_bounded w0 -> cmds_bounded w)
  /\ (forall port s, servers w !! port = Some s -> servers w0 !! port = Some s)
  /\ mgr_path w = mgr_path w0.

(** *** The states the supervisor can be in *)

(** What can happen to a manager: its caller builds a configuration,
    calls a method, the monitor wakes up, a packet arrives, a process
    dies on its own. *)
Inductive action : Type :=
| CallerNew (v : Server)
| CallAdd (s : positive)
| CallRemove (port : Z)
| CallListServers
| CallGetServer (port : Z)
| MonitorRound
| Packet (data : slice)
| ProcessDies (pid : Z).

(** The world after the action, under the environment of the moment. *)
Definition step (w : world) (ea : Env * action) : world :=
  let '(E, a) := ea in
  match a with
  | CallerNew v => (alloc v w).2
  | CallAdd s => (Add E s w).2
  | CallRemove port => (Remove E port w).2
  | CallListServers => (ListServers w).2
  | CallGetServer port => (GetServer port w).2
  | MonitorRound => (monitor_round E w).2
  | Packet data => (StatRecvHandler E data w).2
  | ProcessDies pid => with_procs (procs w ∖ {[pid]}) (next_pid w) w
  end.

(** The world a manager made by [NewManager] is in after a history. *)
Definition reached (home : string) (port : Z) (history : list (Env * action))
  : world :=
  foldl step (NewManager home port) history.

(** The table entry for [port] points to a launched server of that port,
    whose working directory is the one of that port. *)
Definition entry_sound (w : world) (port : Z) (s : positive) : Prop :=
  exists v pid, launched w s v pid /\ Port v = port
                /\ r_path (runtime v) = path_Join (mgr_path w) (Sprint port).

Definition sound (w : world) : Prop :=
  heap_bounded w /\ cmds_bounded w /\ map_Forall (entry_sound w) (servers w).

(** *** What a launch leaves behind *)

(** The working directory of the server of [port], and the files
    [exec] puts there. *)
Definition workdir (w : world) (port : Z) : string :=
  path_Join (mgr_path w) (Sprint port).

Definition config_file (w : world) (port : Z) : string :=
  path_Join (workdir w port) "ss_server.json".

Definition log_file (w : world) (port : Z) : string :=
  path_Join (workdir w port) "ss_server.log".

Definition pid_file (w : world) (port : Z) : string :=
  path_Join (workdir w port) "ss_server.pid".

(** The options of [v] once [prepareExec] has filled in its three. *)
Definition prepared (w : world) (v : Server) : serverOptions :=
  let o := options v in
  mkOptions (MPTCP o) (TCPFastOpen o) (Auth o) (NameServer o)
            (pid_file w (Port v)) ("127.0.0.1:" +:+ Sprint (udpPort w))
            (Interface o) (FireWall o) true.

(** The struct [exec] leaves at its receiver when it returns nil, the
    receiver having held [v] in [w]: the new command is the next one
    allocated. *)
Definition started (w : world) (v : Server) : Server :=
  set_runtime (mkRuntime (workdir w (Port v)) (Some (next_cmd w))
                         (Some (log_file w (Port v))) (config_file w (Port v)))
              (set_options (prepared w v) v).

(** The command [exec] starts for it. *)
Definition command_line (w : world) (v : Server) : list string :=
  "ss-server" :: opts (started w v).

(** The operating system lets every step of the launch of [v] through. *)
Definition permitted (E : Env) (w : world) (v : Server) : Prop :=
  let port := Port v in
  os_MkdirAll E (workdir w port) = true
  /\ os_WriteFile E (config_file w port) = true
  /\ os_Create E (log_file w port) = true
  /\ os_Start E (command_line w v) = true.

(** [e] is the error of the first step of the launch of [v] that the
    operating system refuses. *)
Definition refused (E : Env) (w : world) (v : Server) (e : error) : Prop :=
  let port := Port v in
  (e = ErrMkdirAll (workdir w port) /\ os_MkdirAll E (workdir w port) = false)
  \/ (e = ErrWriteFile (config_file w port)
      /\ os_MkdirAll E (workdir w port) = true
      /\ os_WriteFile E (config_file w port) = false)
  \/ (e = ErrCreate (log_file w port)
      /\ os_MkdirAll E (workdir w port) = true
      /\ os_WriteFile E (config_file w port) = true
      /\ os_Create E (log_file w port) = false)
  \/ (e = ErrStart (command_line w v)
      /\ os_MkdirAll E (workdir w port) = true
      /\ os_WriteFile E (config_file w port) = true
      /\ os_Create E (log_file w port) = true
      /\ os_Start E (command_line w v) = false).

(** What [Add] comes to, case by case. *)
Definition Add_outcome (E : Env) (s : positive) (w : world) (v : Server)
    (o : outcome (option error)) (w' : world) : Prop :=
  match servers w !! Port v with
  | Some _ => o = Ret (Some ErrServerExists) /\ w' = w
  | None =>
      if Valid v
      then match o with
           | Ret None =>
               permitted E w v
               /\ heap w' = <[s := started w v]> (heap w)
               /\ next_loc w' = next_loc w
               /\ cmds w' = <[next_cmd w := mkCmd (command_line w v)
                                             (Some (log_file w (Port v)))
                                             (Some (next_pid w))]> (cmds w)
               /\ procs w' = {[next_pid w]} ∪ procs w
               /\ {[workdir w (Port v); config_file w (Port v); log_file w (Port v)]}
                   ∪ files w ⊆ files w'
               /\ (os_WriteFile E (pid_file w (Port v)) = true ->
                  pid_file w (Port v) ∈ files w')
               /\ servers w' = <[Port v := s]> (servers w)
           | Ret (Some e) =>
               refused E w v e /\ procs w' = procs w /\ files w ⊆ files w'
               /\ servers w' = servers w
           | Panic _ => False
           end
      else o = Ret (Some ErrInvalidServer) /\ w' = w
  end.

(** Every table entry holds a configuration that [Valid] accepts. *)
Definition valid_entries (w : world) : Prop :=
  map_Forall (fun _ s => exists v, heap w !! s = Some v /\ Valid v = true) (servers w).

(** The bytes the handler sees of a datagram read into [buf]. *)
Definition landed (buf dgram : list byte) : list byte :=
  let n := Nat.min (length dgram) (length buf) in
  take n dgram ++ drop n buf.

End Shadowsocks.

(** ** Concrete remotes, environments and states used in the examples *)

Module Fixtures.

Module Slave.
Import Manager.

Definition alice : ShadowsocksService := mkService "alice" 8388 "secret-01".
Definition bob : ShadowsocksService := mkService "bob" 8389 "secret-02".

(** A remote that grants whatever it is asked, lists [alice] and
    reports one counter. *)
Definition obliging : Remote :=
  {| grpc_Dial := fun url => inr (mkConn url);
     conn_Close := fun _ => None;
     rpc_Allocate := inr;
     rpc_Free := inr;
     rpc_ListServices := inr (constructProtocolServiceList [alice]);
     rpc_GetStats := inr (Some {[ 8388 := 1024 ]});
     rpc_SetStats := fun _ => None |}.

Definition fresh : node := mkNode (NewSlave "node-1:6001" "token") [].
Definition dialed : node := snd (Dial obliging fresh).

(** A remote no call gets through to. *)
Definition unreachable : Remote :=
  {| grpc_Dial := fun _ => inl (ErrChannel "connection refused");
     conn_Close := fun _ => None;
     rpc_Allocate := fun _ => inl (ErrChannel "unavailable");
     rpc_Free := fun _ => inl (ErrChannel "unavailable");
     rpc_ListServices := inl (ErrChannel "unavailable");
     rpc_GetStats := inl (ErrChannel "unavailable");
     rpc_SetStats := fun _ => Some (ErrChannel "unavailable") |}.

(** A dialed node whose two maps both exist: [bob] is opened and has
    moved 7 bytes. *)
Definition stocked : node :=
  mkNode (set_meta (mkMeta (Some {[ 8389 := bob ]}) (Some {[ 8389 := 7 ]}))
                   (this dialed)) [].
End Slave.

Module Supervisor.
Import Shadowsocks.

(** A decoder for the flat objects [ss-server] reports, entries in
    textual order: [{ "key" : integer , ... }]. *)
Definition is_digit (b : byte) : bool :=
  match b with
  | x30 | x31 | x32 | x33 | x34 | x35 | x36 | x37 | x38 | x39 => true
  | _ => false
  end.

Fixpoint read_until_quote (l acc : list byte) : option (string * list byte) :=
  match l with
  | [] => None
  | x22 :: r => Some (string_of_list_byte (rev acc), r)
  | x5c :: _ => None
  | b :: r => read_until_quote r (b :: acc)
  end.

Definition read_string (l : list byte) : option (string * list byte) :=
  match l with
  | x22 :: r => read_until_quote r []
  | _ => None
  end.

Fixpoint span_digits (l acc : list byte) : list byte * list byte :=
  match l with
  | b :: r => if is_digit b then span_digits r (b :: acc) else (rev acc, l)
  | [] => (rev acc, [])
  end.

Definition read_number (l : list byte) : option (Z * list byte) :=
  let '(neg, l') := match l with x2d :: r => (true, r) | _ => (false, l) end in
  match span_digits l' [] with
  | ([], _) => None
  | (ds, r) =>
      match parse_digits 0 (string_of_list_byte ds) with
      | Some n => Some (if neg : bool then - n else n, r)
      | None => None
      end
  end.

Fixpoint members (fuel : nat) (l : list byte) (acc : list (string * Z))
  : option (list (string * Z) * list byte) :=
  match fuel with
  | O => None
  | S fuel' =>
      match read_string (trim_left l) with
      | None => None
      | Some (k, r) =>
          match trim_left r with
          | x3a :: r' =>
              match read_number (trim_left r') with
              | None => None
              | Some (v, r'') =>
                  match trim_left r'' with
                  | x2c :: r3 => members fuel' r3 (acc ++ [(k, v)])
                  | x7d :: r3 => Some (acc ++ [(k, v)], r3)
                  | _ => None
                  end
              end
          | _ => None
          end
      end
  end.

Definition flat_Unmarshal (body : list byte) : option (list (string * Z)) :=
  match trim_left body with
  | x7b :: r =>
      match trim_left r with
      | x7d :: r' => match trim_left r' with [] => Some [] | _ => None end
      | _ =>
          match members (length r) r [] with
          | Some (kvs, r') => match trim_left r' with [] => Some kvs | _ => None end
          | None => None
          end
      end
  | _ => None
  end.

(** Every system call succeeds. *)
Definition friendly : Env :=
  {| os_MkdirAll := fun _ => true;
     os_WriteFile := fun _ => true;
     os_Create := fun _ => true;
     os_Start := fun _ => true;
     os_RemoveAll := fun _ => true;
     os_RemoveAll_left := fun _ => false;
     os_Kill := fun _ => true;
     json_Unmarshal := flat_Unmarshal |}.

(** As [friendly], with [range] visiting the entries the other way round. *)
Definition friendly_backwards : Env :=
  {| os_MkdirAll := fun _ => true;
     os_WriteFile := fun _ => true;
     os_Create := fun _ => true;
     os_Start := fun _ => true;
     os_RemoveAll := fun _ => true;
     os_RemoveAll_left := fun _ => false;
     os_Kill := fun _ => true;
     json_Unmarshal := fun b => (fun kvs => rev kvs) <$> flat_Unmarshal b |}.

(** As [friendly], but nothing can be removed (a file system mounted
    read-only, say): [os.RemoveAll] fails and leaves everything. *)
Definition sticky : Env :=
  {| os_MkdirAll := fun _ => true;
     os_WriteFile := fun _ => true;
     os_Create := fun _ => true;
     os_Start := fun _ => true;
     os_RemoveAll := fun _ => false;
     os_RemoveAll_left := fun _ => true;
     os_Kill := fun _ => true;
     json_Unmarshal := flat_Unmarshal |}.

(** As [friendly], but the configuration file of port 8388 cannot be
    deleted (and so neither can the directory that holds it):
    [os.RemoveAll] of that directory deletes the rest, the log and the
    pid file, and fails. *)
Definition config_locked : Env :=
  {| os_MkdirAll := fun _ => true;
     os_WriteFile := fun _ => true;
     os_Create := fun _ => true;
     os_Start := fun _ => true;
     os_RemoveAll := fun _ => false;
     os_RemoveAll_left := fun f =>
       String.eqb f "/root/.shadowsocks_manager/8388"
       || String.eqb f "/root/.shadowsocks_manager/8388/ss_server.json";
     os_Kill := fun _ => true;
     json_Unmarshal := flat_Unmarshal |}.

Definition no_options : serverOptions :=
  mkOptions false false false "" "" "" "" false false.

Definition config (port : Z) : Server :=
  mkServer "0.0.0.0" port "password" "aes-256-cfb" 60 None
           no_options (mkRuntime "" None None "").

(** A configuration for port 8388 that fails every check of [Valid]. *)
Definition rival : Server :=
  mkServer "" 8388 "short" "rot13" 0 (Some (mkStat 99))
           no_options (mkRuntime "" None None "").

(** A new manager for which the caller builds three configurations,
    then adds the first, then the second. *)
Definition setting_up : list (Env * action) :=
  [ (friendly, CallerNew (config 8388)); (friendly, CallerNew (config 9000));
    (friendly, CallerNew rival) ].

Definition adding_one : list (Env * action) :=
  setting_up ++ [ (friendly, CallAdd 1%positive) ].

Definition adding_two : list (Env * action) :=
  adding_one ++ [ (friendly, CallAdd 2%positive) ].

(** As [friendly], but the [ss-server] binary cannot be started. *)
Definition binary_missing : Env :=
  {| os_MkdirAll := fun _ => true;
     os_WriteFile := fun _ => true;
     os_Create := fun _ => true;
     os_Start := fun _ => false;
     os_RemoveAll := fun _ => true;
     os_RemoveAll_left := fun _ => false;
     os_Kill := fun _ => true;
     json_Unmarshal := flat_Unmarshal |}.

Definition initial : world := reached "/root" 6001 setting_up.
Definition one_server : world := reached "/root" 6001 adding_one.
Definition two_servers : world := reached "/root" 6001 adding_two.

(** The process of port 8388 has died behind the manager's back. *)
Definition crashed : world :=
  reached "/root" 6001 (adding_one ++ [ (friendly, ProcessDies 1) ]).

Definition dq : string := String "034" EmptyString.

Definition packet (text : string) : slice :=
  let bytes := list_byte_of_string text in
  mkSlice bytes (length bytes).

(** [{"8388":1024}] and [stat {"8388":1024}] *)
Definition body_8388_1024 : list byte :=
  list_byte_of_string ("{" +:+ dq +:+ "8388" +:+ dq +:+ ":1024}").

Definition stat_8388_1024 : slice :=
  packet ("stat {" +:+ dq +:+ "8388" +:+ dq +:+ ":1024}").

(** [stat {"7000":5}] *)
Definition stat_7000_5 : slice :=
  packet ("stat {" +:+ dq +:+ "7000" +:+ dq +:+ ":5}").

(** [stat {"8388":7,"9000":9}] *)
Definition stat_two_keys : slice :=
  packet ("stat {" +:+ dq +:+ "8388" +:+ dq +:+ ":7,"
                   +:+ dq +:+ "9000" +:+ dq +:+ ":9}").

(** [stat {"4294975684":5}]: 2^32 + 8388 *)
Definition stat_wrapping : slice :=
  packet ("stat {" +:+ dq +:+ "4294975684" +:+ dq +:+ ":5}").

(** The four bytes [stat] and nothing else. *)
Definition stat_bare : slice := packet "stat".

(** The receive buffer before any datagram, and [stat {"8388":1024}] as
    [ss-server] sends it, with a closing zero byte. *)
Definition empty_buffer : list byte := replicate 1024 x00.

Definition datagram_8388_1024 : list byte := arr stat_8388_1024 ++ [x00].
End Supervisor.

End Fixtures.

(** ** Properties of the remote-slave client *)

Module SlaveFacts.
Import Manager Fixtures.Slave.

Lemma elem_of_keys k l : k ∈ keys l ↔ ∃ p, p ∈ l ∧ key p = k.
Proof.
  unfold keys. rewrite elem_of_list_to_set, list_elem_of_fmap. naive_solver.
Qed.

Lemma elem_of_compareLists kind p req cur :
  (kind, p) ∈ compareLists req cur ↔
    match kind with
    | Missing => p ∈ req ∧ key p ∉ keys cur
    | Unexpected => p ∈ cur ∧ key p ∉ keys req
    end.
Proof.
  unfold compareLists. rewrite elem_of_app, !list_elem_of_fmap.
  setoid_rewrite list_elem_of_filter.
  destruct kind; naive_solver.
Qed.

Lemma compareLists_keys req cur :
  diff_keys (compareLists req cur) = (keys req ∖ keys cur) ∪ (keys cur ∖ keys req).
Proof.
  apply set_eq. intros k. unfold diff_keys.
  rewrite elem_of_list_to_set, list_elem_of_fmap, elem_of_union, !elem_of_difference.
  split.
  - intros [[kind p] [Hk Hin]]. subst k. apply elem_of_compareLists in Hin.
    simpl. destruct kind; destruct Hin as [Hp Hn]; [left | right];
      (split; [apply elem_of_keys; eauto | exact Hn]).
  - intros [[Hk Hn] | [Hk Hn]]; apply elem_of_keys in Hk as (p & Hp & <-).
    + exists (Missing, p). split; [done|]. by apply elem_of_compareLists.
    + exists (Unexpected, p). split; [done|]. by apply elem_of_compareLists.
Qed.

Lemma compareLists_nil req cur :
  compareLists req cur = [] ↔ keys req = keys cur.
Proof.
  split.
  - intros H. pose proof (compareLists_keys req cur) as Hk. rewrite H in Hk.
    unfold diff_keys in Hk. simpl in Hk.
    apply set_eq. intros k. 
    destruct (decide (k ∈ keys req)), (decide (k ∈ keys cur)); try tauto; set_solver.
  - intros H. 
    destruct (compareLists req cur) as [|[kind p] d] eqn:Hd; [done|].
    assert (Hin : (kind, p) ∈ compareLists req cur) by (rewrite Hd; left).
    apply elem_of_compareLists in Hin.
    destruct kind; destruct Hin as [Hp Hn]; exfalso; apply Hn;
      [rewrite <- H | rewrite H]; apply elem_of_keys; eauto.
Qed.

Lemma addPorts_made srvs o t :
  addPorts srvs (mkMeta (Some o) (Some t))
  = (Ret tt, mkMeta (Some (merged srvs o)) (Some (zeroed srvs t))).
Proof.
  revert o t. induction srvs as [|a srvs IH]; intros o t; [done|].
  unfold addPorts in *. cbn. unfold bind at 1. cbn. apply IH.
Qed.

Lemma addPorts_nil_stats a srvs o :
  addPorts (a :: srvs) (mkMeta (Some o) None)
  = (Panic NilMapWrite, mkMeta (Some (<[Port a := a]> o)) None).
Proof. reflexivity. Qed.

Lemma addPorts_nil_openedPorts a srvs t :
  addPorts (a :: srvs) (mkMeta None t) = (Panic NilMapWrite, mkMeta None t).
Proof. reflexivity. Qed.

Lemma addPorts_faults a srvs m :
  stats m = None →
  ∃ m', addPorts (a :: srvs) m = (Panic NilMapWrite, m') ∧ stats m' = None.
Proof.
  destruct m as [[o|] t]; simpl; intros ->; eexists; split; reflexivity.
Qed.

Lemma addPorts_keeps_nil_stats srvs m :
  stats m = None → stats (snd (addPorts srvs m)) = None.
Proof.
  destruct srvs as [|a srvs]; [done|]. intros H.
  destruct (addPorts_faults a srvs m H) as (m' & -> & Hm). done.
Qed.

Lemma removePorts_keeps_nil_stats srvs m :
  stats m = None → stats (snd (removePorts srvs m)) = None.
Proof.
  revert m. induction srvs as [|a srvs IH]; intros m H; [done|].
  unfold removePorts in *. cbn. apply IH. cbn. by rewrite H.
Qed.

Lemma setStats_nil_stats t m :
  stats m = None →
  setStats t m = (if decide (map_range t = []) then Ret tt else Panic NilMapWrite, m).
Proof.
  intros H. unfold setStats. destruct (map_range t) as [|[p v] l]; [done|].
  cbn. unfold bind, set_stats. by rewrite H.
Qed.

Lemma map_range_nonempty (t : gmap Z Z) : t ≠ ∅ → map_range (Some t) ≠ [].
Proof. intros H Hl. apply H. simpl in Hl. by apply map_to_list_empty_iff. Qed.

Lemma constructServiceList_nonempty resp :
  resp ≠ [] → ∃ a l, constructServiceList resp = a :: l.
Proof. destruct resp; [done|]. intros _. cbn. eauto. Qed.


Lemma perform_keeps_nil_stats n rc :
  stats (meta (this n)) = None → stats (meta (this (perform n rc))) = None.
Proof.
  destruct rc as [R c]. destruct n as [sl lg]. simpl. intros H.
  destruct c; simpl.
  - unfold Dial. simpl. by destruct (grpc_Dial R _).
  - unfold Close. simpl. by destruct (conn sl).
  - unfold Allocate, bind, need_stub. simpl. destruct (stub sl); [|done].
    destruct (rpc_Allocate R _) as [e|resp]; [done|].
    unfold on_meta. simpl.
    pose proof (addPorts_keeps_nil_stats (constructServiceList resp) _ H) as Hk.
    destruct (addPorts _ _) as [[[]|f] m']; simpl in *; [|done].
    by destruct (length _ =? 0)%nat.
  - unfold Free, bind, need_stub. simpl. destruct (stub sl); [|done].
    destruct (rpc_Free R _) as [e|resp]; [done|].
    unfold on_meta. simpl.
    pose proof (removePorts_keeps_nil_stats (constructServiceList resp) _ H) as Hk.
    destruct (removePorts _ _) as [[[]|f] m']; simpl in *; [|done].
    by destruct (length _ =? 0)%nat.
  - unfold ListServices, bind, need_stub. simpl. destruct (stub sl); [|done].
    destruct (rpc_ListServices R) as [e|resp]; [done|]. simpl.
    by destruct (length _ =? 0)%nat.
  - unfold GetStats, bind, need_stub. simpl. destruct (stub sl); [|done].
    destruct (rpc_GetStats R) as [e|t]; [done|].
    unfold on_meta. simpl. rewrite (setStats_nil_stats _ _ H).
    by destruct (decide _).
  - unfold SetStats, bind, need_stub. simpl. destruct (stub sl); [|done].
    destruct (rpc_SetStats R _) as [e|]; [done|].
    unfold on_meta. simpl. rewrite (setStats_nil_stats _ _ H).
    by destruct (decide _).
Qed.

Lemma after_nil_stats url tok calls :
  stats (meta (this (after url tok calls))) = None.
Proof.
  unfold after. induction calls as [|rc calls IH] using rev_ind; [done|].
  rewrite foldl_app. simpl. by apply perform_keeps_nil_stats.
Qed.


Lemma report_nil d : report d = None ↔ d = [].
Proof. by destruct d. Qed.

Lemma report_cons d : d ≠ [] → report d = Some (ErrDifference d).
Proof. by destruct d. Qed.

Lemma length_zero_report {S A} (d : list diffEntry) (l : A) (s : S) :
  (if (length d =? 0)%nat
   then ret (l, None)
   else ret (l, Some (constructErrorFromDifferenceServiceList d))) s
  = (Ret (l, report d), s).
Proof. by destruct d. Qed.

Lemma Allocate_channel_failure R n srvs err :
  is_Some (stub (this n)) →
  rpc_Allocate R (constructProtocolServiceList srvs) = inl err →
  Allocate R srvs n = (Ret ([], Some err), n).
Proof.
  intros [c Hc] H. unfold Allocate, bind, need_stub. by rewrite Hc, H.
Qed.

Lemma Allocate_made R n srvs resp o t :
  is_Some (stub (this n)) →
  meta (this n) = mkMeta (Some o) (Some t) →
  rpc_Allocate R (constructProtocolServiceList srvs) = inr resp →
  Allocate R srvs n
  = (Ret (constructServiceList resp,
          report (compareLists (constructProtocolServiceList srvs) resp)),
     mkNode (set_meta (mkMeta (Some (merged (constructServiceList resp) o))
                              (Some (zeroed (constructServiceList resp) t)))
                      (this n))
            (logrus n)).
Proof.
  intros [c Hc] Hm H. unfold Allocate, bind, need_stub, on_meta.
  rewrite Hc, H, Hm, addPorts_made. by rewrite length_zero_report.
Qed.

Lemma Allocate_returns R n srvs resp r n' :
  rpc_Allocate R (constructProtocolServiceList srvs) = inr resp →
  Allocate R srvs n = (Ret r, n') →
  r = (constructServiceList resp,
       report (compareLists (constructProtocolServiceList srvs) resp)).
Proof.
  intros H. unfold Allocate, bind, need_stub, on_meta.
  destruct (stub (this n)); [|done]. rewrite H.
  destruct (addPorts _ _) as [[[]|f] m']; [|done].
  rewrite length_zero_report. congruence.
Qed.

Lemma Free_returns R n srvs resp :
  is_Some (stub (this n)) →
  rpc_Free R (constructProtocolServiceList srvs) = inr resp →
  ∃ n', Free R srvs n
        = (Ret (constructServiceList resp,
                report (compareLists (constructProtocolServiceList srvs) resp)), n').
Proof.
  intros [c Hc] H. unfold Free, bind, need_stub, on_meta. rewrite Hc, H.
  assert (Hr : ∀ l m, ∃ m', removePorts l m = (Ret tt, m')).
  { induction l as [|a l IH]; intros m; [by eexists|].
    unfold removePorts in *. cbn. apply IH. }
  destruct (Hr (constructServiceList resp) (meta (this n))) as [m' ->].
  rewrite length_zero_report. by eexists.
Qed.

Lemma ListServices_returns R n resp :
  is_Some (stub (this n)) →
  rpc_ListServices R = inr resp →
  ListServices R n
  = (Ret (constructServiceList resp, None),
     mkNode (this n)
            (logrus n ++
             match report (compareLists
                             (constructProtocolServiceList
                                (meta_ListServices (meta (this n)))) resp) with
             | Some e => [e]
             | None => []
             end)).
Proof.
  intros [c Hc] H. unfold ListServices, bind, need_stub, gets. rewrite Hc, H.
  destruct (compareLists _ resp) as [|e d]; simpl.
  - rewrite app_nil_r. by destruct n.
  - done.
Qed.

(** C2.  [Allocate] on a slave made by [NewSlave] and dialed, answered
    by the remote with exactly the requested service: the call does not
    return; it stops on the write of the traffic counter, with the port
    already entered among the opened ports and no counter recorded. *)
Theorem Allocate_on_new_slave_faults :
  rpc_Allocate obliging (constructProtocolServiceList [alice])
  = inr (constructProtocolServiceList [alice])
  ∧ compareLists (constructProtocolServiceList [alice])
                 (constructProtocolServiceList [alice]) = []
  ∧ Allocate obliging [alice] dialed
    = (Panic NilMapWrite,
       mkNode (set_meta (mkMeta (Some {[ 8388 := alice ]}) None) (this dialed)) []).
Proof. split; [reflexivity|]. split; [by vm_compute|]. reflexivity. Qed.

(** C3, as the code has it.  The difference [compareLists] yields is
    the symmetric difference of the two key sets; [Free], and [Allocate]
    whenever it returns, hand back the returned list with no error when
    the key sets agree and with one [ErrDifference] carrying the whole
    difference otherwise; [ListServices] hands back the returned list
    with no error in every case and only logs the difference from the
    local mirror. *)
Theorem reconciliation_contract (R : Remote) (n : node)
    (srvs : list ShadowsocksService) (resp : list ProtoService) :
  is_Some (stub (this n)) →
  let req := constructProtocolServiceList srvs in
  let believed := constructProtocolServiceList (meta_ListServices (meta (this n))) in
  (diff_keys (compareLists req resp) = (keys req ∖ keys resp) ∪ (keys resp ∖ keys req)
   ∧ (keys req = keys resp → report (compareLists req resp) = None)
   ∧ (compareLists req resp ≠ [] →
      report (compareLists req resp) = Some (ErrDifference (compareLists req resp))))
  ∧ (rpc_Free R req = inr resp →
     ∃ n', Free R srvs n
           = (Ret (constructServiceList resp, report (compareLists req resp)), n'))
  ∧ (rpc_Allocate R req = inr resp →
     (∀ r n', Allocate R srvs n = (Ret r, n') →
              r = (constructServiceList resp, report (compareLists req resp)))
     ∧ (is_Some (openedPorts (meta (this n))) → is_Some (stats (meta (this n))) →
        returned (fst (Allocate R srvs n)) = true)
     ∧ (resp = [] → returned (fst (Allocate R srvs n)) = true))
  ∧ (rpc_ListServices R = inr resp →
     ∃ n', ListServices R n = (Ret (constructServiceList resp, None), n')
           ∧ this n' = this n
           ∧ logrus n' = logrus n ++ match report (compareLists believed resp) with
                                     | Some e => [e]
                                     | None => []
                                     end).
Proof.
  intros Hstub req believed. subst req believed.
  split; [|split; [|split]].
  - split; [apply compareLists_keys|]. split; [|apply report_cons].
    intros Hk. apply report_nil. by apply compareLists_nil.
  - by apply Free_returns.
  - intros H. split; [|split].
    + intros r n'. by apply Allocate_returns.
    + intros [o Ho] [t Ht].
      erewrite Allocate_made; [done|done| |done].
      destruct (this n) as [? ? ? ? [? ?]]. simpl in *. by subst.
    + intros ->. destruct Hstub as [c Hc].
      unfold Allocate, bind, need_stub, on_meta. rewrite Hc, H. simpl.
      by destruct (length _ =? 0)%nat.
  - intros H. rewrite (ListServices_returns R n resp Hstub H). by eexists.
Qed.

Lemma reconciliation_contract_witness :
  ∃ n', Free obliging [alice; bob] dialed = (Ret ([alice; bob], None), n').
Proof.
  assert (Hs : is_Some (stub (this dialed))) by (by eexists).
  destruct (reconciliation_contract obliging dialed [alice; bob]
              (constructProtocolServiceList [alice; bob]) Hs)
    as (_ & Hfree & _).
  exact (Hfree eq_refl).
Defined.

(** The counterexample to C3 as stated: the remote lists a service the
    local mirror does not know, so the difference is not empty, and
    [ListServices] still reports no error; the difference only reaches
    the log. *)
Lemma ListServices_drift_reports_no_error :
  compareLists (constructProtocolServiceList (meta_ListServices (meta (this dialed))))
               (constructProtocolServiceList [alice])
  = [(Unexpected, mkProto "alice" 8388 "secret-01")]
  ∧ ListServices obliging dialed
    = (Ret ([alice], None),
       mkNode (this dialed)
              [ErrDifference [(Unexpected, mkProto "alice" 8388 "secret-01")]]).
Proof. split; by vm_compute. Qed.

(** C9.  [Close] on a slave that was never dialed: the connection is
    nil and the call stops with a nil dereference. *)
Theorem Close_without_Dial_faults (R : Remote) (url tok : string) :
  fst (Close R (mkNode (NewSlave url tok) [])) = Panic NilDereference.
Proof. reflexivity. Qed.

Lemma Close_after_Dial R n n1 :
  Dial R n = (Ret None, n1) →
  ∃ c n2, conn (this n1) = Some c
          ∧ Close R n1 = (Ret (conn_Close R c), n2)
          ∧ conn (this n2) = None ∧ stub (this n2) = None
          ∧ fst (Close R n2) = Panic NilDereference.
Proof.
  unfold Dial. destruct (grpc_Dial R _) as [e|c]; [done|].
  intros [= <-]. exists c. eexists. unfold Close. simpl. done.
Qed.

(** C10.  Whatever calls a slave made by [NewSlave] has been through,
    its map of traffic counters is still nil (only the map of opened
    ports was made), and each operation that comes to write a counter
    stops on the assignment into the nil map and records nothing. *)
Theorem stats_map_is_never_made (url tok : string)
    (calls : list (Remote * call)) (R : Remote) :
  let n := after url tok calls in
  openedPorts (meta (NewSlave url tok)) = Some ∅
  ∧ stats (meta (NewSlave url tok)) = None
  ∧ stats (meta (this n)) = None
  ∧ (is_Some (stub (this n)) →
     (∀ srvs resp,
        rpc_Allocate R (constructProtocolServiceList srvs) = inr resp → resp ≠ [] →
        ∃ n', Allocate R srvs n = (Panic NilMapWrite, n')
              ∧ stats (meta (this n')) = None)
     ∧ (∀ t, rpc_GetStats R = inr (Some t) → t ≠ ∅ →
             ∃ n', GetStats R n = (Panic NilMapWrite, n')
                   ∧ stats (meta (this n')) = None)
     ∧ (∀ t, rpc_SetStats R (Some t) = None → t ≠ ∅ →
             ∃ n', SetStats R (Some t) n = (Panic NilMapWrite, n')
                   ∧ stats (meta (this n')) = None)).
Proof.
  intros n. pose proof (after_nil_stats url tok calls) as Hnil. fold n in Hnil.
  split; [done|]. split; [done|]. split; [done|].
  intros [c Hc]. repeat split.
  - intros srvs resp H Hne.
    destruct (constructServiceList_nonempty resp Hne) as (a & l & Hl).
    destruct (addPorts_faults a l _ Hnil) as (m' & Hadd & Hm').
    unfold Allocate, bind, need_stub, on_meta. rewrite Hc, H, Hl, Hadd.
    eexists. split; [done|]. done.
  - intros t H Hne.
    unfold GetStats, bind, need_stub, on_meta.
    rewrite Hc, H, (setStats_nil_stats _ _ Hnil).
    destruct (decide _) as [He|_]; [by apply map_range_nonempty in He|].
    eexists. split; [done|]. done.
  - intros t H Hne.
    unfold SetStats, bind, need_stub, on_meta.
    rewrite Hc, H, (setStats_nil_stats _ _ Hnil).
    destruct (decide _) as [He|_]; [by apply map_range_nonempty in He|].
    eexists. split; [done|]. done.
Qed.

Lemma stats_map_is_never_made_witness :
  ∃ n', Allocate obliging [alice] dialed = (Panic NilMapWrite, n')
        ∧ stats (meta (this n')) = None.
Proof.
  destruct (stats_map_is_never_made "node-1:6001" "token"
              [(obliging, CallDial)] obliging) as (_ & _ & _ & H).
  assert (Hs : is_Some (stub (this (after "node-1:6001" "token"
                                      [(obliging, CallDial)])))) by (by eexists).
  destruct (H Hs) as (Halloc & _).
  apply (Halloc [alice] (constructProtocolServiceList [alice]) eq_refl).
  discriminate.
Defined.

End SlaveFacts.

(** ** Properties of the process supervisor *)

Module SupervisorFacts.
Import Shadowsocks Fixtures.Supervisor.

(** *** Rules for running an operation

    An operation is run step by step on a world that is only known by
    what was done to it so far: one rule per primitive of the state
    monad, and a tactic that picks the rule, looks up the heap cells
    already known and splits on what the environment answers. *)

Section Rules.
Context {S A B : Type}.
Implicit Types (s : S) (a : A).

Lemma wp_ret a (Q : outcome A → S → Prop) s : Q (Ret a) s → wp (ret a) Q s.
Proof. done. Qed.

Lemma wp_panic f (Q : outcome A → S → Prop) s : Q (Panic f) s → wp (panic f) Q s.
Proof. done. Qed.

Lemma wp_bind (m : M S A) (k : A → M S B) (Q : outcome B → S → Prop) s :
  wp m (fun o s' => match o with
                    | Ret a => wp (k a) Q s'
                    | Panic f => Q (Panic f) s'
                    end) s →
  wp (bind m k) Q s.
Proof. unfold wp, bind. by destruct (m s) as [[a|f] s']. Qed.

Lemma wp_gets (f : S → A) (Q : outcome A → S → Prop) s :
  Q (Ret (f s)) s → wp (gets f) Q s.
Proof. done. Qed.

Lemma wp_modify (f : S → S) (Q : outcome unit → S → Prop) s :
  Q (Ret tt) (f s) → wp (modify f) Q s.
Proof. done. Qed.

Lemma wp_elim (m : M S A) (Q : outcome A → S → Prop) s o s' :
  wp m Q s → m s = (o, s') → Q o s'.
Proof. unfold wp. intros H Heq. by rewrite Heq in H. Qed.
End Rules.

Lemma wp_emit e (Q : outcome unit → world → Prop) w :
  Q (Ret tt) (with_trace (trace w ++ [e]) w) → wp (emit e) Q w.
Proof. done. Qed.

Lemma wp_load l v (Q : outcome Server → world → Prop) w :
  heap w !! l = Some v → Q (Ret v) w → wp (load l) Q w.
Proof. unfold wp, load. by intros ->. Qed.

Lemma wp_store l v v0 (Q : outcome unit → world → Prop) w :
  heap w !! l = Some v0 →
  Q (Ret tt) (with_heap (<[l := v]> (heap w)) (next_loc w) w) →
  wp (store l v) Q w.
Proof. unfold wp, store. by intros ->. Qed.

Lemma wp_alloc v (Q : outcome positive → world → Prop) w :
  Q (Ret (next_loc w))
    (with_heap (<[next_loc w := v]> (heap w)) (Pos.succ (next_loc w)) w) →
  wp (alloc v) Q w.
Proof. done. Qed.

Lemma wp_alloc_cmd c (Q : outcome positive → world → Prop) w :
  Q (Ret (next_cmd w))
    (with_cmds (<[next_cmd w := c]> (cmds w)) (Pos.succ (next_cmd w)) w) →
  wp (alloc_cmd c) Q w.
Proof. done. Qed.

Lemma wp_Process s v (Q : outcome (option Z) → world → Prop) w :
  heap w !! s = Some v →
  match r_cmd (runtime v) with
  | Some c => match cmds w !! c with
              | Some cmd => Q (Ret (cmd_Process cmd)) w
              | None => Q (Panic NilDereference) w
              end
  | None => Q (Ret None) w
  end →
  wp (Process s) Q w.
Proof.
  intros H. unfold wp, Process, bind, load, ret. rewrite H.
  destruct (r_cmd (runtime v)) as [c|]; [|done]. by destruct (cmds w !! c).
Qed.

Lemma wp_Start E c cmd (Q : outcome (option error) → world → Prop) w :
  cmds w !! c = Some cmd →
  (os_Start E (cmd_Args cmd) = true →
   Q (Ret None)
     (with_trace (trace w ++ [ProcStarted (next_pid w)])
        (with_cmds (<[c := mkCmd (cmd_Args cmd) (cmd_Stdout cmd) (Some (next_pid w))]>
                      (cmds w)) (next_cmd w)
           (with_procs ({[next_pid w]} ∪ procs w) (next_pid w + 1) w)))) →
  (os_Start E (cmd_Args cmd) = false → Q (Ret (Some (ErrStart (cmd_Args cmd)))) w) →
  wp (Start E c) Q w.
Proof.
  intros H Hy Hn. unfold wp, Start. rewrite H.
  destruct (os_Start E _); [by apply Hy | by apply Hn].
Qed.

(** Project the fields of a world that was updated. *)
Ltac reduce :=
  cbn [fst snd heap next_loc cmds next_cmd servers mgr_path udpPort files procs
       next_pid trace with_heap with_cmds with_servers with_files with_procs
       with_trace Host Port Password Method Timeout stat options runtime
       set_stat set_options set_runtime r_path r_cmd r_logw r_config
       MPTCP TCPFastOpen Auth NameServer PidFile ManagerAddress Interface
       FireWall Verbose cmd_Args cmd_Stdout cmd_Process].

(** A cell whose content is known, after the stores made so far. *)
Ltac cell :=
  reduce; rewrite ?insert_insert_eq;
  first [ eassumption | apply lookup_insert_eq
        | rewrite lookup_insert_ne by congruence; eassumption ].

(** Use what is already known of [x]. *)
Ltac known x :=
  match goal with
  | H : x = _ |- _ => rewrite H
  end.

Ltac wp_step E :=
  lazymatch goal with
  | |- wp (bind _ _) _ _ => apply wp_bind
  | |- wp (ret _) _ _ => apply wp_ret
  | |- wp (panic _) _ _ => apply wp_panic
  | |- wp (gets _) _ _ => apply wp_gets
  | |- wp (modify _) _ _ => apply wp_modify
  | |- wp (emit _) _ _ => apply wp_emit
  | |- wp (log _ _) _ _ => apply wp_emit
  | |- wp (load _) _ _ => eapply wp_load; [cell|]
  | |- wp (store _ _) _ _ => eapply wp_store; [cell|]
  | |- wp (alloc _) _ _ => apply wp_alloc
  | |- wp (alloc_cmd _) _ _ => apply wp_alloc_cmd
  | |- wp (Process _) _ _ => eapply wp_Process; [cell|]
  | |- wp (Start _ _) _ _ => eapply wp_Start; [cell| intros ? | intros ?]
  | |- wp (if ?b then _ else _) _ _ => first [ known b | destruct b eqn:? ]
  | |- wp (match ?x with _ => _ end) _ _ => first [ known x | destruct x eqn:? ]
  | |- match ?x with _ => _ end =>
      first [ known x | rewrite lookup_insert_eq | destruct x eqn:? ]
  end.

Ltac wp_run E := repeat (cbv beta iota; reduce; wp_step E).

(** The operations made of primitives. *)
Ltac unfold_ops :=
  unfold Add, Remove, remove, kill, deleteResidue, RemoveAll, exec, prepareExec, Save,
    SavePidFile, Alive, process_Alive, Create, MkdirAll, WriteFile,
    GetServer, clone.




(** *** Decimal rendering is never empty *)

Lemma pretty_N_go_nonempty (x : N) : ∀ s, s ≠ EmptyString → pretty_N_go x s ≠ EmptyString.
Proof.
  induction (N.lt_wf_0 x) as [x _ IH]. intros s Hs.
  destruct (decide (x = 0%N)) as [->|Hx].
  - by rewrite pretty_N_go_0.
  - rewrite pretty_N_go_step by lia. apply IH; [|done].
    apply N.div_lt; lia.
Qed.

Lemma Sprint_nonempty (n : Z) : nonempty (Sprint n) = true.
Proof.
  assert (HN : ∀ x : N, pretty x ≠ EmptyString).
  { intros x. unfold pretty, pretty_N. case_decide; [done|].
    rewrite pretty_N_go_step by lia. by apply pretty_N_go_nonempty. }
  assert (H : Sprint n ≠ EmptyString).
  { unfold Sprint, pretty, pretty_Z. destruct n; [done| apply HN | done]. }
  unfold nonempty. by destruct (Sprint n).
Qed.

Lemma path_Join_nonempty a b : nonempty b = true → nonempty (path_Join a b) = true.
Proof.
  unfold nonempty, path_Join. destruct a, b; try done.
Qed.

Lemma grown_refl w : grown w w.
Proof.
  unfold grown. split; [lia|]. split; [done|]. split; [done|]. split; [lia|done].
Qed.

Lemma grown_trans w1 w2 w3 : grown w1 w2 → grown w2 w3 → grown w1 w3.
Proof.
  intros (Hn & Hc & Hb & Hp & Hq) (Hn' & Hc' & Hb' & Hp' & Hq').
  unfold grown. split; [lia|]. split.
  { intros c Hlt. rewrite Hc' by lia. by apply Hc. }
  split; [auto|]. split; [lia|].
  intros pid Hlt. rewrite Hq' by lia. by apply Hq.
Qed.

(** Allocating one command and starting it, or failing to. *)
Lemma grown_alloc_start w w' (cmd : Cmd) :
  cmds w' = <[next_cmd w := cmd]> (cmds w) →
  next_cmd w' = Pos.succ (next_cmd w) →
  procs w' = {[next_pid w]} ∪ procs w →
  next_pid w' = next_pid w + 1 →
  cmd_Process cmd = Some (next_pid w) →
  grown w w'.
Proof.
  intros Hc Hn Hp Hnp Hpid. unfold grown. rewrite Hn, Hnp. split; [lia|]. split.
  { intros c Hlt. rewrite Hc, !lookup_insert_ne by lia. done. }
  split.
  { intros Hb c x. rewrite Hc, Hn, Hnp. intros Hx.
    apply lookup_insert_Some in Hx as [[<- <-]|[_ Hx]].
    - split; [lia|]. intros pid. rewrite Hpid. intros [= <-]. lia.
    - destruct (Hb c x Hx) as [Hlt Hpids]. split; [lia|].
      intros pid Hpid'. specialize (Hpids pid Hpid'). lia. }
  split; [lia|]. intros pid Hlt. rewrite Hp. set_solver by lia.
Qed.

Lemma grown_alloc w w' (cmd : Cmd) :
  cmds w' = <[next_cmd w := cmd]> (cmds w) →
  next_cmd w' = Pos.succ (next_cmd w) →
  procs w' = procs w → next_pid w' = next_pid w →
  cmd_Process cmd = None →
  grown w w'.
Proof.
  intros Hc Hn Hp Hnp Hpid. unfold grown. rewrite Hn, Hnp, Hp. split; [lia|]. split.
  { intros c Hlt. rewrite Hc, !lookup_insert_ne by lia. done. }
  split.
  { intros Hb c x. rewrite Hc, Hn, Hnp. intros Hx.
    apply lookup_insert_Some in Hx as [[<- <-]|[_ Hx]].
    - split; [lia|]. intros pid. by rewrite Hpid.
    - destruct (Hb c x Hx) as [Hlt Hpids]. split; [lia|done]. }
  split; [lia|]. done.
Qed.

Lemma grown_same w w' :
  cmds w' = cmds w → next_cmd w' = next_cmd w →
  procs w' = procs w → next_pid w' = next_pid w →
  grown w w'.
Proof.
  intros Hc Hn Hp Hnp. unfold grown, cmds_bounded. rewrite Hc, Hn, Hp, Hnp.
  split; [lia|]. split; [done|]. split; [done|]. split; [lia|done].
Qed.

(** What [exec] does to the world. *)
Lemma exec_full_wp E s w v :
  heap w !! s = Some v →
  wp (exec E s)
     (fun o w' => ∃ r v', o = Ret r
        ∧ heap w' = <[s := v']> (heap w) ∧ same_config v v'
        ∧ next_loc w' = next_loc w ∧ servers w' = servers w
        ∧ mgr_path w' = mgr_path w ∧ udpPort w' = udpPort w
        ∧ grown w w'
        ∧ (r = None →
           r_path (runtime v') = path_Join (mgr_path w) (Sprint (Port v))
           ∧ nonempty (r_path (runtime v')) = true
           ∧ is_Some (r_logw (runtime v'))
           ∧ ∃ c cmd pid, r_cmd (runtime v') = Some c
                          ∧ cmds w' !! c = Some cmd
                          ∧ cmd_Process cmd = Some pid)) w.
Proof.
  intros H. unfold_ops. wp_run E.
  all: eexists _, _; split; [reflexivity|]; reduce;
    rewrite ?insert_insert_eq; split; [reflexivity|];
    (split; [unfold same_config; reduce; repeat split; reflexivity|]);
    repeat (split; [reflexivity|]).
  all: split;
    [ first [ eapply grown_alloc_start; reduce; reflexivity
            | eapply grown_alloc; reduce; reflexivity
            | apply grown_same; reflexivity ] | ].
  all: try (intros ?; discriminate).
  all: intros _; reduce; split; [reflexivity|];
    split; [apply path_Join_nonempty, Sprint_nonempty|];
    split; [by eexists|]; eexists _, _, _; split; [reflexivity|];
    split; [apply lookup_insert_eq | reflexivity].
Qed.

Lemma wp_wand {S A} (m : M S A) (Q Q' : outcome A → S → Prop) s :
  wp m Q' s → (∀ o s', Q' o s' → Q o s') → wp m Q s.
Proof. unfold wp. auto. Qed.

Lemma Add_wp E s w v :
  heap w !! s = Some v →
  wp (Add E s)
     (fun o w' => o = Ret None →
        ∃ v', servers w' = <[Port v := s]> (servers w)
              ∧ heap w' = <[s := v']> (heap w) ∧ same_config v v') w.
Proof.
  intros H. unfold Add. wp_run E; try discriminate.
  eapply wp_wand; [by apply exec_full_wp|].
  intros o w' (r & v' & -> & Hh & Hc & _ & Hs & _).
  destruct r as [e|]; wp_run E; try discriminate.
  eapply wp_load; [rewrite Hh; apply lookup_insert_eq|].
  wp_run E. intros _. exists v'. reduce.
  assert (HP : Port v' = Port v) by apply Hc. by rewrite HP, Hs.
Qed.



Lemma Remove_absent E w port :
  servers w !! port = None → Remove E port w = (Ret (Some ErrServerNotFound), w).
Proof. intros H. unfold Remove, bind, gets. by rewrite H. Qed.

Lemma Remove_present_wp E w port s v pid :
  servers w !! port = Some s →
  launched w s v pid →
  wp (Remove E port)
     (fun o w' =>
        o = Ret None
        ∧ servers w' = delete port (servers w)
        ∧ heap w' = heap w
        ∧ procs w' = procs w ∖ {[pid]}
        ∧ (∃ rest, trace w' = trace w ++ TableDelete port :: ProcKilled pid :: rest)
        ∧ (if os_RemoveAll E (r_path (runtime v))
           then ∀ f, f ∈ files w' → under (r_path (runtime v)) f = false
           else (∀ f, f ∈ files w' ↔
                      (under (r_path (runtime v)) f = false
                       ∨ os_RemoveAll_left E f = true) ∧ f ∈ files w)
                ∧ Logged WarnLevel (CanNotDeletePath (r_path (runtime v)))
                    ∈ trace w')) w.
Proof.
  intros Hs (Hv & Hp & [f Hf] & c & cmd & Hc & Hcmd & Hpid).
  unfold_ops. wp_run E.
  all: try (rewrite Hp in *; discriminate).
  all: reduce; repeat (split; [reflexivity|]).
  all: rewrite <- ?app_assoc; (split; [by eexists|]).
  all: first
    [ intros g Hg; by apply elem_of_filter in Hg as [Hg _]
    | split; [intros g; by rewrite elem_of_filter | set_solver] ].
Qed.



(** [Remove] of a port the table lacks answers
    [ErrServerNotFound] and changes nothing.  [Remove] of a port the
    table has returns nil; the entry leaves the table before the process
    is killed, the heap is not written, and the working directory is
    emptied when its removal succeeds; when the removal fails, what
    stays in it is what could not be deleted, and the failure is only
    logged. *)
Lemma Remove_launched (E : Env) (w : world) (port : Z) :
  (servers w !! port = None →
   Remove E port w = (Ret (Some ErrServerNotFound), w))
  ∧ (∀ s v pid,
       servers w !! port = Some s → launched w s v pid →
       ∃ w', Remove E port w = (Ret None, w')
             ∧ servers w' !! port = None
             ∧ servers w' = delete port (servers w)
             ∧ heap w' = heap w
             ∧ (pid ∉ procs w')
             ∧ (∃ rest, trace w' = trace w ++ TableDelete port :: ProcKilled pid :: rest)
             ∧ (os_RemoveAll E (r_path (runtime v)) = true →
                ∀ f, f ∈ files w' → under (r_path (runtime v)) f = false)
             ∧ (os_RemoveAll E (r_path (runtime v)) = false →
                (∀ f, f ∈ files w' ↔
                      (under (r_path (runtime v)) f = false
                       ∨ os_RemoveAll_left E f = true) ∧ f ∈ files w)
                ∧ Logged WarnLevel (CanNotDeletePath (r_path (runtime v)))
                    ∈ trace w')).
Proof.
  split; [apply Remove_absent|].
  intros s v pid Hs Hl.
  pose proof (Remove_present_wp E w port s v pid Hs Hl) as H. unfold wp in H.
  destruct (Remove E port w) as [o w']. simpl in H.
  destruct H as (-> & Ht & Hh & Hp & Htr & Hf).
  exists w'. split; [done|]. split; [rewrite Ht; apply lookup_delete_eq|].
  split; [done|]. split; [done|]. split; [rewrite Hp; set_solver|].
  split; [done|]. by destruct (os_RemoveAll E _).
Qed.

Lemma Remove_present_files E w port s v pid :
  servers w !! port = Some s →
  launched w s v pid →
  wp (Remove E port)
     (fun _ w' =>
        (∀ f, f ∈ files w' → f ∈ files w)
        ∧ (∀ f, f ∈ files w → under (r_path (runtime v)) f = false → f ∈ files w')) w.
Proof.
  intros Hs (Hv & Hp & [f Hf] & c & cmd & Hc & Hcmd & Hpid).
  unfold_ops. wp_run E.
  all: try (rewrite Hp in *; discriminate).
  all: reduce; split; intros g Hg.
  all: try (by apply elem_of_filter in Hg as [_ Hg]).
  all: intros Hu; apply elem_of_filter; split; auto.
Qed.






(** *** Telemetry *)

Lemma slice_to_ok n data :
  (n ≤ length (arr data))%nat → slice_to n data = Ret (take n (arr data)).
Proof. intros H. unfold slice_to. by rewrite (proj2 (Nat.leb_le _ _) H). Qed.

Lemma slice_from_ok n data :
  (n ≤ len data)%nat →
  slice_from n data = Ret (drop n (take (len data) (arr data))).
Proof. intros H. unfold slice_from. by rewrite (proj2 (Nat.leb_le _ _) H). Qed.

Lemma table_valid_cell w port s :
  table_valid w → servers w !! port = Some s → ∃ v, heap w !! s = Some v.
Proof. intros Hv Hs. exact (Hv port s Hs). Qed.

(** Every packet of five bytes or more is handled to the end: either
    it is accepted and the one heap cell of its entry gets the new
    statistics, or it is not and a warning is all that happens. *)
Lemma StatRecvHandler_wp E w data :
  table_valid w →
  (5 ≤ len data)%nat → (len data ≤ length (arr data))%nat →
  wp (StatRecvHandler E data)
     (fun o w' =>
        o = Ret tt
        ∧ servers w' = servers w ∧ cmds w' = cmds w
        ∧ files w' = files w ∧ procs w' = procs w
        ∧ ((∃ s traffic old,
              accepted E w data s traffic
              ∧ heap w !! s = Some old
              ∧ heap w' = <[s := set_stat (Some (mkStat traffic)) old]> (heap w)
              ∧ trace w' = trace w ++ [Logged DebugLevel (StatBodyIs (body_of data))])
           ∨ ((∀ s traffic, ¬ accepted E w data s traffic)
              ∧ heap w' = heap w ∧ warned w w'))) w.
Proof.
  intros Hvalid H5 Hcap. unfold StatRecvHandler.
  rewrite slice_to_ok by lia. rewrite slice_from_ok by lia.
  fold (body_of data).
  destruct (bool_decide (take 4 (arr data) = stat_tag)) eqn:Htag; simpl.
  2:{ apply wp_emit. reduce. repeat (split; [reflexivity|]). right.
      split; [|split; [reflexivity|by eexists [], _]].
      intros s t [Ht _]. apply bool_decide_eq_false in Htag. done. }
  apply bool_decide_eq_true in Htag.
  apply wp_bind, wp_emit. cbv beta iota.
  destruct (json_Unmarshal E (body_of data)) as [st|] eqn:Hdec.
  2:{ apply wp_emit. reduce. repeat (split; [reflexivity|]). right.
      split; [|split; [reflexivity|]].
      - intros s t (_ & k & r & Hk & _). congruence.
      - exists [Logged DebugLevel (StatBodyIs (body_of data))], UnmarshalError.
        by rewrite <- app_assoc. }
  destruct st as [|[portS trafficS] rest].
  { simpl. apply wp_emit. reduce. repeat (split; [reflexivity|]). right.
    split; [|split; [reflexivity|]].
    - intros s t (_ & k & r & Hk & _). congruence.
    - exists [Logged DebugLevel (StatBodyIs (body_of data))], InvalidStat.
      by rewrite <- app_assoc. }
  destruct ((Atoi portS <? 0) || (trafficS <? 0)) eqn:Hneg.
  { apply wp_emit. reduce. repeat (split; [reflexivity|]). right.
    split; [|split; [reflexivity|]].
    - intros s t (_ & k & r & Hk & Hp & Ht & _).
      assert (k = portS ∧ t = trafficS) as [-> ->] by (split; congruence).
      apply orb_true_iff in Hneg as [Hn|Hn]; apply Z.ltb_lt in Hn; lia.
    - exists [Logged DebugLevel (StatBodyIs (body_of data))], InvalidStat.
      by rewrite <- app_assoc. }
  apply orb_false_iff in Hneg as [Hp Ht].
  apply Z.ltb_ge in Hp, Ht.
  apply wp_bind, wp_gets. reduce.
  destruct (servers w !! int32 (Atoi portS)) as [s|] eqn:Hs.
  2:{ apply wp_emit. reduce. repeat (split; [reflexivity|]). right.
      split; [|split; [reflexivity|]].
      - intros s t (_ & k & r & Hk & _ & _ & Hl).
        assert (k = portS) as -> by congruence. congruence.
      - exists [Logged DebugLevel (StatBodyIs (body_of data))],
          (ServerOnPortNotFound (Atoi portS)).
        by rewrite <- app_assoc. }
  destruct (table_valid_cell w _ s Hvalid Hs) as [old Hold].
  apply wp_bind. eapply wp_load; [reduce; exact Hold|].
  eapply wp_store; [reduce; exact Hold|].
  reduce. repeat (split; [reflexivity|]). left.
  exists s, trafficS, old. split; [|done].
  split; [done|]. by exists portS, rest.
Qed.


(** A packet of at least five bytes is always
    handled without a fault and nothing but the heap and the log can
    change.  If it is accepted (tag [stat], body decoded, first entry
    met with port and count not negative, port in the table once
    converted to [int32]) the cell of that one entry gets the new
    statistics and no warning is logged; otherwise no cell changes and
    the handler ends on a warning.  An object of several keys is
    treated by its first entry in iteration order, like an object of
    one key. *)
Lemma StatRecvHandler_handled (E : Env) (w : world) (data : slice) :
  table_valid w →
  (5 ≤ len data)%nat → (len data ≤ length (arr data))%nat →
  ∃ w', StatRecvHandler E data w = (Ret tt, w')
        ∧ servers w' = servers w ∧ cmds w' = cmds w
        ∧ files w' = files w ∧ procs w' = procs w
        ∧ ((∃ s traffic old,
              accepted E w data s traffic
              ∧ heap w !! s = Some old
              ∧ heap w' = <[s := set_stat (Some (mkStat traffic)) old]> (heap w)
              ∧ trace w' = trace w ++ [Logged DebugLevel (StatBodyIs (body_of data))])
           ∨ ((∀ s traffic, ¬ accepted E w data s traffic)
              ∧ heap w' = heap w ∧ warned w w')).
Proof.
  intros Hv H5 Hcap.
  pose proof (StatRecvHandler_wp E w data Hv H5 Hcap) as H. unfold wp in H.
  destruct (StatRecvHandler E data w) as [o w']. simpl in H.
  destruct H as (-> & H). by exists w'.
Qed.









Lemma int32_small x : - 2^31 ≤ x < 2^31 → int32 x = x.
Proof. intros H. unfold int32. rewrite Z.mod_small; lia. Qed.



Lemma GetServer_present w port s v :
  servers w !! port = Some s → heap w !! s = Some v →
  GetServer port w
  = (Ret (inr (next_loc w)),
     with_heap (<[next_loc w := clone_value v]> (heap w)) (Pos.succ (next_loc w)) w).
Proof.
  intros Hs Hv. unfold GetServer, clone, bind, gets, load, alloc, ret.
  by rewrite Hs, Hv.
Qed.

Lemma GetServer_absent w port :
  servers w !! port = None → GetServer port w = (Ret (inl ErrServerNotFound), w).
Proof. intros Hs. unfold GetServer, bind, gets, ret. by rewrite Hs. Qed.

(** A packet whose bytes are [stat {"8388":1024}], decoded as the
    one entry it spells, delivered while the table has port 8388: the
    handler returns and the clone [GetServer 8388] then hands out reads
    [Traffic = 1024].  A packet of one entry whose port, a number that
    [int32] can hold, is not in the table: the handler returns, and the
    heap, hence the statistics of every entry, and the table are as
    before. *)
Lemma stat_packet_wf (E : Env) (w : world) (data : slice) :
  table_valid w → (len data ≤ length (arr data))%nat →
  (∀ s, take (len data) (arr data) = arr stat_8388_1024 →
        json_Unmarshal E body_8388_1024 = Some [("8388"%string, 1024)] →
        servers w !! 8388 = Some s →
        ∃ w1 c w2 snap,
          StatRecvHandler E data w = (Ret tt, w1)
          ∧ GetServer 8388 w1 = (Ret (inr c), w2)
          ∧ heap w2 !! c = Some snap
          ∧ Traffic (GetStat snap) = 1024)
  ∧ (∀ portS traffic,
       (5 ≤ len data)%nat → take 4 (arr data) = stat_tag →
       json_Unmarshal E (body_of data) = Some [(portS, traffic)] →
       0 ≤ traffic → 0 ≤ Atoi portS < 2^31 →
       servers w !! Atoi portS = None →
       ∃ w1, StatRecvHandler E data w = (Ret tt, w1)
             ∧ heap w1 = heap w ∧ servers w1 = servers w).
Proof.
  intros Hv Hcap. split.
  - intros s Hbytes Hdec Hs.
    assert (Hlen : len data = 18%nat).
    { apply (f_equal length) in Hbytes. rewrite length_take in Hbytes.
      rewrite Nat.min_l in Hbytes by done. exact Hbytes. }
    assert (Hbody : body_of data = body_8388_1024).
    { unfold body_of. rewrite Hbytes. by vm_compute. }
    assert (Htag : take 4 (arr data) = stat_tag).
    { replace (take 4 (arr data)) with (take 4 (take (len data) (arr data))).
      - rewrite Hbytes. by vm_compute.
      - rewrite take_take, Hlen. done. }
    destruct (StatRecvHandler_handled E w data Hv) as (w1 & Hr & Hs1 & _ & _ & _ & Hcase);
      [lia|done|].
    destruct Hcase as [(s' & t' & old & Hacc & Hold & Hh & _) | (Hno & _)].
    + destruct Hacc as (_ & k & r & Hk & _ & _ & Hl).
      rewrite Hbody, Hdec in Hk. injection Hk as <- <- <-.
      change (int32 (Atoi "8388")) with 8388 in Hl.
      assert (s' = s) as -> by congruence.
      assert (Hcell : heap w1 !! s = Some (set_stat (Some (mkStat 1024)) old))
        by (rewrite Hh; apply lookup_insert_eq).
      rewrite <- Hs1 in Hs.
      eexists w1, _, _, _. split; [exact Hr|].
      split; [exact (GetServer_present w1 8388 s _ Hs Hcell)|].
      reduce. split; [apply lookup_insert_eq|]. reflexivity.
    + exfalso. apply (Hno s 1024). split; [done|].
      exists "8388"%string, []. rewrite Hbody. split; [done|].
      split; [by vm_compute|]. split; [lia|]. exact Hs.
  - intros portS traffic H5 Htag Hdec Ht Hp Hs.
    destruct (StatRecvHandler_handled E w data Hv H5 Hcap)
      as (w1 & Hr & Hs1 & _ & _ & _ & Hcase).
    exists w1. split; [exact Hr|]. split; [|exact Hs1].
    destruct Hcase as [(s' & t' & old & Hacc & _) | (_ & Hh & _)]; [|exact Hh].
    destruct Hacc as (_ & k & r & Hk & _ & _ & Hl).
    rewrite Hdec in Hk. injection Hk as <- <- <-.
    rewrite int32_small in Hl by lia. congruence.
Qed.




(** *** Snapshots *)

Lemma alloc_bounded w v :
  heap_bounded w →
  heap_bounded (with_heap (<[next_loc w := v]> (heap w)) (Pos.succ (next_loc w)) w).
Proof.
  intros Hb l x. reduce. rewrite lookup_insert. case_decide as Hl.
  - intros _. lia.
  - intros Hx. specialize (Hb l x Hx). simpl in Hb. lia.
Qed.

Lemma bounded_cell w l : heap_bounded w → is_Some (heap w !! l) → (l < next_loc w)%positive.
Proof. intros Hb [x Hx]. exact (Hb l x Hx). Qed.

Lemma clone_all_spec entries : ∀ acc w,
  heap_bounded w →
  (∀ p s, (p, s) ∈ entries → is_Some (heap w !! s)) →
  ∃ snap w',
    clone_all entries acc w = (Ret snap, w')
    ∧ servers w' = servers w
    ∧ heap_bounded w'
    ∧ (next_loc w ≤ next_loc w')%positive
    ∧ (∀ l, (l < next_loc w)%positive → heap w' !! l = heap w !! l)
    ∧ (∀ q, q ∉ entries.*1 → snap !! q = acc !! q)
    ∧ (∀ q, q ∈ entries.*1 →
         ∃ c s v, snap !! q = Some c ∧ (q, s) ∈ entries
                  ∧ heap w !! s = Some v
                  ∧ heap w' !! c = Some (clone_value v)
                  ∧ (next_loc w ≤ c)%positive).
Proof.
  induction entries as [|[p s0] rest IH]; intros acc w Hb Hin.
  { exists acc, w. simpl. repeat split; try done. intros q Hq. by apply elem_of_nil in Hq. }
  destruct (Hin p s0) as [v0 Hv0]; [left|].
  assert (Hs0 : (s0 < next_loc w)%positive) by (apply bounded_cell; eauto).
  set (w1 := with_heap (<[next_loc w := clone_value v0]> (heap w))
                       (Pos.succ (next_loc w)) w).
  assert (Hstep : clone_all ((p, s0) :: rest) acc w
                  = clone_all rest (<[p := next_loc w]> acc) w1).
  { simpl. unfold clone, bind, load, alloc. by rewrite Hv0. }
  assert (Hold : ∀ l, (l < next_loc w)%positive → heap w1 !! l = heap w !! l).
  { intros l Hl. unfold w1. reduce. apply lookup_insert_ne. lia. }
  destruct (IH (<[p := next_loc w]> acc) w1) as
    (snap & w' & Hrun & Hsrv & Hb' & Hnext & Hframe & Hout & Hins).
  { by apply alloc_bounded. }
  { intros q s Hqs. rewrite Hold; [apply (Hin q s); by right|].
    apply bounded_cell; [done|]. apply (Hin q s). by right. }
  exists snap, w'. rewrite Hstep. split; [done|]. split; [done|]. split; [done|].
  assert (Hn1 : next_loc w1 = Pos.succ (next_loc w)) by done.
  split; [lia|]. split.
  { intros l Hl. rewrite Hframe by lia. by apply Hold. }
  split.
  { intros q Hq. rewrite fmap_cons, not_elem_of_cons in Hq. destruct Hq as [Hqp Hq].
    rewrite (Hout q Hq). apply lookup_insert_ne. simpl in Hqp. congruence. }
  intros q Hq. destruct (decide (q ∈ rest.*1)) as [Hr|Hr].
  - destruct (Hins q Hr) as (c & s & v & Hc & Hqs & Hv & Hcv & Hle).
    exists c, s, v. split; [done|]. split; [by right|].
    split; [|split; [done|lia]].
    rewrite <- Hold; [done|]. apply bounded_cell; [done|]. apply (Hin q s). by right.
  - rewrite fmap_cons, elem_of_cons in Hq. destruct Hq as [->|Hq]; [|done]. simpl.
    exists (next_loc w), s0, v0. split.
    { rewrite (Hout p Hr). apply lookup_insert_eq. }
    split; [left|]. split; [done|]. split; [|lia].
    rewrite Hframe by lia. unfold w1. reduce. apply lookup_insert_eq.
Qed.

Lemma ListServers_spec w :
  heap_bounded w → table_valid w →
  ∃ snap w',
    ListServers w = (Ret snap, w')
    ∧ servers w' = servers w
    ∧ heap_bounded w'
    ∧ (∀ l, (l < next_loc w)%positive → heap w' !! l = heap w !! l)
    ∧ (∀ q, servers w !! q = None → snap !! q = None)
    ∧ (∀ q s, servers w !! q = Some s →
         ∃ c v, snap !! q = Some c ∧ heap w !! s = Some v
                ∧ heap w' !! c = Some (clone_value v)
                ∧ (next_loc w ≤ c)%positive).
Proof.
  intros Hb Hv.
  destruct (clone_all_spec (map_to_list (servers w)) ∅ w Hb) as
    (snap & w' & Hrun & Hsrv & Hb' & _ & Hframe & Hout & Hins).
  { intros p s Hps. apply elem_of_map_to_list in Hps. exact (Hv p s Hps). }
  exists snap, w'. unfold ListServers, bind, gets. rewrite Hrun.
  split; [done|]. split; [done|]. split; [done|]. split; [done|]. split.
  - intros q Hq. rewrite Hout; [done|].
    intros Hin. apply list_elem_of_fmap in Hin as ([q' s] & -> & Hin).
    apply elem_of_map_to_list in Hin. simpl in Hq. congruence.
  - intros q s Hq.
    destruct (Hins q) as (c & s' & v & Hc & Hqs & Hcell & Hcv & Hle).
    { apply list_elem_of_fmap. exists (q, s). split; [done|].
      by apply elem_of_map_to_list. }
    apply elem_of_map_to_list in Hqs.
    assert (s' = s) as -> by congruence. by exists c, v.
Qed.

Lemma ListServers_value_spec w :
  heap_bounded w → table_valid w →
  (ListServers_value w).1 = Ret (table_view w).
Proof.
  intros Hb Hv. destruct (ListServers_spec w Hb Hv) as
    (snap & w' & Hrun & _ & _ & _ & Hnone & Hsome).
  unfold ListServers_value, bind, gets. rewrite Hrun. simpl. f_equal.
  apply map_eq. intros q. unfold table_view. rewrite !lookup_omap.
  destruct (servers w !! q) as [s|] eqn:Hq.
  - destruct (Hsome q s Hq) as (c & v & -> & Hcell & Hcv & _). simpl.
    by rewrite Hcv, Hcell.
  - by rewrite (Hnone q Hq).
Qed.

Lemma GetServer_value_spec w port :
  table_valid w →
  (GetServer_value port w).1
  = Ret (match table_view w !! port with
         | Some v => inr v
         | None => inl ErrServerNotFound
         end).
Proof.
  intros Hv. unfold GetServer_value, table_view. rewrite lookup_omap.
  destruct (servers w !! port) as [s|] eqn:Hs; simpl.
  - destruct (table_valid_cell w port s Hv Hs) as [v Hcell].
    unfold bind. rewrite (GetServer_present w port s v Hs Hcell).
    unfold load, ret. reduce. rewrite lookup_insert_eq, Hcell. done.
  - unfold bind. by rewrite (GetServer_absent w port Hs).
Qed.

(** Writing to a cell the table does not point to changes nothing a
    reader of the table can get to see. *)
Lemma poke_off_table w c f :
  heap_bounded w → table_valid w →
  (∀ q s, servers w !! q = Some s → s ≠ c) →
  heap_bounded (poke c f w) ∧ table_valid (poke c f w)
  ∧ table_view (poke c f w) = table_view w.
Proof.
  intros Hb Hv Hoff. split; [|split].
  - intros l x. unfold poke. reduce. intros Hx.
    apply (bounded_cell w l Hb). rewrite lookup_alter in Hx.
    case_decide as Hcl; [|by eexists].
    subst l. destruct (heap w !! c); [by eexists | done].
  - intros q s Hq. unfold poke in *. reduce. simpl in Hq.
    rewrite lookup_alter_ne by (symmetry; by eapply Hoff). exact (Hv q s Hq).
  - apply map_eq. intros q. unfold table_view, poke. reduce. rewrite !lookup_omap.
    destruct (servers w !! q) as [s|] eqn:Hq; [|done]. simpl.
    rewrite lookup_alter_ne by (symmetry; by eapply Hoff). done.
Qed.


Lemma poke_unobservable w c f :
  heap_bounded w → table_valid w →
  (∀ q s, servers w !! q = Some s → s ≠ c) →
  (ListServers_value (poke c f w)).1 = (ListServers_value w).1
  ∧ ∀ q, (GetServer_value q (poke c f w)).1 = (GetServer_value q w).1.
Proof.
  intros Hb Hv Hoff.
  destruct (poke_off_table w c f Hb Hv Hoff) as (Hb' & Hv' & Hview).
  split.
  - by rewrite !ListServers_value_spec, Hview.
  - intros q. by rewrite !GetServer_value_spec, Hview.
Qed.

(** On a well-formed heap [ListServers] and [GetServer] return,
    and whatever a caller then assigns to the fields of a struct they
    handed out, the next [ListServers] and the next [GetServer] of any
    port hand out the same values as if nothing had been assigned. *)
Lemma snapshot_isolation_wf (w : world) :
  heap_bounded w → table_valid w →
  (∃ snap w1,
      ListServers w = (Ret snap, w1)
      ∧ ∀ port c f, snap !! port = Some c →
          (ListServers_value (poke c f w1)).1 = (ListServers_value w1).1
          ∧ ∀ q, (GetServer_value q (poke c f w1)).1 = (GetServer_value q w1).1)
  ∧ (∀ port s, servers w !! port = Some s →
       ∃ c w1,
         GetServer port w = (Ret (inr c), w1)
         ∧ ∀ f, (ListServers_value (poke c f w1)).1 = (ListServers_value w1).1
                ∧ ∀ q, (GetServer_value q (poke c f w1)).1 = (GetServer_value q w1).1).
Proof.
  intros Hb Hv. split.
  - destruct (ListServers_spec w Hb Hv) as
      (snap & w1 & Hrun & Hsrv & Hb1 & Hframe & Hnone & Hsome).
    exists snap, w1. split; [done|]. intros port c f Hc.
    assert (Hv1 : table_valid w1).
    { intros q s Hq. simpl. rewrite Hsrv in Hq. rewrite Hframe; [exact (Hv q s Hq)|].
      apply bounded_cell; [done|]. exact (Hv q s Hq). }
    apply poke_unobservable; [done|done|].
    intros q s Hq ->. rewrite Hsrv in Hq.
    assert (Hlt : (c < next_loc w)%positive)
      by (apply bounded_cell; [done|]; exact (Hv q c Hq)).
    destruct (servers w !! port) as [s'|] eqn:Hp.
    + destruct (Hsome port s' Hp) as (c' & v & Hc' & _ & _ & Hle).
      assert (c' = c) as -> by congruence. lia.
    + rewrite (Hnone port Hp) in Hc. done.
  - intros port s Hs. destruct (table_valid_cell w port s Hv Hs) as [v Hcell].
    eexists _, _. split; [exact (GetServer_present w port s v Hs Hcell)|].
    intros f. apply poke_unobservable.
    + by apply alloc_bounded.
    + intros q s' Hq. reduce. simpl in Hq.
      rewrite lookup_insert_ne; [exact (Hv q s' Hq)|].
      assert ((s' < next_loc w)%positive)
        by (apply bounded_cell; [done|]; exact (Hv q s' Hq)). lia.
    + intros q s' Hq ->. simpl in Hq.
      assert ((next_loc w < next_loc w)%positive)
        by (apply bounded_cell; [done|]; exact (Hv q _ Hq)). lia.
Qed.





(** The clone shares the [exec.Cmd] of the entry it was made from. *)
Lemma clone_shares_cmd v : r_cmd (runtime (clone_value v)) = r_cmd (runtime v).
Proof. reflexivity. Qed.

(** *** Reading does not write *)

Lemma Process_pure s w : (Process s w).2 = w.
Proof.
  unfold Process, bind, load, ret. destruct (heap w !! s) as [v|]; [|done].
  destruct (r_cmd (runtime v)) as [c|]; [|done]. by destruct (cmds w !! c).
Qed.

Lemma Alive_pure s w : (Alive s w).2 = w.
Proof.
  unfold Alive, bind. pose proof (Process_pure s w) as H.
  destruct (Process s w) as [[[pid|]|f] w']; simpl in H; by subst.
Qed.

Lemma wp_Alive s (Q : outcome bool → world → Prop) w :
  (∀ o, Q o w) → wp (Alive s) Q w.
Proof. intros H. unfold wp. rewrite Alive_pure. apply H. Qed.

(** What one turn of the monitor's inner loop does to the world: it
    writes no struct but the one it is given, and can only take entries
    out of the table. *)
Lemma monitor_one_wp E c w :
  wp (monitor_one E c)
     (fun _ w' =>
        next_loc w' = next_loc w
        ∧ (∀ l, l ≠ c → heap w' !! l = heap w !! l)
        ∧ (is_Some (heap w' !! c) ↔ is_Some (heap w !! c))
        ∧ grown w w'
        ∧ (∀ port s, servers w' !! port = Some s → servers w !! port = Some s)
        ∧ mgr_path w' = mgr_path w) w.
Proof.
  assert (Hsame : next_loc w = next_loc w
        ∧ (∀ l, l ≠ c → heap w !! l = heap w !! l)
        ∧ (is_Some (heap w !! c) ↔ is_Some (heap w !! c))
        ∧ grown w w
        ∧ (∀ port s, servers w !! port = Some s → servers w !! port = Some s)
        ∧ mgr_path w = mgr_path w).
  { split; [done|]. split; [done|]. split; [done|].
    split; [apply grown_refl|done]. }
  unfold monitor_one. apply wp_bind, wp_Alive.
  intros [[|]|f]; cbv beta iota; [apply wp_ret, Hsame | | apply Hsame].
  destruct (heap w !! c) as [v|] eqn:Hv.
  2:{ unfold wp, exec, prepareExec, bind, load. cbv beta. rewrite Hv. simpl.
      rewrite Hv. apply Hsame. }
  apply wp_bind. eapply wp_wand; [by apply exec_full_wp|].
  intros o w' (r & v' & -> & Hh & _ & Hn & Hs & Hm & _ & Hg & _).
  assert (Hpost : next_loc w' = next_loc w
        ∧ (∀ l, l ≠ c → heap w' !! l = heap w !! l)
        ∧ (is_Some (heap w' !! c) ↔ is_Some (Some v))
        ∧ grown w w').
  { split; [done|]. split.
    { intros l Hl. rewrite Hh. by apply lookup_insert_ne. }
    split; [|done]. rewrite Hh, lookup_insert_eq. split; by eexists. }
  destruct Hpost as (P1 & P2 & P3 & P4).
  destruct r as [e|].
  2:{ apply wp_ret. rewrite Hs, Hm. done. }
  assert (Hc : heap w' !! c = Some v') by (rewrite Hh; apply lookup_insert_eq).
  unfold_ops. wp_run E.
  all: reduce; split; [done|]; split; [done|]; split; [done|].
  all: split; [eapply grown_trans; [exact P4|]; apply grown_same; reflexivity|].
  all: split; [|done].
  all: intros port s Hps; apply lookup_delete_Some in Hps as [_ Hps]; by rewrite <- Hs.
Qed.

Lemma with_heap_id w : with_heap (heap w) (next_loc w) w = w.
Proof. by destruct w. Qed.

Lemma clone_all_heap_only entries : ∀ acc w,
  ∃ h n, (clone_all entries acc w).2 = with_heap h n w.
Proof.
  induction entries as [|[p s] rest IH]; intros acc w.
  { exists (heap w), (next_loc w). simpl. by rewrite with_heap_id. }
  simpl. unfold clone, bind, load, alloc.
  destruct (heap w !! s) as [v|].
  - destruct (IH (<[p := next_loc w]> acc)
                (with_heap (<[next_loc w := clone_value v]> (heap w))
                           (Pos.succ (next_loc w)) w)) as (h & n & ->).
    by exists h, n.
  - exists (heap w), (next_loc w). simpl. by rewrite with_heap_id.
Qed.

Lemma ListServers_untouched w :
  heap_bounded w → table_valid w →
  ∃ snap w',
    ListServers w = (Ret snap, w')
    ∧ untouched w w'
    ∧ (∀ q c, snap !! q = Some c → (next_loc w ≤ c)%positive).
Proof.
  intros Hb Hv.
  destruct (clone_all_spec (map_to_list (servers w)) ∅ w Hb) as
    (snap & w' & Hrun & Hsrv & Hb' & Hnext & Hframe & Hout & Hins).
  { intros p s Hps. apply elem_of_map_to_list in Hps. exact (Hv p s Hps). }
  destruct (clone_all_heap_only (map_to_list (servers w)) ∅ w) as (h & n & Hho).
  rewrite Hrun in Hho. simpl in Hho.
  exists snap, w'. split.
  { unfold ListServers, bind, gets. by rewrite Hrun. }
  split.
  - split; [done|]. split; [done|]. split; [done|]. split.
    + apply grown_same; by rewrite Hho.
    + split; [|by rewrite Hho]. intros port s. by rewrite Hsrv.
  - intros q c Hc. destruct (decide (q ∈ (map_to_list (servers w)).*1)) as [Hq|Hq].
    + destruct (Hins q Hq) as (c' & _ & _ & Hc' & _ & _ & _ & Hle). congruence.
    + rewrite (Hout q Hq) in Hc. done.
Qed.

Lemma untouched_step w0 w w' c :
  untouched w0 w → (next_loc w0 ≤ c)%positive →
  next_loc w' = next_loc w →
  (∀ l, l ≠ c → heap w' !! l = heap w !! l) →
  (is_Some (heap w' !! c) ↔ is_Some (heap w !! c)) →
  grown w w' →
  (∀ port s, servers w' !! port = Some s → servers w !! port = Some s) →
  mgr_path w' = mgr_path w →
  untouched w0 w'.
Proof.
  intros (Hn & Hf & Hb & Hg & Hs & Hm) Hc Hn' Hf' Hc' Hg' Hs' Hm'.
  split; [lia|]. split.
  { intros l Hl. rewrite Hf' by lia. by apply Hf. }
  split.
  { intros Hb0 l x Hx. specialize (Hb Hb0). simpl. rewrite Hn'.
    apply (bounded_cell w l Hb). destruct (decide (l = c)) as [->|Hl].
    - apply Hc'. by eexists.
    - rewrite <- Hf' by done. by eexists. }
  split; [by eapply grown_trans|]. split; [auto|congruence].
Qed.

Lemma monitor_each_untouched E (cs : list (Z * positive)) : ∀ w0 w,
  untouched w0 w →
  (∀ q c, (q, c) ∈ cs → (next_loc w0 ≤ c)%positive) →
  untouched w0 (for_each cs (fun '(_, s) => monitor_one E s) w).2.
Proof.
  induction cs as [|[q c] cs IH]; intros w0 w Hu Hcs; [done|].
  pose proof (monitor_one_wp E c w) as Hstep. unfold wp in Hstep.
  simpl. unfold bind.
  destruct (monitor_one E c w) as [o w1]. simpl in Hstep.
  destruct Hstep as (Hn & Hf & Hc & Hg & Hs & Hm).
  assert (Hu1 : untouched w0 w1).
  { apply (untouched_step w0 w w1 c); [done | apply (Hcs q c); left | done..]. }
  destruct o as [[]|f]; [|done].
  apply IH; [done|]. intros q' c' Hin. apply (Hcs q' c'). by right.
Qed.

(** A round of the monitor writes no struct the table points to, adds
    no entry, and leaves the commands and pids known before as they
    were. *)
Lemma monitor_round_untouched E w :
  heap_bounded w → table_valid w → untouched w (monitor_round E w).2.
Proof.
  intros Hb Hv.
  destruct (ListServers_untouched w Hb Hv) as (snap & w1 & Hrun & Hu & Hsnap).
  unfold monitor_round, bind. rewrite Hrun.
  apply monitor_each_untouched; [done|].
  intros q c Hin. apply elem_of_map_to_list in Hin. by apply (Hsnap q c).
Qed.

(** After a round, an entry found dead before it is either gone from
    the table or still there with the same struct, recording the same
    dead process: the round never makes the entry alive. *)
Lemma monitor_round_never_revives E w port s v c cmd pid :
  heap_bounded w → cmds_bounded w → table_valid w →
  servers w !! port = Some s →
  heap w !! s = Some v → r_cmd (runtime v) = Some c →
  cmds w !! c = Some cmd → cmd_Process cmd = Some pid →
  pid ∉ procs w →
  let w' := (monitor_round E w).2 in
  (servers w' !! port = None ∨ servers w' !! port = Some s)
  ∧ heap w' !! s = Some v
  ∧ (Alive s w').1 = Ret false.
Proof.
  intros Hb Hcb Hv Hs Hcell Hc Hcmd Hpid Hdead w'.
  destruct (monitor_round_untouched E w Hb Hv) as (_ & Hf & _ & Hg & Hsrv & _).
  fold w' in Hf, Hg, Hsrv.
  destruct Hg as (_ & Hcf & _ & _ & Hpf).
  destruct (Hcb c cmd Hcmd) as [Hclt Hplt]. simpl in Hclt.
  assert (Hcell' : heap w' !! s = Some v).
  { rewrite Hf; [done|]. apply bounded_cell; [done|by eexists]. }
  split.
  { destruct (servers w' !! port) as [s'|] eqn:Hp; [|by left].
    right. specialize (Hsrv port s' Hp). congruence. }
  split; [done|].
  unfold Alive, Process, process_Alive, bind, load, gets, ret.
  rewrite Hcell', Hc, (Hcf c Hclt), Hcmd, Hpid. simpl. f_equal.
  apply bool_decide_eq_false. rewrite Hpf; [done|]. by apply Hplt.
Qed.

(** *** The table stays sound *)

Lemma untouched_kept w w' : untouched w w' → kept w w'.
Proof.
  intros (Hn & Hf & Hb & (Hc & Hcf & Hcb & _) & Hs & Hm).
  unfold kept. repeat apply conj; done.
Qed.

Lemma sound_table_valid w : sound w → table_valid w.
Proof.
  intros (_ & _ & He) port s Hs. destruct (He port s Hs) as (v & pid & (Hv & _) & _).
  simpl. by eexists.
Qed.

Lemma entry_sound_frame w w' port s :
  entry_sound w port s →
  heap w' !! s = heap w !! s →
  (∀ c, is_Some (cmds w !! c) → cmds w' !! c = cmds w !! c) →
  mgr_path w' = mgr_path w →
  entry_sound w' port s.
Proof.
  intros (v & pid & (Hv & Hp & Hl & c & cmd & Hc & Hcmd & Hpid) & HP & Hdir) Hh Hcs Hm.
  exists v, pid. split; [|by rewrite Hm]. split; [by rewrite Hh|]. split; [done|].
  split; [done|]. exists c, cmd. split; [done|]. split; [|done].
  rewrite Hcs; [done|by eexists].
Qed.

Lemma sound_kept w w' : sound w → kept w w' → sound w'.
Proof.
  intros (Hb & Hcb & He) (Hn & Hf & Hb' & Hnc & Hcf & Hcb' & Hs & Hm).
  split; [auto|]. split; [auto|].
  intros port s Hps. apply Hs in Hps. pose proof (He port s Hps) as Hes. simpl in Hes.
  eapply entry_sound_frame; [exact Hes| | |exact Hm].
  - apply Hf. destruct Hes as (v & pid & (Hv & _) & _).
    apply bounded_cell; [done|by eexists].
  - intros c [cmd Hc]. apply Hcf. by destruct (Hcb c cmd Hc).
Qed.

(** Soundness only looks at the heap, the commands, the table and the
    allocation pointers. *)
Lemma sound_fields w w' :
  heap w' = heap w → next_loc w' = next_loc w →
  cmds w' = cmds w → next_cmd w' = next_cmd w → next_pid w' = next_pid w →
  servers w' = servers w → mgr_path w' = mgr_path w →
  sound w → sound w'.
Proof.
  intros Hh Hn Hc Hnc Hnp Hs Hm (Hb & Hcb & He).
  unfold sound, heap_bounded, cmds_bounded, entry_sound, launched.
  rewrite Hh, Hn, Hc, Hnc, Hnp, Hs, Hm. done.
Qed.

Lemma kept_alloc w v : kept w (alloc v w).2.
Proof.
  unfold alloc. simpl. split; [reduce; lia|]. split.
  { intros l Hl. reduce. apply lookup_insert_ne. lia. }
  split; [apply alloc_bounded|]. split; [reduce; lia|]. repeat apply conj; done.
Qed.

Lemma kept_refl w : kept w w.
Proof. unfold kept. repeat apply conj; auto; lia. Qed.

Lemma kept_GetServer w port : kept w (GetServer port w).2.
Proof.
  unfold GetServer, clone, bind, gets, load.
  destruct (servers w !! port) as [s|]; [|apply kept_refl].
  destruct (heap w !! s) as [v|]; [|apply kept_refl].
  apply kept_alloc.
Qed.

Lemma kept_ListServers w : sound w → kept w (ListServers w).2.
Proof.
  intros Hs. destruct Hs as (Hb & Hrest).
  destruct (ListServers_untouched w Hb) as (snap & w' & -> & Hu & _).
  { apply sound_table_valid. by split. }
  by apply untouched_kept.
Qed.

Lemma kept_monitor_round E w : sound w → kept w (monitor_round E w).2.
Proof.
  intros Hs. apply untouched_kept, monitor_round_untouched; [apply Hs|].
  by apply sound_table_valid.
Qed.

Lemma kept_dies w pid : kept w (with_procs (procs w ∖ {[pid]}) (next_pid w) w).
Proof. unfold kept. reduce. repeat apply conj; auto; lia. Qed.

Lemma Remove_launched_frame E w port s v pid :
  servers w !! port = Some s → launched w s v pid →
  wp (Remove E port)
     (fun _ w' => heap w' = heap w ∧ next_loc w' = next_loc w
                  ∧ cmds w' = cmds w ∧ next_cmd w' = next_cmd w
                  ∧ next_pid w' = next_pid w
                  ∧ servers w' = delete port (servers w)
                  ∧ mgr_path w' = mgr_path w) w.
Proof.
  intros Hs (Hv & Hp & [f Hf] & c & cmd & Hc & Hcmd & Hpid).
  unfold_ops. wp_run E.
  all: try (rewrite Hp in *; discriminate).
  all: reduce; repeat apply conj; reflexivity.
Qed.

Lemma sound_Remove E w port : sound w → sound (Remove E port w).2.
Proof.
  intros Hs. destruct (servers w !! port) as [s|] eqn:Hp.
  2:{ by rewrite (Remove_absent E w port Hp). }
  destruct Hs as (Hb & Hcb & He).
  destruct (He port s Hp) as (v & pid & Hl & _).
  pose proof (Remove_launched_frame E w port s v pid Hp Hl) as H. unfold wp in H.
  destruct H as (Hh & Hn & Hc & Hnc & Hnp & Hsrv & Hm).
  apply (sound_kept w); [by split|].
  unfold kept. rewrite Hh, Hn, Hc, Hnc, Hsrv, Hm.
  split; [lia|]. split; [done|]. split; [unfold heap_bounded; by rewrite Hh, Hn|].
  split; [lia|]. split; [done|].
  split; [unfold cmds_bounded; by rewrite Hc, Hnc, Hnp|].
  split; [|done].
  intros q s' Hq. by apply lookup_delete_Some in Hq as [_ Hq].
Qed.

(** The handler writes nothing but the statistics of one table entry. *)
Lemma StatRecvHandler_frame E data w :
  table_valid w →
  wp (StatRecvHandler E data)
     (fun _ w' =>
        next_loc w' = next_loc w ∧ cmds w' = cmds w ∧ next_cmd w' = next_cmd w
        ∧ next_pid w' = next_pid w ∧ servers w' = servers w
        ∧ mgr_path w' = mgr_path w
        ∧ (heap w' = heap w
           ∨ ∃ port s old st, servers w !! port = Some s ∧ heap w !! s = Some old
                              ∧ heap w' = <[s := set_stat st old]> (heap w))) w.
Proof.
  intros Hv. unfold StatRecvHandler.
  destruct (slice_to 4 data) as [cmd|f]; [|apply wp_panic; repeat apply conj; auto].
  destruct (negb (bool_decide (cmd = stat_tag)));
    [apply wp_emit; reduce; repeat apply conj; auto|].
  destruct (slice_from 5 data) as [rest|f]; [|apply wp_panic; repeat apply conj; auto].
  apply wp_bind, wp_emit. cbv beta iota.
  destruct (json_Unmarshal E (TrimSpace rest)) as [st|];
    [|apply wp_emit; reduce; repeat apply conj; auto].
  destruct (match st with
            | [] => (-1, -1)
            | (portS, trafficS) :: _ => (Atoi portS, trafficS)
            end) as [port traffic].
  destruct ((port <? 0) || (traffic <? 0));
    [apply wp_emit; reduce; repeat apply conj; auto|].
  apply wp_bind, wp_gets. reduce.
  destruct (servers w !! int32 port) as [s|] eqn:Hs;
    [|apply wp_emit; reduce; repeat apply conj; auto].
  destruct (table_valid_cell w _ s Hv Hs) as [old Hold].
  apply wp_bind. eapply wp_load; [reduce; exact Hold|].
  eapply wp_store; [reduce; exact Hold|].
  reduce. repeat apply conj; auto. right. by eexists (int32 port), s, old, _.
Qed.

Lemma sound_store_stat w s old st :
  sound w → heap w !! s = Some old →
  sound (with_heap (<[s := set_stat st old]> (heap w)) (next_loc w) w).
Proof.
  intros (Hb & Hcb & He) Hold. split; [|split].
  - intros l x. reduce. rewrite lookup_insert. case_decide as Hl.
    + intros _. subst l. apply (bounded_cell w s Hb). by eexists.
    + intros Hx. exact (Hb l x Hx).
  - exact Hcb.
  - intros port s' Hps. simpl in Hps.
    destruct (He port s' Hps) as (v & pid & (Hcell & Hp & Hl & Hcmd) & HP & Hdir).
    destruct (decide (s' = s)) as [->|Hne].
    + exists (set_stat st old), pid.
      assert (v = old) as -> by congruence.
      split; [|done]. split; [reduce; apply lookup_insert_eq|]. by repeat apply conj.
    + exists v, pid. split; [|done].
      split; [reduce; by rewrite lookup_insert_ne|]. by repeat apply conj.
Qed.

Lemma sound_StatRecvHandler E data w : sound w → sound (StatRecvHandler E data w).2.
Proof.
  intros Hs.
  pose proof (StatRecvHandler_frame E data w (sound_table_valid w Hs)) as H.
  unfold wp in H. destruct H as (Hn & Hc & Hnc & Hnp & Hsrv & Hm & [Hh|Hh]).
  - by apply (sound_fields w).
  - destruct Hh as (port & s & old & st & Hps & Hold & Hh).
    apply (sound_fields (with_heap (<[s := set_stat st old]> (heap w)) (next_loc w) w));
      try done.
    by apply sound_store_stat.
Qed.

(** What [Add] does to the world once it has read its argument. *)
Lemma Add_effect E s w v :
  heap w !! s = Some v →
  wp (Add E s)
     (fun o w' =>
        w' = w
        ∨ (servers w !! Port v = None
           ∧ ∃ v', heap w' = <[s := v']> (heap w) ∧ same_config v v'
                   ∧ next_loc w' = next_loc w ∧ grown w w'
                   ∧ mgr_path w' = mgr_path w
                   ∧ (servers w' = servers w
                      ∨ (servers w' = <[Port v := s]> (servers w)
                         ∧ r_path (runtime v') = path_Join (mgr_path w) (Sprint (Port v))
                         ∧ ∃ pid, launched w' s v' pid)))) w.
Proof.
  intros H. unfold Add. wp_run E; try by left.
  eapply wp_wand; [by apply exec_full_wp|].
  intros o w' (r & v' & -> & Hh & Hc & Hn & Hs & Hm & _ & Hg & Hl).
  assert (HP : Port v' = Port v) by apply Hc.
  assert (Hcell : heap w' !! s = Some v') by (rewrite Hh; apply lookup_insert_eq).
  destruct r as [e|]; wp_run E.
  - right. split; [done|]. exists v'.
    split; [done|]. split; [done|]. split; [done|]. split; [done|].
    split; [done|]. by left.
  - right. split; [done|]. exists v'. reduce. split; [done|]. split; [done|].
    split; [done|]. split.
    { eapply grown_trans; [exact Hg|]. apply grown_same; reflexivity. }
    split; [done|].
    right. rewrite HP, Hs. split; [done|].
    destruct (Hl eq_refl) as (Hdir & Hp & Hlog & c & cmd & pid & Hcm & Hcmd & Hpid).
    split; [done|].
    exists pid. split; [exact Hcell|]. split; [done|]. split; [done|].
    by exists c, cmd.
Qed.

Lemma sound_Add E s w : sound w → sound (Add E s w).2.
Proof.
  intros Hs. destruct (heap w !! s) as [v|] eqn:Hv.
  2:{ unfold Add, bind, load. by rewrite Hv. }
  pose proof (Add_effect E s w v Hv) as H. unfold wp in H.
  destruct H as [-> | (Hfree & v' & Hh & Hc & Hn & Hg & Hm & Hsrv)]; [done|].
  destruct Hs as (Hb & Hcb & He).
  destruct Hg as (Hnc & Hcf & Hcb' & _).
  assert (Hold : ∀ port s', servers w !! port = Some s' →
                            entry_sound (Add E s w).2 port s').
  { intros port s' Hps. pose proof (He port s' Hps) as Hes. simpl in Hes.
    eapply entry_sound_frame; [exact Hes| | |exact Hm].
    - rewrite Hh. apply lookup_insert_ne. intros <-.
      destruct Hes as (v0 & pid & (Hcell & _) & HP & _).
      assert (v0 = v) as -> by congruence. congruence.
    - intros c [cmd Hcmd]. apply Hcf. by destruct (Hcb c cmd Hcmd). }
  split; [|split; [auto|]].
  - intros l x. rewrite Hh, Hn, lookup_insert. case_decide as Hl.
    + intros _. subst l. apply (bounded_cell w s Hb). by eexists.
    + intros Hx. exact (Hb l x Hx).
  - destruct Hsrv as [-> | (-> & Hdir & pid & Hl)]; [exact Hold|].
    intros port s' Hps. apply lookup_insert_Some in Hps as [[<- <-]|[_ Hps]].
    + exists v', pid. split; [done|]. split; [apply Hc|]. by rewrite Hm.
    + by apply Hold.
Qed.

Lemma NewManager_sound home port : sound (NewManager home port).
Proof.
  split; [|split]; intros k x Hx; simpl in Hx; by rewrite lookup_empty in Hx.
Qed.

Lemma step_sound w ea : sound w → sound (step w ea).
Proof.
  intros Hs. destruct ea as [E []]; simpl.
  - apply (sound_kept w); [done|apply kept_alloc].
  - by apply sound_Add.
  - by apply sound_Remove.
  - apply (sound_kept w); [done|by apply kept_ListServers].
  - apply (sound_kept w); [done|apply kept_GetServer].
  - apply (sound_kept w); [done|by apply kept_monitor_round].
  - by apply sound_StatRecvHandler.
  - apply (sound_kept w); [done|apply kept_dies].
Qed.

(** Whatever its history, the manager is in a sound state. *)
Lemma reached_sound home port history : sound (reached home port history).
Proof.
  unfold reached. induction history as [|ea history IH] using rev_ind.
  - apply NewManager_sound.
  - rewrite foldl_app. simpl. by apply step_sound.
Qed.

(** *** The properties claimed of the supervisor *)

(** The monitor makes no table entry alive.  In any state the manager
    can reach, take an entry whose recorded process is not alive.  After
    a round of the monitor the entry is either gone or still in the
    table, on the same struct, which was not written, and [Alive] still
    says no: whatever the round has started is known to the clone only. *)
Lemma monitor_never_revives (E : Env) (home : string) (udp : Z)
    (history : list (Env * action)) (port : Z) (s : positive) :
  let w := reached home udp history in
  servers w !! port = Some s →
  (Alive s w).1 = Ret false →
  let w' := (monitor_round E w).2 in
  (servers w' !! port = None ∨ servers w' !! port = Some s)
  ∧ heap w' !! s = heap w !! s
  ∧ (Alive s w').1 = Ret false.
Proof.
  intros w Hs Hdead.
  pose proof (reached_sound home udp history) as Hsound. fold w in Hsound.
  pose proof Hsound as (Hb & Hcb & He).
  destruct (He port s Hs) as (v & pid & (Hv & _ & _ & c & cmd & Hc & Hcmd & Hpid) & _).
  assert (Hnot : pid ∉ procs w).
  { unfold Alive, Process, process_Alive, bind, load, gets, ret in Hdead.
    rewrite Hv, Hc, Hcmd, Hpid in Hdead. simpl in Hdead.
    injection Hdead as Hd. by apply bool_decide_eq_false in Hd. }
  destruct (monitor_round_never_revives E w port s v c cmd pid Hb Hcb
              (sound_table_valid w Hsound) Hs Hv Hc Hcmd Hpid Hnot)
    as (H1 & H2 & H3).
  split; [exact H1|]. split; [by rewrite H2, Hv | exact H3].
Qed.

(** C1.  Port 8388 is in the table and its process has died.  One
    round of the monitor starts a new process from the clone it was
    given and leaves the table entry as it was: still present, its
    struct not written, its recorded process dead.  The next round
    finds the same dead entry and starts one more process. *)
Theorem monitor_leaves_dead_entry :
  (Alive 1%positive crashed).1 = Ret false
  ∧ (monitor_round friendly crashed).1 = Ret tt
  ∧ servers (monitor_round friendly crashed).2 !! 8388 = Some 1%positive
  ∧ heap (monitor_round friendly crashed).2 !! 1%positive = heap crashed !! 1%positive
  ∧ (Alive 1%positive (monitor_round friendly crashed).2).1 = Ret false
  ∧ procs (monitor_round friendly crashed).2 = {[ 2 ]}
  ∧ procs (ServerMonitor friendly 2 crashed).2 = {[ 2; 3 ]}
  ∧ (Alive 1%positive (ServerMonitor friendly 2 crashed).2).1 = Ret false.
Proof. repeat split; by vm_compute. Qed.

(** C4, as the code has it.  In any state the manager can reach, a
    packet of at least five bytes is handled without a fault and nothing
    but the heap and the log can change.  If the packet is accepted (tag
    [stat], body decoded, first entry met with port and count not
    negative, port in the table once converted to [int32]) the struct of
    that one entry gets the new statistics and no warning is logged;
    otherwise no struct changes and the handler ends on a warning.  An
    object of several keys is treated by its first entry in iteration
    order, like an object of one key. *)
Theorem StatRecvHandler_contract (E : Env) (home : string) (udp : Z)
    (history : list (Env * action)) (data : slice) :
  let w := reached home udp history in
  (5 ≤ len data)%nat → (len data ≤ length (arr data))%nat →
  ∃ w', StatRecvHandler E data w = (Ret tt, w')
        ∧ servers w' = servers w ∧ cmds w' = cmds w
        ∧ files w' = files w ∧ procs w' = procs w
        ∧ ((∃ s traffic old,
              accepted E w data s traffic
              ∧ heap w !! s = Some old
              ∧ heap w' = <[s := set_stat (Some (mkStat traffic)) old]> (heap w)
              ∧ trace w' = trace w ++ [Logged DebugLevel (StatBodyIs (body_of data))])
           ∨ ((∀ s traffic, ¬ accepted E w data s traffic)
              ∧ heap w' = heap w ∧ warned w w')).
Proof.
  intros w. apply StatRecvHandler_handled, sound_table_valid, reached_sound.
Qed.

Lemma StatRecvHandler_contract_witness :
  ∃ w', StatRecvHandler friendly stat_7000_5 two_servers = (Ret tt, w')
        ∧ servers w' = servers two_servers.
Proof.
  destruct (StatRecvHandler_contract friendly "/root" 6001 adding_two stat_7000_5)
    as (w' & Hr & Hs & _).
  - vm_compute. lia.
  - vm_compute. lia.
  - exists w'. split; [exact Hr | exact Hs].
Defined.

(** The counterexample to C4 as stated: a packet whose object has two
    keys is not dropped.  Whichever of the two entries the iteration
    meets first, its port is in the table and its count is stored. *)
Lemma two_keys_packet_is_not_dropped :
  json_Unmarshal friendly (body_of stat_two_keys) = Some [("8388"%string, 7); ("9000"%string, 9)]
  ∧ stat <$> heap two_servers !! 1%positive = Some None
  ∧ stat <$> heap (StatRecvHandler friendly stat_two_keys two_servers).2 !! 1%positive
    = Some (Some (mkStat 7))
  ∧ stat <$> heap two_servers !! 2%positive = Some None
  ∧ stat <$> heap (StatRecvHandler friendly_backwards stat_two_keys two_servers).2
               !! 2%positive
    = Some (Some (mkStat 9)).
Proof. repeat split; by vm_compute. Qed.

(** A packet that ends with the tag stops the handler with a fault. *)
Lemma bare_tag_faults :
  (StatRecvHandler friendly stat_bare two_servers).1 = Panic SliceBounds.
Proof. by vm_compute. Qed.

(** The receive loop drops the last byte of every datagram: with the
    closing zero byte the report arrives whole, without it the closing
    brace is lost and the report is dropped as undecodable. *)
Lemma receive_drops_last_byte :
  stat <$> heap (receive friendly empty_buffer datagram_8388_1024 two_servers).2
             !! 1%positive
  = Some (Some (mkStat 1024))
  ∧ heap (receive friendly empty_buffer (arr stat_8388_1024) two_servers).2
    = heap two_servers
  ∧ last (trace (receive friendly empty_buffer (arr stat_8388_1024) two_servers).2)
    = Some (Logged WarnLevel UnmarshalError).
Proof. repeat split; by vm_compute. Qed.

(** A port number beyond [int32] is cut to its low 32 bits, so a packet
    for "port" 2^32 + 8388 lands on the entry of port 8388. *)
Lemma wrapping_port_lands_on_8388 :
  stat <$> heap (StatRecvHandler friendly stat_wrapping two_servers).2 !! 1%positive
  = Some (Some (mkStat 5)).
Proof. by vm_compute. Qed.

(** C5.  Once [Add] has succeeded for a port, [Add] of any other
    configuration with that port is answered [ErrServerExists], whatever
    else that configuration holds, and nothing at all changes: not the
    table, not the heap (the first entry's configuration and statistics),
    not the file system, not the processes, not the log. *)
Theorem Add_twice_rejected (E : Env) (w w1 : world) (s1 s2 : positive)
    (v1 v2 : Server) :
  heap w !! s1 = Some v1 →
  Add E s1 w = (Ret None, w1) →
  heap w1 !! s2 = Some v2 →
  Port v2 = Port v1 →
  servers w1 !! Port v1 = Some s1
  ∧ Add E s2 w1 = (Ret (Some ErrServerExists), w1).
Proof.
  intros H1 Hadd H2 Hport.
  destruct (wp_elim _ _ _ _ _ (Add_wp E s1 w v1 H1) Hadd eq_refl)
    as (v' & Hs & _).
  assert (Hin : servers w1 !! Port v1 = Some s1)
    by (rewrite Hs; apply lookup_insert_eq).
  split; [done|].
  unfold Add, bind, load, gets. rewrite H2. simpl. by rewrite Hport, Hin.
Qed.

Lemma Add_twice_rejected_witness :
  Add friendly 3%positive one_server = (Ret (Some ErrServerExists), one_server).
Proof.
  refine (proj2 (Add_twice_rejected friendly initial one_server 1%positive
                   3%positive (config 8388) rival _ _ _ _));
    vm_compute; reflexivity.
Defined.

(** C6, as the code has it.  In any state the manager can reach,
    [Remove] of a port the table lacks answers [ErrServerNotFound] and
    changes nothing.  [Remove] of a port the table has returns nil; the
    entry leaves the table before its process is killed, no struct is
    written, and the directory of that port is emptied when its removal
    succeeds.  When the removal fails, [os.RemoveAll] has deleted what
    it could: what is left of the directory is exactly what the
    operating system did not let it delete, and the failure is only
    logged.  Either way no file appears and no file outside the
    directory of the port goes. *)
Theorem Remove_contract (E : Env) (home : string) (udp : Z)
    (history : list (Env * action)) (port : Z) :
  let w := reached home udp history in
  let dir := path_Join (mgr_path w) (Sprint port) in
  (servers w !! port = None →
   Remove E port w = (Ret (Some ErrServerNotFound), w))
  ∧ (∀ s, servers w !! port = Some s →
       ∃ pid w',
         Remove E port w = (Ret None, w')
         ∧ servers w' !! port = None
         ∧ servers w' = delete port (servers w)
         ∧ heap w' = heap w
         ∧ (pid ∉ procs w')
         ∧ (∃ rest, trace w' = trace w ++ TableDelete port :: ProcKilled pid :: rest)
         ∧ (os_RemoveAll E dir = true → ∀ f, f ∈ files w' → under dir f = false)
         ∧ (os_RemoveAll E dir = false →
            (∀ f, f ∈ files w' ↔
                  (under dir f = false ∨ os_RemoveAll_left E f = true)
                  ∧ f ∈ files w)
            ∧ Logged WarnLevel (CanNotDeletePath dir) ∈ trace w')
         ∧ (∀ f, f ∈ files w' → f ∈ files w)
         ∧ (∀ f, f ∈ files w → under dir f = false → f ∈ files w')).
Proof.
  intros w dir. split; [apply Remove_absent|].
  intros s Hs.
  destruct (reached_sound home udp history) as (_ & _ & He). fold w in He.
  destruct (He port s Hs) as (v & pid & Hl & _ & Hdir). fold dir in Hdir.
  destruct (Remove_launched E w port) as [_ H].
  destruct (H s v pid Hs Hl) as (w' & H1 & H2 & H3 & H4 & H5 & H6 & H7 & H8).
  pose proof (Remove_present_files E w port s v pid Hs Hl) as H9.
  unfold wp in H9. rewrite H1 in H9. simpl in H9. destruct H9 as [H9 H10].
  rewrite Hdir in H7, H8, H10. exists pid, w'.
  repeat (split; [assumption|]). assumption.
Qed.

Lemma Remove_contract_witness :
  ∃ pid w', Remove friendly 8388 one_server = (Ret None, w')
            ∧ servers w' !! 8388 = None
            ∧ (pid ∉ procs w')
            ∧ ∀ f, f ∈ files w' → under "/root/.shadowsocks_manager/8388" f = false.
Proof.
  destruct (Remove_contract friendly "/root" 6001 adding_one 8388) as [_ H].
  destruct (H 1%positive) as (pid & w' & Hr & Hn & _ & _ & Hp & _ & Hf & _).
  - vm_compute. reflexivity.
  - exists pid, w'. split; [exact Hr|]. split; [exact Hn|]. split; [exact Hp|].
    exact (Hf eq_refl).
Defined.

(** The counterexample to C6 as stated: the configuration file of
    port 8388 cannot be deleted; [Remove] returns nil all the same, the
    table has lost the entry, and the generated configuration file is
    still there, while the log that could be deleted is gone. *)
Lemma Remove_leaves_files_behind :
  (Remove config_locked 8388 one_server).1 = Ret None
  ∧ servers (Remove config_locked 8388 one_server).2 !! 8388 = None
  ∧ "/root/.shadowsocks_manager/8388/ss_server.json"
      ∈ files (Remove config_locked 8388 one_server).2
  ∧ "/root/.shadowsocks_manager/8388/ss_server.log"
      ∈ files one_server
  ∧ "/root/.shadowsocks_manager/8388/ss_server.log"
      ∉ files (Remove config_locked 8388 one_server).2.
Proof.
  split; [by vm_compute|]. split; [by vm_compute|].
  split; [apply (bool_decide_unpack _); by vm_compute|].
  split; [apply (bool_decide_unpack _); by vm_compute|].
  apply (bool_decide_unpack _). by vm_compute.
Qed.

(** C7.  In any state the manager can reach, [ListServers] and
    [GetServer] return, and whatever a caller then assigns to the fields
    of a struct they handed out, the next [ListServers] and the next
    [GetServer] of any port hand out the same values as if nothing had
    been assigned. *)
Theorem snapshot_isolation (home : string) (udp : Z)
    (history : list (Env * action)) :
  let w := reached home udp history in
  (∃ snap w1,
      ListServers w = (Ret snap, w1)
      ∧ ∀ port c f, snap !! port = Some c →
          (ListServers_value (poke c f w1)).1 = (ListServers_value w1).1
          ∧ ∀ q, (GetServer_value q (poke c f w1)).1 = (GetServer_value q w1).1)
  ∧ (∀ port s, servers w !! port = Some s →
       ∃ c w1,
         GetServer port w = (Ret (inr c), w1)
         ∧ ∀ f, (ListServers_value (poke c f w1)).1 = (ListServers_value w1).1
                ∧ ∀ q, (GetServer_value q (poke c f w1)).1 = (GetServer_value q w1).1).
Proof.
  intros w. pose proof (reached_sound home udp history) as Hs. fold w in Hs.
  apply snapshot_isolation_wf; [apply Hs | by apply sound_table_valid].
Qed.

Lemma snapshot_isolation_witness :
  ∃ c w1,
    GetServer 8388 two_servers = (Ret (inr c), w1)
    ∧ ∀ f, (ListServers_value (poke c f w1)).1 = (ListServers_value w1).1
           ∧ ∀ q, (GetServer_value q (poke c f w1)).1 = (GetServer_value q w1).1.
Proof.
  refine (proj2 (snapshot_isolation "/root" 6001 adding_two) 8388 1%positive _).
  vm_compute. reflexivity.
Defined.

(** C8.  In any state the manager can reach: a packet whose bytes are
    [stat {"8388":1024}], decoded as the one entry it spells, delivered
    while the table has port 8388, makes the handler return, and the
    clone [GetServer 8388] then hands out reads [Traffic = 1024].  A
    packet of one entry whose port, a number that [int32] can hold, is
    not in the table makes the handler return with the heap, hence the
    statistics of every entry, and the table as before. *)
Theorem stat_packet_reaches_GetServer (E : Env) (home : string) (udp : Z)
    (history : list (Env * action)) (data : slice) :
  let w := reached home udp history in
  (len data ≤ length (arr data))%nat →
  (∀ s, take (len data) (arr data) = arr stat_8388_1024 →
        json_Unmarshal E body_8388_1024 = Some [("8388"%string, 1024)] →
        servers w !! 8388 = Some s →
        ∃ w1 c w2 snap,
          StatRecvHandler E data w = (Ret tt, w1)
          ∧ GetServer 8388 w1 = (Ret (inr c), w2)
          ∧ heap w2 !! c = Some snap
          ∧ Traffic (GetStat snap) = 1024)
  ∧ (∀ portS traffic,
       (5 ≤ len data)%nat → take 4 (arr data) = stat_tag →
       json_Unmarshal E (body_of data) = Some [(portS, traffic)] →
       0 ≤ traffic → 0 ≤ Atoi portS < 2^31 →
       servers w !! Atoi portS = None →
       ∃ w1, StatRecvHandler E data w = (Ret tt, w1)
             ∧ heap w1 = heap w ∧ servers w1 = servers w).
Proof.
  intros w. apply stat_packet_wf, sound_table_valid, reached_sound.
Qed.

Lemma stat_packet_reaches_GetServer_witness :
  (∃ w1 c w2 snap,
     StatRecvHandler friendly stat_8388_1024 two_servers = (Ret tt, w1)
     ∧ GetServer 8388 w1 = (Ret (inr c), w2)
     ∧ heap w2 !! c = Some snap
     ∧ Traffic (GetStat snap) = 1024)
  ∧ (∃ w1, StatRecvHandler friendly stat_7000_5 two_servers = (Ret tt, w1)
           ∧ heap w1 = heap two_servers ∧ servers w1 = servers two_servers).
Proof.
  split.
  - refine (proj1 (stat_packet_reaches_GetServer friendly "/root" 6001 adding_two
                     stat_8388_1024 _) 1%positive _ _ _);
      vm_compute; first [reflexivity | lia].
  - refine (proj2 (stat_packet_reaches_GetServer friendly "/root" 6001 adding_two
                     stat_7000_5 _) "7000"%string 5 _ _ _ _ _ _);
      vm_compute;
      first [reflexivity | lia | discriminate | (split; [discriminate | reflexivity])].
Defined.

End SupervisorFacts.

(** ** Further properties of the remote-slave client *)

Module SlaveMore.
Import Manager Fixtures.Slave SlaveFacts.

Lemma lookup_without {V} (l : list ShadowsocksService) (g : gmap Z V) p :
  without l g !! p = if decide (p ∈ ports l) then None else g !! p.
Proof.
  revert g. induction l as [|a l IH]; intros g.
  - rewrite decide_False; [done|]. intros H. by apply elem_of_nil in H.
  - unfold without in *. simpl. rewrite IH. unfold ports. simpl.
    destruct (decide (p ∈ Port <$> l)) as [Hin|Hn].
    + rewrite decide_True; [done|]. by right.
    + destruct (decide (p = Port a)) as [->|Hne].
      * rewrite decide_True; [|by left]. apply lookup_delete_eq.
      * rewrite decide_False; [by rewrite lookup_delete_ne|].
        intros H. apply elem_of_cons in H as [?|?]; done.
Qed.

Lemma removePorts_spec srvs m :
  removePorts srvs m
  = (Ret tt, mkMeta (without srvs <$> openedPorts m) (without srvs <$> stats m)).
Proof.
  revert m. induction srvs as [|a l IH]; intros m.
  - by destruct m as [[o|] [t|]].
  - unfold removePorts in *. cbn. rewrite IH. cbn.
    by destruct m as [[o|] [t|]].
Qed.

Lemma lookup_merged_in l o p :
  p ∈ ports l → ∃ srv, srv ∈ l ∧ Port srv = p ∧ merged l o !! p = Some srv.
Proof.
  revert o. induction l as [|a l IH] using rev_ind; intros o Hin.
  - by apply elem_of_nil in Hin.
  - unfold merged, ports in *. rewrite foldl_app. simpl.
    destruct (decide (p = Port a)) as [->|Hne].
    + exists a. rewrite lookup_insert_eq. split; [|done]. apply elem_of_app. right. by left.
    + rewrite lookup_insert_ne by done.
      rewrite fmap_app in Hin. apply elem_of_app in Hin as [Hin|Hin].
      * destruct (IH o Hin) as (srv & ? & ? & ?). exists srv.
        split; [|done]. apply elem_of_app. by left.
      * simpl in Hin. apply list_elem_of_singleton in Hin. done.
Qed.

Lemma lookup_merged_out l o p : p ∉ ports l → merged l o !! p = o !! p.
Proof.
  revert o. induction l as [|a l IH]; intros o Hn; [done|].
  unfold merged, ports in *. simpl. rewrite IH.
  - apply lookup_insert_ne. intros <-. apply Hn. by left.
  - intros H. apply Hn. by right.
Qed.

Lemma lookup_zeroed l t p :
  zeroed l t !! p = if decide (p ∈ ports l) then Some 0 else t !! p.
Proof.
  revert t. induction l as [|a l IH]; intros t.
  - rewrite decide_False; [done|]. intros H. by apply elem_of_nil in H.
  - unfold zeroed, ports in *. simpl. rewrite IH.
    destruct (decide (p ∈ Port <$> l)) as [Hin|Hn].
    + rewrite decide_True; [done|]. by right.
    + destruct (decide (p = Port a)) as [->|Hne].
      * rewrite decide_True; [|by left]. apply lookup_insert_eq.
      * rewrite decide_False; [by rewrite lookup_insert_ne|].
        intros H. apply elem_of_cons in H as [?|?]; done.
Qed.

Lemma without_merged l o : without l (merged l o) = without l o.
Proof.
  apply map_eq. intros p. rewrite !lookup_without.
  case_decide; [done|]. by apply lookup_merged_out.
Qed.

Lemma without_zeroed l t : without l (zeroed l t) = without l t.
Proof.
  apply map_eq. intros p. rewrite !lookup_without, lookup_zeroed.
  by case_decide.
Qed.

Lemma foldl_insert_union (l : list (Z * Z)) (old : gmap Z Z) :
  NoDup l.*1 →
  foldl (fun acc kv => <[kv.1 := kv.2]> acc) old l = list_to_map l ∪ old.
Proof.
  revert old. induction l as [|[k v] l IH]; intros old Hnd.
  - simpl. by rewrite (left_id_L ∅ (∪)).
  - simpl in *. apply NoDup_cons in Hnd as [Hk Hnd]. rewrite IH by done.
    apply map_eq. intros i.
    assert (Hl : (list_to_map l : gmap Z Z) !! k = None)
      by (by apply not_elem_of_list_to_map_1).
    destruct (decide (i = k)) as [->|Hne].
    + rewrite lookup_union_r by done. rewrite lookup_insert_eq.
      symmetry. apply lookup_union_Some_l. apply lookup_insert_eq.
    + rewrite !lookup_union, lookup_insert_ne by done.
      by rewrite lookup_insert_ne by done.
Qed.

Lemma setStats_made t o old :
  setStats t (mkMeta o (Some old)) = (Ret tt, mkMeta o (Some (entries t ∪ old))).
Proof.
  unfold setStats, entries.
  assert (H : ∀ l cur,
    for_each l (fun '(port, traffic) => set_stats port traffic) (mkMeta o (Some cur))
    = (Ret tt, mkMeta o (Some (foldl (fun acc kv => <[kv.1 := kv.2]> acc) cur l)))).
  { induction l as [|[k v] l IH]; intros cur; [done|].
    cbn. apply IH. }
  rewrite H. destruct t as [t|]; simpl.
  - rewrite foldl_insert_union by apply NoDup_fst_map_to_list.
    by rewrite list_to_map_to_list.
  - by rewrite (left_id_L ∅ (∪)).
Qed.


Lemma Free_spec R n srvs resp :
  is_Some (stub (this n)) →
  rpc_Free R (constructProtocolServiceList srvs) = inr resp →
  Free R srvs n
  = (Ret (constructServiceList resp,
          report (compareLists (constructProtocolServiceList srvs) resp)),
     mkNode (set_meta
               (mkMeta (without (constructServiceList resp) <$> openedPorts (meta (this n)))
                       (without (constructServiceList resp) <$> stats (meta (this n))))
               (this n))
            (logrus n)).
Proof.
  intros [c Hc] H. unfold Free, bind, need_stub, on_meta.
  rewrite Hc, H, removePorts_spec. by rewrite length_zero_report.
Qed.

(** A call the channel fails hands the channel's error to the caller
    and leaves the node as it was: nothing is added to the mirror,
    nothing removed, nothing logged. *)
Theorem channel_error_changes_nothing (R : Remote) (n : node) (e : error) :
  is_Some (stub (this n)) →
  (∀ srvs, rpc_Allocate R (constructProtocolServiceList srvs) = inl e →
           Allocate R srvs n = (Ret ([], Some e), n))
  ∧ (∀ srvs, rpc_Free R (constructProtocolServiceList srvs) = inl e →
             Free R srvs n = (Ret ([], Some e), n))
  ∧ (rpc_ListServices R = inl e → ListServices R n = (Ret ([], Some e), n))
  ∧ (rpc_GetStats R = inl e → GetStats R n = (Ret (None, Some e), n))
  ∧ (∀ t, rpc_SetStats R t = Some e → SetStats R t n = (Ret (Some e), n)).
Proof.
  intros [c Hc]. repeat apply conj.
  - intros srvs H. unfold Allocate, bind, need_stub. by rewrite Hc, H.
  - intros srvs H. unfold Free, bind, need_stub. by rewrite Hc, H.
  - intros H. unfold ListServices, bind, need_stub. by rewrite Hc, H.
  - intros H. unfold GetStats, bind, need_stub. by rewrite Hc, H.
  - intros t H. unfold SetStats, bind, need_stub. by rewrite Hc, H.
Qed.

Lemma channel_error_changes_nothing_witness :
  Free unreachable [alice] dialed = (Ret ([], Some (ErrChannel "unavailable")), dialed).
Proof.
  refine (proj1 (proj2 (channel_error_changes_nothing unreachable dialed
                          (ErrChannel "unavailable") _)) [alice] _).
  - by eexists.
  - reflexivity.
Defined.

(** On a slave whose client stub is nil (never dialed, or closed) each
    of the five remote operations stops with a nil dereference before
    anything is sent, and the node is as it was. *)
Theorem calls_without_stub_fault (R : Remote) (n : node) :
  stub (this n) = None →
  (∀ srvs, Allocate R srvs n = (Panic NilDereference, n))
  ∧ (∀ srvs, Free R srvs n = (Panic NilDereference, n))
  ∧ ListServices R n = (Panic NilDereference, n)
  ∧ GetStats R n = (Panic NilDereference, n)
  ∧ (∀ t, SetStats R t n = (Panic NilDereference, n)).
Proof.
  intros H. repeat apply conj; intros;
    unfold Allocate, Free, ListServices, GetStats, SetStats, bind, need_stub;
    by rewrite H.
Qed.

Lemma calls_without_stub_fault_witness :
  ListServices obliging fresh = (Panic NilDereference, fresh).
Proof.
  refine (proj1 (proj2 (proj2 (calls_without_stub_fault obliging fresh _)))).
  reflexivity.
Defined.

(** [ListServices] never changes the slave: whatever the remote
    answers, connection, stub and local mirror are as before, and the
    log has grown by at most the one line that reports a difference. *)
Theorem ListServices_never_touches_mirror (R : Remote) (n : node) :
  this (snd (ListServices R n)) = this n
  ∧ ∃ lines, logrus (snd (ListServices R n)) = logrus n ++ lines
             ∧ (length lines ≤ 1)%nat.
Proof.
  unfold ListServices, bind, need_stub, gets.
  destruct (stub (this n));
    [|split; [done|exists []; rewrite app_nil_r; split; [done|simpl; lia]]].
  destruct (rpc_ListServices R) as [e|resp];
    [split; [done|exists []; rewrite app_nil_r; split; [done|simpl; lia]]|].
  destruct (compareLists _ resp) as [|d ds]; simpl.
  - split; [done|]. exists []. rewrite app_nil_r. split; [done|simpl; lia].
  - split; [done|]. eexists [_]. split; [done|]. simpl. lia.
Qed.

(** [Free], once the remote has answered, forgets exactly the ports of
    the services the remote reports freed, whether they were asked
    for or not: neither map holds such a port afterwards, every other
    port reads as before, a nil map stays nil, and nothing is logged.
    The call returns also when a map is nil. *)
Theorem Free_forgets_freed_ports (R : Remote) (n : node)
    (srvs : list ShadowsocksService) (resp : list ProtoService) :
  is_Some (stub (this n)) →
  rpc_Free R (constructProtocolServiceList srvs) = inr resp →
  let freed := constructServiceList resp in
  ∃ n', Free R srvs n
        = (Ret (freed, report (compareLists (constructProtocolServiceList srvs) resp)), n')
    ∧ logrus n' = logrus n
    ∧ conn (this n') = conn (this n) ∧ stub (this n') = stub (this n)
    ∧ (∀ p, opened_at (meta (this n')) p
            = if decide (p ∈ ports freed) then None else opened_at (meta (this n)) p)
    ∧ (∀ p, stat_at (meta (this n')) p
            = if decide (p ∈ ports freed) then None else stat_at (meta (this n)) p)
    ∧ (openedPorts (meta (this n')) = None ↔ openedPorts (meta (this n)) = None)
    ∧ (stats (meta (this n')) = None ↔ stats (meta (this n)) = None).
Proof.
  intros Hs H freed. rewrite (Free_spec R n srvs resp Hs H). fold freed.
  eexists. split; [done|]. simpl.
  split; [done|]. split; [done|]. split; [done|].
  unfold opened_at, stat_at. simpl.
  split; [|split; [|split]].
  - intros p. destruct (openedPorts (meta (this n))) as [o|]; simpl.
    + apply lookup_without.
    + by case_decide.
  - intros p. destruct (stats (meta (this n))) as [t|]; simpl.
    + apply lookup_without.
    + by case_decide.
  - by destruct (openedPorts (meta (this n))).
  - by destruct (stats (meta (this n))).
Qed.

Lemma Free_forgets_freed_ports_witness :
  ∃ n', Free obliging [bob] stocked = (Ret ([bob], None), n')
        ∧ opened_at (meta (this n')) 8389 = None
        ∧ stat_at (meta (this n')) 8389 = None.
Proof.
  assert (Hs : is_Some (stub (this stocked))) by (by eexists).
  destruct (Free_forgets_freed_ports obliging stocked [bob]
              (constructProtocolServiceList [bob]) Hs eq_refl)
    as (n' & Hfree & _ & _ & _ & Ho & Ht & _).
  exists n'. split; [exact Hfree|]. split; [apply (Ho 8389) | apply (Ht 8389)].
Defined.


(** With the map of counters in place, [GetStats] and [SetStats], once
    the remote has answered without error, write every reported counter
    over the local one and keep the counters of the ports the report
    does not mention; the opened ports and the log are not touched. *)
Theorem stats_mirror_takes_reported_counters (R : Remote) (n : node)
    (old : gmap Z Z) (t : option (gmap Z Z)) :
  is_Some (stub (this n)) →
  stats (meta (this n)) = Some old →
  let n' := mkNode (set_meta (mkMeta (openedPorts (meta (this n)))
                                     (Some (entries t ∪ old))) (this n))
                   (logrus n) in
  (rpc_GetStats R = inr t → GetStats R n = (Ret (t, None), n'))
  ∧ (rpc_SetStats R t = None → SetStats R t n = (Ret None, n'))
  ∧ (∀ p v, entries t !! p = Some v → stat_at (meta (this n')) p = Some v)
  ∧ (∀ p, entries t !! p = None → stat_at (meta (this n')) p = old !! p).
Proof.
  intros [c Hc] Hold n'.
  assert (Hset : setStats t (meta (this n))
                 = (Ret tt, mkMeta (openedPorts (meta (this n))) (Some (entries t ∪ old)))).
  { rewrite <- setStats_made. f_equal. destruct (meta (this n)). simpl in *. by subst. }
  split; [|split; [|split]].
  - intros H. unfold GetStats, bind, need_stub, on_meta. by rewrite Hc, H, Hset.
  - intros H. unfold SetStats, bind, need_stub, on_meta. by rewrite Hc, H, Hset.
  - intros p v Hp. unfold stat_at. simpl. by apply lookup_union_Some_l.
  - intros p Hp. unfold stat_at. simpl. by apply lookup_union_r.
Qed.

Lemma stats_mirror_takes_reported_counters_witness :
  ∃ n', GetStats obliging stocked = (Ret (Some {[ 8388 := 1024 ]}, None), n')
        ∧ stat_at (meta (this n')) 8388 = Some 1024
        ∧ stat_at (meta (this n')) 8389 = Some 7.
Proof.
  assert (Hs : is_Some (stub (this stocked))) by (by eexists).
  destruct (stats_mirror_takes_reported_counters obliging stocked {[ 8389 := 7 ]}
              (Some {[ 8388 := 1024 ]}) Hs eq_refl) as (Hget & _ & Hin & Hout).
  eexists. split; [exact (Hget eq_refl)|].
  split; [apply (Hin 8388 1024) | apply (Hout 8389)]; reflexivity.
Defined.

(** With both maps in place, [Allocate], once the remote has answered,
    records every service the remote reports: each reported port then
    reads one of the reported services of that port, with its counter
    at zero also when it had counted before, and every other port
    reads as before. *)
Theorem Allocate_records_returned_ports (R : Remote) (n : node)
    (srvs : list ShadowsocksService) (resp : list ProtoService)
    (o : gmap Z ShadowsocksService) (t : gmap Z Z) :
  is_Some (stub (this n)) →
  meta (this n) = mkMeta (Some o) (Some t) →
  rpc_Allocate R (constructProtocolServiceList srvs) = inr resp →
  let granted := constructServiceList resp in
  ∃ n', Allocate R srvs n
        = (Ret (granted, report (compareLists (constructProtocolServiceList srvs) resp)), n')
    ∧ logrus n' = logrus n
    ∧ (∀ p, p ∈ ports granted →
            (∃ srv, srv ∈ granted ∧ Port srv = p
                    ∧ opened_at (meta (this n')) p = Some srv)
            ∧ stat_at (meta (this n')) p = Some 0)
    ∧ (∀ p, p ∉ ports granted →
            opened_at (meta (this n')) p = o !! p
            ∧ stat_at (meta (this n')) p = t !! p).
Proof.
  intros Hs Hm H granted. rewrite (Allocate_made R n srvs resp o t Hs Hm H).
  fold granted. eexists. split; [done|]. split; [done|].
  unfold opened_at, stat_at. simpl. split.
  - intros p Hp. split; [by apply lookup_merged_in|].
    rewrite lookup_zeroed. by rewrite decide_True.
  - intros p Hp. split; [by apply lookup_merged_out|].
    rewrite lookup_zeroed. by rewrite decide_False.
Qed.

Lemma Allocate_records_returned_ports_witness :
  ∃ n', Allocate obliging [alice] stocked = (Ret ([alice], None), n')
        ∧ stat_at (meta (this n')) 8388 = Some 0
        ∧ stat_at (meta (this n')) 8389 = Some 7.
Proof.
  assert (Hs : is_Some (stub (this stocked))) by (by eexists).
  destruct (Allocate_records_returned_ports obliging stocked [alice]
              (constructProtocolServiceList [alice]) {[ 8389 := bob ]} {[ 8389 := 7 ]}
              Hs eq_refl eq_refl) as (n' & Hcall & _ & Hin & Hout).
  exists n'. split; [exact Hcall|]. split.
  - apply (Hin 8388). vm_compute. left.
  - apply (Hout 8389). vm_compute. intros Hx.
    apply elem_of_cons in Hx as [Hx|Hx]; [discriminate|]. by apply elem_of_nil in Hx.
Defined.

(** With both maps in place, an [Allocate] followed by a [Free] for
    which the remote reports the same services leaves the mirror
    without any of their ports and with every other port as it was
    before the two calls. *)
Theorem Allocate_then_Free_forgets (R R' : Remote) (n : node)
    (srvs srvs' : list ShadowsocksService) (resp : list ProtoService)
    (o : gmap Z ShadowsocksService) (t : gmap Z Z) :
  is_Some (stub (this n)) →
  meta (this n) = mkMeta (Some o) (Some t) →
  rpc_Allocate R (constructProtocolServiceList srvs) = inr resp →
  rpc_Free R' (constructProtocolServiceList srvs') = inr resp →
  ∃ r1 n1 r2 n2,
    Allocate R srvs n = (Ret r1, n1)
    ∧ Free R' srvs' n1 = (Ret r2, n2)
    ∧ meta (this n2) = mkMeta (Some (without (constructServiceList resp) o))
                              (Some (without (constructServiceList resp) t))
    ∧ ∀ p, opened_at (meta (this n2)) p
           = (if decide (p ∈ ports (constructServiceList resp)) then None else o !! p)
           ∧ stat_at (meta (this n2)) p
           = (if decide (p ∈ ports (constructServiceList resp)) then None else t !! p).
Proof.
  intros Hs Hm Ha Hf. rewrite (Allocate_made R n srvs resp o t Hs Hm Ha).
  do 2 eexists. do 2 eexists. split; [reflexivity|].
  rewrite Free_spec with (resp := resp); [|done|done].
  split; [reflexivity|]. simpl.
  rewrite without_merged, without_zeroed. split; [done|].
  intros p. unfold opened_at, stat_at. simpl. by rewrite !lookup_without.
Qed.

Lemma Allocate_then_Free_forgets_witness :
  ∃ r1 n1 r2 n2,
    Allocate obliging [alice] stocked = (Ret r1, n1)
    ∧ Free obliging [alice] n1 = (Ret r2, n2)
    ∧ meta (this n2) = meta (this stocked).
Proof.
  assert (Hs : is_Some (stub (this stocked))) by (by eexists).
  destruct (Allocate_then_Free_forgets obliging obliging stocked [alice] [alice]
              (constructProtocolServiceList [alice]) {[ 8389 := bob ]} {[ 8389 := 7 ]}
              Hs eq_refl eq_refl eq_refl) as (r1 & n1 & r2 & n2 & H1 & H2 & Hm & _).
  exists r1, n1, r2, n2. split; [exact H1|]. split; [exact H2|].
  rewrite Hm. by vm_compute.
Defined.

Lemma perform_keeps_shape n rc :
  conn (this n) = stub (this n) ∧ is_Some (openedPorts (meta (this n))) →
  remoteURL (this (perform n rc)) = remoteURL (this n)
  ∧ token (this (perform n rc)) = token (this n)
  ∧ conn (this (perform n rc)) = stub (this (perform n rc))
  ∧ is_Some (openedPorts (meta (this (perform n rc)))).
Proof.
  destruct rc as [R c]. destruct n as [[url cn st tok [o t]] lg]. simpl.
  intros [-> [g ->]]. destruct c; simpl.
  - unfold Dial. simpl. by destruct (grpc_Dial R _).
  - unfold Close. simpl. by destruct st.
  - unfold Allocate, bind, need_stub. simpl. destruct st; [|done].
    destruct (rpc_Allocate R _) as [e|resp]; [done|].
    unfold on_meta. simpl.
    assert (Ho : is_Some (openedPorts (addPorts (constructServiceList resp)
                                         (mkMeta (Some g) t)).2)).
    { destruct t as [t|]; [by rewrite addPorts_made|].
      destruct (constructServiceList resp) as [|a l]; [done|].
      by rewrite addPorts_nil_stats. }
    destruct (addPorts _ _) as [[[]|f] m']; simpl in *; [|done].
    by destruct (length _ =? 0)%nat.
  - unfold Free, bind, need_stub. simpl. destruct st; [|done].
    destruct (rpc_Free R _) as [e|resp]; [done|].
    unfold on_meta. rewrite removePorts_spec. simpl.
    by destruct (length _ =? 0)%nat.
  - unfold ListServices, bind, need_stub. simpl. destruct st; [|done].
    destruct (rpc_ListServices R) as [e|resp]; [done|]. simpl.
    by destruct (length _ =? 0)%nat.
  - unfold GetStats, bind, need_stub. simpl. destruct st; [|done].
    destruct (rpc_GetStats R) as [e|tr]; [done|].
    unfold on_meta. simpl. destruct t as [t|].
    + by rewrite setStats_made.
    + rewrite setStats_nil_stats by done. by case_decide.
  - unfold SetStats, bind, need_stub. simpl. destruct st; [|done].
    destruct (rpc_SetStats R _) as [e|]; [done|].
    unfold on_meta. simpl. destruct t as [t|].
    + by rewrite setStats_made.
    + rewrite setStats_nil_stats by done. by case_decide.
Qed.

Lemma after_shape (url tok : string) (calls : list (Remote * call)) :
  let s := this (after url tok calls) in
  remoteURL s = url ∧ token s = tok ∧ conn s = stub s
  ∧ is_Some (openedPorts (meta s)).
Proof.
  unfold after. induction calls as [|rc calls IH] using rev_ind.
  - simpl. by repeat apply conj.
  - rewrite foldl_app. simpl in *. destruct IH as (Hu & Ht & Hc & Ho).
    destruct (perform_keeps_shape (foldl perform (mkNode (NewSlave url tok) []) calls)
                rc (conj Hc Ho)) as (Hu' & Ht' & Hc' & Ho').
    rewrite Hu', Ht'. done.
Qed.

(** Whatever calls a slave made by [NewSlave] has been through, with
    whatever answers and also across faults: its address and token are
    the ones it was made with, the connection and the client stub are
    both nil or both the same connection, and the map of opened ports
    is never nil.  [isTokenValid] then says yes exactly when the slave
    was made with the empty token. *)
Theorem slave_keeps_its_shape (url tok : string) (calls : list (Remote * call)) :
  let s := this (after url tok calls) in
  remoteURL s = url ∧ token s = tok ∧ conn s = stub s
  ∧ is_Some (openedPorts (meta s))
  ∧ (isTokenValid s = true ↔ tok = EmptyString).
Proof.
  intros s. destruct (after_shape url tok calls) as (Hu & Ht & Hc & Ho).
  fold s in Hu, Ht, Hc, Ho.
  repeat (split; [done|]).
  unfold isTokenValid. rewrite Ht. destruct tok; simpl; split; done.
Qed.

(** [Dial] and [Close], one after the other.  A [Dial] the channel
    refuses returns the error and leaves the slave as it was.  After a
    [Dial] that went through, connection and stub are the new
    connection and the mirror is untouched; [Close] then returns what
    closing that connection returns and, whatever that is, leaves both
    fields nil and the mirror as it was; a second [Close] and any
    remote operation after that stop with a nil dereference. *)
Theorem Dial_then_Close (R R' : Remote) (n : node) :
  (∀ e, grpc_Dial R (remoteURL (this n)) = inl e → Dial R n = (Ret (Some e), n))
  ∧ (∀ c, grpc_Dial R (remoteURL (this n)) = inr c →
       ∃ n1 n2,
         Dial R n = (Ret None, n1)
         ∧ conn (this n1) = Some c ∧ stub (this n1) = Some c
         ∧ meta (this n1) = meta (this n) ∧ logrus n1 = logrus n
         ∧ Close R' n1 = (Ret (conn_Close R' c), n2)
         ∧ conn (this n2) = None ∧ stub (this n2) = None
         ∧ meta (this n2) = meta (this n) ∧ logrus n2 = logrus n
         ∧ Close R' n2 = (Panic NilDereference, n2)
         ∧ (∀ srvs, Allocate R' srvs n2 = (Panic NilDereference, n2))
         ∧ ListServices R' n2 = (Panic NilDereference, n2)).
Proof.
  split.
  - intros e H. unfold Dial. by rewrite H.
  - intros c H. unfold Dial. rewrite H. eexists _, _. split; [reflexivity|]. simpl.
    do 4 (split; [reflexivity|]).
    unfold Close. simpl. split; [reflexivity|]. simpl.
    do 4 (split; [reflexivity|]). split; [reflexivity|].
    split; [|reflexivity]. intros srvs. reflexivity.
Qed.

Lemma Dial_then_Close_witness :
  ∃ n1 n2, Dial obliging fresh = (Ret None, n1)
           ∧ Close obliging n1 = (Ret None, n2)
           ∧ Close obliging n2 = (Panic NilDereference, n2).
Proof.
  destruct (proj2 (Dial_then_Close obliging obliging fresh) (mkConn "node-1:6001") eq_refl)
    as (n1 & n2 & Hd & _ & _ & _ & _ & Hc & _ & _ & _ & _ & Hc2 & _).
  exists n1, n2. repeat apply conj; assumption.
Defined.

Lemma addPorts_keyed l : ∀ m, keyed_by_port m → keyed_by_port (addPorts l m).2.
Proof.
  induction l as [|a l IH]; intros m Hk; [done|].
  destruct m as [[o|] [t|]].
  - unfold addPorts in *. cbn. apply IH.
    intros o' p srv [= <-] Hp. apply lookup_insert_Some in Hp as [[<- <-]|[_ Hp]]; [done|].
    by apply (Hk o p srv).
  - rewrite addPorts_nil_stats. simpl.
    intros o' p srv [= <-] Hp. apply lookup_insert_Some in Hp as [[<- <-]|[_ Hp]]; [done|].
    by apply (Hk o p srv).
  - by rewrite addPorts_nil_openedPorts.
  - by rewrite addPorts_nil_openedPorts.
Qed.

Lemma removePorts_keyed l m : keyed_by_port m → keyed_by_port (removePorts l m).2.
Proof.
  intros Hk. rewrite removePorts_spec. simpl. intros o' p srv Ho Hp. simpl in Ho.
  destruct (openedPorts m) as [o|] eqn:Hom; [|done]. simpl in Ho.
  injection Ho as <-. rewrite lookup_without in Hp. case_decide; [done|].
  by apply (Hk o p srv).
Qed.

Lemma setStats_keeps_openedPorts t m : openedPorts (setStats t m).2 = openedPorts m.
Proof.
  destruct m as [o [old|]].
  - by rewrite setStats_made.
  - rewrite setStats_nil_stats by done. done.
Qed.

Lemma perform_keyed n rc :
  keyed_by_port (meta (this n)) → keyed_by_port (meta (this (perform n rc))).
Proof.
  destruct rc as [R c]. destruct n as [[url cn st tok m] lg]. simpl. intros Hk.
  destruct c; simpl.
  - unfold Dial. simpl. by destruct (grpc_Dial R _).
  - unfold Close. simpl. by destruct cn.
  - unfold Allocate, bind, need_stub. simpl. destruct st; [|done].
    destruct (rpc_Allocate R _) as [e|resp]; [done|].
    unfold on_meta. simpl.
    pose proof (addPorts_keyed (constructServiceList resp) m Hk) as Hk'.
    destruct (addPorts _ m) as [[[]|f] m']; simpl in *; [|done].
    by destruct (length _ =? 0)%nat.
  - unfold Free, bind, need_stub. simpl. destruct st; [|done].
    destruct (rpc_Free R _) as [e|resp]; [done|].
    unfold on_meta. simpl.
    pose proof (removePorts_keyed (constructServiceList resp) m Hk) as Hk'.
    destruct (removePorts _ m) as [[[]|f] m']; simpl in *; [|done].
    by destruct (length _ =? 0)%nat.
  - unfold ListServices, bind, need_stub. simpl. destruct st; [|done].
    destruct (rpc_ListServices R) as [e|resp]; [done|]. simpl.
    by destruct (length _ =? 0)%nat.
  - unfold GetStats, bind, need_stub. simpl. destruct st; [|done].
    destruct (rpc_GetStats R) as [e|tr]; [done|].
    unfold on_meta. simpl.
    pose proof (setStats_keeps_openedPorts tr m) as Ho.
    destruct (setStats tr m) as [[[]|f] m']; simpl in *;
      intros o p srv Hom; rewrite Ho in Hom; by apply Hk.
  - unfold SetStats, bind, need_stub. simpl. destruct st; [|done].
    destruct (rpc_SetStats R _) as [e|]; [done|].
    unfold on_meta. simpl.
    pose proof (setStats_keeps_openedPorts traffics m) as Ho.
    destruct (setStats traffics m) as [[[]|f] m']; simpl in *;
      intros o p srv Hom; rewrite Ho in Hom; by apply Hk.
Qed.

Lemma after_keyed url tok calls : keyed_by_port (meta (this (after url tok calls))).
Proof.
  unfold after. induction calls as [|rc calls IH] using rev_ind.
  - intros o p srv [= <-] Hp. by rewrite lookup_empty in Hp.
  - rewrite foldl_app. simpl. by apply perform_keyed.
Qed.

(** The mirror lists each port once.  Whatever calls a slave made by
    [NewSlave] has been through, also across faults, every opened port
    holds a service of that very port, so the list the mirror gives
    out names no port twice, and it holds exactly the services found
    under their own port. *)
Theorem mirror_lists_each_port_once (url tok : string) (calls : list (Remote * call)) :
  let m := meta (this (after url tok calls)) in
  (∀ p srv, opened_at m p = Some srv → Port srv = p)
  ∧ NoDup (ports (meta_ListServices m))
  ∧ (∀ srv, srv ∈ meta_ListServices m ↔ opened_at m (Port srv) = Some srv).
Proof.
  intros m. pose proof (after_keyed url tok calls) as Hk. fold m in Hk.
  destruct (after_shape url tok calls) as (_ & _ & _ & [o Ho]). fold m in Ho.
  unfold opened_at, meta_ListServices, ports. rewrite Ho. simpl.
  assert (Hkey : ∀ p srv, o !! p = Some srv → Port srv = p)
    by (intros p srv; by apply Hk).
  split; [done|]. split.
  - rewrite <- list_fmap_compose.
    rewrite (Forall_fmap_ext_1 (Port ∘ snd) fst).
    + apply NoDup_fst_map_to_list.
    + apply Forall_forall. intros [p srv] Hin.
      apply elem_of_map_to_list in Hin. simpl. by apply Hkey.
  - intros srv. rewrite list_elem_of_fmap. split.
    + intros ([p srv'] & -> & Hin). apply elem_of_map_to_list in Hin. simpl.
      by rewrite (Hkey p srv' Hin).
    + intros Hin. exists (Port srv, srv). split; [done|]. by apply elem_of_map_to_list.
Qed.

End SlaveMore.

(** ** Further properties of the supervisor *)

Module SupervisorMore.
Import Shadowsocks Fixtures.Supervisor SupervisorFacts.

Ltac reduce_all :=
  cbn [fst snd heap next_loc cmds next_cmd servers mgr_path udpPort files procs
       next_pid trace with_heap with_cmds with_servers with_files with_procs
       with_trace Host Port Password Method Timeout stat options runtime
       set_stat set_options set_runtime r_path r_cmd r_logw r_config
       MPTCP TCPFastOpen Auth NameServer PidFile ManagerAddress Interface
       FireWall Verbose cmd_Args cmd_Stdout cmd_Process] in *.

Lemma opts_started w v :
  opts (started w v)
  = "-c" :: config_file w (Port v) :: BuildArgs (prepared w v).
Proof.
  unfold opts, started. reduce.
  assert (H : nonempty (config_file w (Port v)) = true)
    by (by apply path_Join_nonempty).
  by rewrite H.
Qed.

Lemma exec_launch_wp E s w v :
  heap w !! s = Some v →
  wp (exec E s)
     (fun o w' =>
        servers w' = servers w ∧ next_loc w' = next_loc w
        ∧ match o with
          | Ret None =>
              permitted E w v
              ∧ heap w' = <[s := started w v]> (heap w)
              ∧ cmds w' = <[next_cmd w := mkCmd (command_line w v)
                                            (Some (log_file w (Port v)))
                                            (Some (next_pid w))]> (cmds w)
              ∧ procs w' = {[next_pid w]} ∪ procs w
              ∧ {[workdir w (Port v); config_file w (Port v); log_file w (Port v)]}
                  ∪ files w ⊆ files w'
              ∧ (os_WriteFile E (pid_file w (Port v)) = true →
                 pid_file w (Port v) ∈ files w')
          | Ret (Some e) =>
              refused E w v e ∧ procs w' = procs w ∧ files w ⊆ files w'
          | Panic _ => False
          end) w.
Proof.
  intros H. unfold_ops. wp_run E.
  all: split; [reflexivity|]; split; [reflexivity|].
  all: pose proof (path_Join_nonempty (path_Join (mgr_path w) (Sprint (Port v)))
                     "ss_server.json" eq_refl) as Hne.
  all: unfold refused, permitted, command_line, started, prepared, log_file,
         config_file, pid_file, workdir, opts in *; reduce_all;
       rewrite ?Hne in *; rewrite ?insert_insert_eq.
  all: try (split; [repeat apply conj; assumption|]).
  all: try (split; [reflexivity|]; split; [reflexivity|]; split; [reflexivity|];
            split; [set_solver|]).
  all: try (split;
    [ first [ left; split; [reflexivity|assumption]
            | right; left; repeat apply conj; first [reflexivity|assumption]
            | right; right; left; repeat apply conj; first [reflexivity|assumption]
            | right; right; right; repeat apply conj; first [reflexivity|assumption] ]
    | split; [reflexivity|set_solver] ]).
  - intros _. set_solver.
  - congruence.
  - intros _. exfalso.
    match goal with
    | Hc : _ && _ = false |- _ =>
        apply andb_false_iff in Hc as [Hc|Hc];
        [ rewrite path_Join_nonempty in Hc; done
        | apply bool_decide_eq_false in Hc; apply Hc; by eexists ]
    end.
Qed.


Lemma Add_cases E s w v :
  heap w !! s = Some v → wp (Add E s) (Add_outcome E s w v) w.
Proof.
  intros H. unfold Add, Add_outcome.
  apply wp_bind. eapply wp_load; [exact H|]. apply wp_bind, wp_gets. cbv beta iota.
  destruct (servers w !! Port v) as [s0|] eqn:Hfree; [by apply wp_ret|].
  destruct (Valid v) eqn:Hval; simpl; [|by apply wp_ret].
  apply wp_bind. eapply wp_wand; [by apply exec_launch_wp|].
  intros [[e|]|f] w' (Hs & Hn & Hrest); [| |done].
  - apply wp_ret. destruct Hrest as (? & ? & ?). done.
  - destruct Hrest as (Hperm & Hh & Hc & Hp & Hf & Hpid).
    apply wp_bind. eapply wp_load; [rewrite Hh; apply lookup_insert_eq|].
    wp_run E. rewrite Hs. done.
Qed.

Lemma Add_result E s w v o w' :
  heap w !! s = Some v → Add E s w = (o, w') → Add_outcome E s w v o w'.
Proof. intros H. apply wp_elim. by apply Add_cases. Qed.


Lemma permitted_not_refused E w v e : permitted E w v → refused E w v e → False.
Proof.
  intros (H1 & H2 & H3 & H4) [(_ & H)|[(_ & _ & H)|[(_ & _ & _ & H)|(_ & _ & _ & _ & H)]]];
    congruence.
Qed.

(** [Add] on a pointer to a struct always returns, and it returns nil
    exactly when the port is free, the configuration is valid and the
    operating system lets the four steps of the launch through: making
    the working directory, writing the configuration, creating the log
    and starting the command.  A taken port gives [ErrServerExists] and
    an invalid configuration [ErrInvalidServer], the world being as it
    was in both cases; otherwise the error is that of the first step
    refused.  Whatever the error, the table and the set of running
    processes are as before. *)
Theorem Add_succeeds_exactly_when (E : Env) (s : positive) (w : world) (v : Server) :
  heap w !! s = Some v →
  (∃ r, (Add E s w).1 = Ret r)
  ∧ ((Add E s w).1 = Ret None
     ↔ servers w !! Port v = None ∧ Valid v = true ∧ permitted E w v)
  ∧ (is_Some (servers w !! Port v) → Add E s w = (Ret (Some ErrServerExists), w))
  ∧ (servers w !! Port v = None → Valid v = false →
     Add E s w = (Ret (Some ErrInvalidServer), w))
  ∧ (∀ e, (Add E s w).1 = Ret (Some e) →
          servers (Add E s w).2 = servers w ∧ procs (Add E s w).2 = procs w
          ∧ (e = ErrServerExists ∨ e = ErrInvalidServer ∨ refused E w v e)).
Proof.
  intros H. destruct (Add E s w) as [o w'] eqn:Hadd.
  pose proof (Add_result E s w v o w' H Hadd) as Hp. unfold Add_outcome in Hp. simpl.
  destruct (servers w !! Port v) as [s0|] eqn:Hfree.
  { destruct Hp as [-> ->]. split; [by eexists|]. split; [split; [done|by intros [? _]]|].
    split; [done|]. split; [done|]. intros e [= <-]. auto. }
  destruct (Valid v) eqn:Hval.
  2:{ destruct Hp as [-> ->]. split; [by eexists|].
      split; [split; [done|by intros (_ & ? & _)]|].
      split; [by intros [? ?]|]. split; [done|]. intros e [= <-]. auto. }
  destruct o as [[e|]|f]; [| |done].
  - destruct Hp as (Hr & Hpr & _ & Hs). split; [by eexists|].
    split; [split; [done|]|].
    { intros (_ & _ & Hperm). by destruct (permitted_not_refused E w v e). }
    split; [by intros [? ?]|]. split; [done|]. intros e' [= <-]. auto.
  - destruct Hp as (Hperm & _). split; [by eexists|]. split; [done|].
    split; [by intros [? ?]|]. split; [done|]. done.
Qed.

Lemma Add_succeeds_exactly_when_witness :
  (Add friendly 2%positive one_server).1 = Ret None
  ∧ Add friendly 3%positive initial = (Ret (Some ErrInvalidServer), initial).
Proof.
  split.
  - refine (proj2 (proj1 (proj2 (Add_succeeds_exactly_when friendly 2%positive
                                   one_server (config 9000) _))) _).
    + reflexivity.
    + by vm_compute.
  - refine (proj1 (proj2 (proj2 (proj2 (Add_succeeds_exactly_when friendly 3%positive
                                          initial rival _)))) _ _);
      reflexivity.
Defined.


Lemma Alive_spec s w v c cmd pid :
  heap w !! s = Some v → r_cmd (runtime v) = Some c →
  cmds w !! c = Some cmd → cmd_Process cmd = Some pid →
  (Alive s w).1 = Ret (bool_decide (pid ∈ procs w)).
Proof.
  intros Hv Hc Hcmd Hpid.
  unfold Alive, Process, process_Alive, bind, load, gets.
  by rewrite Hv, Hc, Hcmd, Hpid.
Qed.

Lemma BuildArgs_prepared w v :
  BuildArgs (prepared w v)
  = flag (MPTCP (options v)) ["--mptcp"]
    ++ flag (TCPFastOpen (options v)) ["--fast-open"]
    ++ flag (Auth (options v)) ["-A"]
    ++ flag (nonempty (NameServer (options v))) ["-d"; NameServer (options v)]
    ++ ["--manager-address"; "127.0.0.1:" +:+ Sprint (udpPort w)]
    ++ flag (FireWall (options v)) ["--firewall"]
    ++ ["-v"].
Proof. reflexivity. Qed.

(** A successful [Add] followed by [GetServer] of the same port: the
    caller gets a new struct whose five configuration fields and whose
    statistics are those handed to [Add], whose log handle is nil, and
    on which [Alive] says yes. *)
Theorem Add_then_GetServer (E : Env) (home : string) (udp : Z)
    (history : list (Env * action)) (s : positive) (v : Server) (w1 : world) :
  let w := reached home udp history in
  heap w !! s = Some v →
  Add E s w = (Ret None, w1) →
  ∃ c w2 snap,
    GetServer (Port v) w1 = (Ret (inr c), w2)
    ∧ c ≠ s
    ∧ heap w2 !! c = Some snap
    ∧ Host snap = Host v ∧ Port snap = Port v ∧ Password snap = Password v
    ∧ Method snap = Method v ∧ Timeout snap = Timeout v
    ∧ GetStat snap = GetStat v
    ∧ r_logw (runtime snap) = None
    ∧ (Alive c w2).1 = Ret true.
Proof.
  intros w H Hadd. pose proof (Add_result E s w v _ _ H Hadd) as Hp.
  unfold Add_outcome in Hp.
  destruct (servers w !! Port v); [by destruct Hp|].
  destruct (Valid v); [|by destruct Hp].
  destruct Hp as (_ & Hh & Hn & Hc & Hpr & _ & _ & Hs).
  assert (Hcell : heap w1 !! s = Some (started w v))
    by (rewrite Hh; apply lookup_insert_eq).
  assert (Hentry : servers w1 !! Port v = Some s)
    by (rewrite Hs; apply lookup_insert_eq).
  rewrite (GetServer_present w1 (Port v) s _ Hentry Hcell).
  eexists _, _, _. split; [reflexivity|]. reduce.
  assert (Hne : next_loc w1 ≠ s).
  { destruct (reached_sound home udp history) as (Hb & _).
    pose proof (bounded_cell w s Hb (ex_intro _ v H)) as Hlt. fold w in Hn. lia. }
  split; [done|]. split; [apply lookup_insert_eq|].
  repeat (split; [reflexivity|]).
  erewrite Alive_spec; [| reduce; apply lookup_insert_eq | reflexivity
                        | reduce; rewrite Hc; apply lookup_insert_eq | reflexivity].
  reduce. rewrite Hpr. f_equal. apply bool_decide_eq_true_2. set_solver.
Qed.

Lemma Add_then_GetServer_witness :
  ∃ c w2 snap,
    GetServer 9000 two_servers = (Ret (inr c), w2)
    ∧ heap w2 !! c = Some snap
    ∧ Password snap = "password"%string
    ∧ (Alive c w2).1 = Ret true.
Proof.
  assert (Hcfg : heap (reached "/root" 6001 adding_one) !! 2%positive
                 = Some (config 9000)) by (vm_compute; reflexivity).
  assert (Hadd : Add friendly 2%positive (reached "/root" 6001 adding_one)
                 = (Ret None, two_servers)) by (vm_compute; reflexivity).
  destruct (Add_then_GetServer friendly "/root" 6001 adding_one 2%positive
              (config 9000) two_servers Hcfg Hadd)
    as (c & w2 & snap & Hget & _ & Hcell & _ & _ & Hpw & _ & _ & _ & _ & Halive).
  exists c, w2, snap. repeat apply conj; assumption.
Defined.

Lemma Add_success E s w v w1 :
  heap w !! s = Some v → Add E s w = (Ret None, w1) →
  servers w !! Port v = None ∧ Valid v = true
  ∧ permitted E w v
  ∧ heap w1 = <[s := started w v]> (heap w)
  ∧ next_loc w1 = next_loc w
  ∧ cmds w1 = <[next_cmd w := mkCmd (command_line w v) (Some (log_file w (Port v)))
                                    (Some (next_pid w))]> (cmds w)
  ∧ procs w1 = {[next_pid w]} ∪ procs w
  ∧ {[workdir w (Port v); config_file w (Port v); log_file w (Port v)]}
      ∪ files w ⊆ files w1
  ∧ (os_WriteFile E (pid_file w (Port v)) = true → pid_file w (Port v) ∈ files w1)
  ∧ servers w1 = <[Port v := s]> (servers w).
Proof.
  intros H Hadd. pose proof (Add_result E s w v _ _ H Hadd) as Hp.
  unfold Add_outcome in Hp.
  destruct (servers w !! Port v); [by destruct Hp|].
  destruct (Valid v); [|by destruct Hp].
  by repeat (split; [done|]).
Qed.

Lemma Add_launched E s w v w1 :
  heap w !! s = Some v → Add E s w = (Ret None, w1) →
  servers w1 !! Port v = Some s ∧ launched w1 s (started w v) (next_pid w).
Proof.
  intros H Hadd.
  destruct (Add_success E s w v w1 H Hadd)
    as (_ & _ & _ & Hh & _ & Hc & _ & _ & _ & Hs).
  split; [rewrite Hs; apply lookup_insert_eq|].
  split; [rewrite Hh; apply lookup_insert_eq|].
  split; [apply path_Join_nonempty, Sprint_nonempty|].
  split; [by eexists|].
  eexists _, _. split; [reflexivity|]. split; [rewrite Hc; apply lookup_insert_eq|done].
Qed.

(** What a successful [Add] has launched.  The struct handed to [Add]
    then records the working directory of its port under the manager's
    path, the configuration file and the open log in it, and a command
    whose process is running.  The command line is [ss-server -c] and
    the configuration file, then the feature flags of the options, the
    address of the manager's own UDP socket and [-v]; the password and
    the other fields of the configuration are not on it.  Directory,
    configuration file and log exist afterwards, and so does the pid
    file when it could be written. *)
Theorem launch_command_line (E : Env) (s : positive) (w w1 : world) (v : Server) :
  heap w !! s = Some v →
  Add E s w = (Ret None, w1) →
  let port := Port v in
  ∃ v' c cmd pid,
    heap w1 !! s = Some v'
    ∧ r_path (runtime v') = workdir w port
    ∧ r_config (runtime v') = config_file w port
    ∧ r_logw (runtime v') = Some (log_file w port)
    ∧ PidFile (options v') = pid_file w port
    ∧ r_cmd (runtime v') = Some c
    ∧ cmds w1 !! c = Some cmd
    ∧ cmd_Args cmd
      = ["ss-server"; "-c"; config_file w port]
        ++ flag (MPTCP (options v)) ["--mptcp"]
        ++ flag (TCPFastOpen (options v)) ["--fast-open"]
        ++ flag (Auth (options v)) ["-A"]
        ++ flag (nonempty (NameServer (options v))) ["-d"; NameServer (options v)]
        ++ ["--manager-address"; "127.0.0.1:" +:+ Sprint (udpPort w)]
        ++ flag (FireWall (options v)) ["--firewall"]
        ++ ["-v"]
    ∧ os_Start E (cmd_Args cmd) = true
    ∧ cmd_Stdout cmd = Some (log_file w port)
    ∧ cmd_Process cmd = Some pid
    ∧ pid ∈ procs w1
    ∧ workdir w port ∈ files w1
    ∧ config_file w port ∈ files w1
    ∧ log_file w port ∈ files w1
    ∧ (os_WriteFile E (pid_file w port) = true → pid_file w port ∈ files w1).
Proof.
  intros H Hadd port.
  destruct (Add_success E s w v w1 H Hadd)
    as (_ & _ & Hperm & Hh & _ & Hc & Hp & Hf & Hpid & _).
  exists (started w v), (next_cmd w), 
    (mkCmd (command_line w v) (Some (log_file w (Port v))) (Some (next_pid w))),
    (next_pid w).
  split; [rewrite Hh; apply lookup_insert_eq|].
  do 5 (split; [reflexivity|]).
  split; [rewrite Hc; apply lookup_insert_eq|].
  assert (Hargs : command_line w v
      = ["ss-server"; "-c"; config_file w port]
        ++ flag (MPTCP (options v)) ["--mptcp"]
        ++ flag (TCPFastOpen (options v)) ["--fast-open"]
        ++ flag (Auth (options v)) ["-A"]
        ++ flag (nonempty (NameServer (options v))) ["-d"; NameServer (options v)]
        ++ ["--manager-address"; "127.0.0.1:" +:+ Sprint (udpPort w)]
        ++ flag (FireWall (options v)) ["--firewall"]
        ++ ["-v"]).
  { unfold command_line. rewrite opts_started, BuildArgs_prepared. reflexivity. }
  reduce. split; [exact Hargs|].
  split; [apply Hperm|]. split; [done|]. split; [done|].
  split; [rewrite Hp; set_solver|].
  repeat apply conj; try set_solver.
Qed.

Lemma launch_command_line_witness :
  ∃ v' c cmd pid,
    heap two_servers !! 2%positive = Some v'
    ∧ r_cmd (runtime v') = Some c
    ∧ cmds two_servers !! c = Some cmd
    ∧ cmd_Args cmd
      = ["ss-server"; "-c"; "/root/.shadowsocks_manager/9000/ss_server.json";
         "--manager-address"; "127.0.0.1:6001"; "-v"]%string
    ∧ cmd_Process cmd = Some pid
    ∧ pid ∈ procs two_servers.
Proof.
  assert (Hcfg : heap one_server !! 2%positive = Some (config 9000))
    by (vm_compute; reflexivity).
  assert (Hadd : Add friendly 2%positive one_server = (Ret None, two_servers))
    by (vm_compute; reflexivity).
  destruct (launch_command_line friendly 2%positive one_server two_servers
              (config 9000) Hcfg Hadd)
    as (v' & c & cmd & pid & Hv & _ & _ & _ & _ & Hc & Hcmd & Hargs & _ & _ & Hpid
        & Hin & _).
  exists v', c, cmd, pid.
  split; [exact Hv|]. split; [exact Hc|]. split; [exact Hcmd|].
  split; [rewrite Hargs; vm_compute; reflexivity|].
  split; [exact Hpid|exact Hin].
Defined.

(** A successful [Add] undone by [Remove] of the same port: [Remove]
    returns nil, the table is the one from before the [Add], the
    process [Add] had started is no longer running, [GetServer] of the
    port answers [ErrServerNotFound], and the working directory is
    emptied when its removal succeeds. *)
Theorem Add_then_Remove (E E' : Env) (s : positive) (w w1 : world) (v : Server) :
  heap w !! s = Some v →
  Add E s w = (Ret None, w1) →
  ∃ w2,
    Remove E' (Port v) w1 = (Ret None, w2)
    ∧ servers w2 = servers w
    ∧ heap w2 = heap w1
    ∧ procs w2 = procs w ∖ {[next_pid w]}
    ∧ GetServer (Port v) w2 = (Ret (inl ErrServerNotFound), w2)
    ∧ (os_RemoveAll E' (workdir w (Port v)) = true →
       ∀ f, f ∈ files w2 → under (workdir w (Port v)) f = false).
Proof.
  intros H Hadd.
  destruct (Add_success E s w v w1 H Hadd)
    as (Hfree & _ & _ & _ & _ & _ & Hp & _ & _ & Hs).
  destruct (Add_launched E s w v w1 H Hadd) as (Hentry & Hl).
  pose proof (Remove_present_wp E' w1 (Port v) s _ _ Hentry Hl) as Hr.
  unfold wp in Hr. destruct (Remove E' (Port v) w1) as [o w2]. simpl in Hr.
  destruct Hr as (-> & Hs2 & Hh2 & Hp2 & _ & Hf2).
  exists w2. split; [done|].
  assert (Hsame : servers w2 = servers w).
  { rewrite Hs2, Hs. by apply delete_insert_id. }
  split; [done|]. split; [done|].
  split; [rewrite Hp2, Hp; set_solver|].
  split; [apply GetServer_absent; by rewrite Hsame|].
  intros Hok. change (r_path (runtime (started w v))) with (workdir w (Port v)) in Hf2.
  by rewrite Hok in Hf2.
Qed.

Lemma Add_then_Remove_witness :
  ∃ w2, Remove sticky 9000 two_servers = (Ret None, w2)
        ∧ servers w2 = servers one_server.
Proof.
  assert (Hcfg : heap one_server !! 2%positive = Some (config 9000))
    by (vm_compute; reflexivity).
  assert (Hadd : Add friendly 2%positive one_server = (Ret None, two_servers))
    by (vm_compute; reflexivity).
  destruct (Add_then_Remove friendly sticky 2%positive one_server two_servers
              (config 9000) Hcfg Hadd) as (w2 & Hr & Hs & _).
  exists w2. split; assumption.
Defined.

(** *** The table only holds valid, launched servers *)

Lemma search_method_elem_of m ms : search_method m ms = true ↔ m ∈ ms.
Proof.
  induction ms as [|a ms IH]; simpl.
  - split; [done|]. intros H. by apply elem_of_nil in H.
  - destruct (String.eqb m a) eqn:Heq.
    + apply String.eqb_eq in Heq as ->. split; [by left|done].
    + apply String.eqb_neq in Heq. rewrite IH. split; [by right|].
      intros H. apply elem_of_cons in H as [?|?]; done.
Qed.

Lemma Valid_spec v :
  Valid v = true
  ↔ Host v ≠ EmptyString ∧ 0 < Port v < 65536
    ∧ (8 ≤ String.length (Password v))%nat
    ∧ Method v ∈ methods ∧ 0 < Timeout v.
Proof.
  unfold Valid, ValidateEncryptMethod.
  rewrite !andb_true_iff, !Z.ltb_lt, Nat.leb_le, search_method_elem_of.
  assert (Hh : nonempty (Host v) = true ↔ Host v ≠ EmptyString)
    by (unfold nonempty; by destruct (Host v)).
  rewrite Hh. tauto.
Qed.

Lemma Valid_same_config v v' : same_config v v' → Valid v' = Valid v.
Proof.
  intros (Hh & Hp & Hpw & Hm & Ht & _). unfold Valid. by rewrite Hh, Hp, Hpw, Hm, Ht.
Qed.

Lemma valid_kept w w' :
  heap_bounded w → valid_entries w → kept w w' → valid_entries w'.
Proof.
  intros Hb Hv (_ & Hf & _ & _ & _ & _ & Hs & _) port s Hps.
  apply Hs in Hps. destruct (Hv port s Hps) as (v & Hcell & Hval).
  exists v. split; [|done]. rewrite Hf; [done|].
  apply bounded_cell; [done|by eexists].
Qed.

Lemma kept_Remove E w port : sound w → kept w (Remove E port w).2.
Proof.
  intros Hs. destruct (servers w !! port) as [s|] eqn:Hp.
  2:{ rewrite (Remove_absent E w port Hp). apply kept_refl. }
  destruct Hs as (Hb & Hcb & He).
  destruct (He port s Hp) as (v & pid & Hl & _).
  pose proof (Remove_launched_frame E w port s v pid Hp Hl) as H. unfold wp in H.
  destruct H as (Hh & Hn & Hc & Hnc & Hnp & Hsrv & Hm).
  unfold kept. rewrite Hh, Hn, Hc, Hnc, Hsrv, Hm.
  split; [lia|]. split; [done|]. split; [unfold heap_bounded; by rewrite Hh, Hn|].
  split; [lia|]. split; [done|].
  split; [unfold cmds_bounded; by rewrite Hc, Hnc, Hnp|].
  split; [|done].
  intros q s' Hq. by apply lookup_delete_Some in Hq as [_ Hq].
Qed.

Lemma valid_Add E s w : valid_entries w → valid_entries (Add E s w).2.
Proof.
  intros Hv. destruct (heap w !! s) as [v|] eqn:Hcell.
  2:{ unfold Add, bind, load. by rewrite Hcell. }
  destruct (Add E s w) as [o w'] eqn:Hadd. simpl.
  pose proof (Add_result E s w v o w' Hcell Hadd) as Hp.
  pose proof (wp_elim _ _ _ _ _ (Add_effect E s w v Hcell) Hadd) as He.
  simpl in He.
  destruct He as [-> | (Hfree & v' & Hh & Hc & _ & _ & _ & Hsrv)]; [done|].
  unfold Add_outcome in Hp. rewrite Hfree in Hp.
  destruct (Valid v) eqn:Hval.
  2:{ destruct Hp as [_ ->]. done. }
  assert (Hval' : Valid v' = true) by (by rewrite (Valid_same_config v v')).
  assert (Hold : ∀ port s', servers w !! port = Some s' →
                 ∃ x, heap w' !! s' = Some x ∧ Valid x = true).
  { intros port s' Hps. rewrite Hh. destruct (decide (s' = s)) as [->|Hne].
    - exists v'. by rewrite lookup_insert_eq.
    - rewrite lookup_insert_ne by done. exact (Hv port s' Hps). }
  destruct Hsrv as [Hsrv | (Hsrv & _)]; intros port s' Hps; rewrite Hsrv in Hps.
  - by apply Hold in Hps.
  - apply lookup_insert_Some in Hps as [[<- <-]|[_ Hps]].
    + exists v'. split; [|done]. rewrite Hh. apply lookup_insert_eq.
    + by apply Hold in Hps.
Qed.

Lemma valid_StatRecvHandler E data w :
  table_valid w → valid_entries w → valid_entries (StatRecvHandler E data w).2.
Proof.
  intros Ht Hv.
  pose proof (StatRecvHandler_frame E data w Ht) as H. unfold wp in H.
  destruct H as (_ & _ & _ & _ & Hsrv & _ & Hh).
  intros port s Hps. rewrite Hsrv in Hps.
  destruct (Hv port s Hps) as (v & Hcell & Hval).
  destruct Hh as [-> | (q & s0 & old & st & _ & Hold & ->)]; [by exists v|].
  destruct (decide (s = s0)) as [->|Hne].
  - exists (set_stat st old). rewrite lookup_insert_eq. split; [done|].
    assert (old = v) as -> by congruence. exact Hval.
  - exists v. by rewrite lookup_insert_ne.
Qed.

Lemma reached_snoc home port history ea :
  reached home port (history ++ [ea]) = step (reached home port history) ea.
Proof. unfold reached. by rewrite foldl_app. Qed.

Lemma reached_valid home port history : valid_entries (reached home port history).
Proof.
  induction history as [|[E a] history IH] using rev_ind.
  - intros k x Hx. simpl in Hx. by rewrite lookup_empty in Hx.
  - rewrite reached_snoc.
    pose proof (reached_sound home port history) as Hs.
    set (w := reached home port history) in *.
    assert (Hb : heap_bounded w) by apply Hs.
    destruct a; simpl.
    + apply (valid_kept w); [done|done|apply kept_alloc].
    + by apply valid_Add.
    + apply (valid_kept w); [done|done|by apply kept_Remove].
    + apply (valid_kept w); [done|done|by apply kept_ListServers].
    + apply (valid_kept w); [done|done|apply kept_GetServer].
    + apply (valid_kept w); [done|done|by apply kept_monitor_round].
    + apply valid_StatRecvHandler; [by apply sound_table_valid|done].
    + apply (valid_kept w); [done|done|apply kept_dies].
Qed.

Lemma kept_mgr_path w w' : kept w w' → mgr_path w' = mgr_path w.
Proof. intros H. apply H. Qed.

Lemma step_mgr_path w ea : sound w → mgr_path (step w ea) = mgr_path w.
Proof.
  intros Hs. destruct ea as [E a]. destruct a; unfold step.
  - apply kept_mgr_path, kept_alloc.
  - destruct (heap w !! s) as [v|] eqn:Hv.
    + pose proof (Add_effect E s w v Hv) as H. unfold wp in H.
      destruct H as [-> | (_ & v' & _ & _ & _ & _ & Hm & _)]; done.
    + unfold Add, bind, load. by rewrite Hv.
  - by apply kept_mgr_path, kept_Remove.
  - by apply kept_mgr_path, kept_ListServers.
  - apply kept_mgr_path, kept_GetServer.
  - by apply kept_mgr_path, kept_monitor_round.
  - pose proof (StatRecvHandler_frame E data w (sound_table_valid w Hs)) as H.
    unfold wp in H. apply H.
  - done.
Qed.

Lemma reached_mgr_path home udp history :
  mgr_path (reached home udp history) = path_Join home ".shadowsocks_manager".
Proof.
  induction history as [|ea history IH] using rev_ind; [done|].
  rewrite reached_snoc, step_mgr_path; [done|apply reached_sound].
Qed.

Lemma reached_port_range home udp history port s :
  servers (reached home udp history) !! port = Some s → 0 < port < 65536.
Proof.
  intros Hps.
  destruct (reached_sound home udp history) as (_ & _ & He).
  destruct (He port s Hps) as (v & _ & (Hcell & _) & HP & _).
  destruct (reached_valid home udp history port s Hps) as (v0 & Hcell0 & Hval).
  assert (v0 = v) as -> by congruence.
  apply Valid_spec in Hval. rewrite <- HP. apply Hval.
Qed.

(** The invariant of the table.  Whatever interface calls, monitor
    rounds, packets and process deaths a manager made by [NewManager]
    has been through (its callers not writing to a struct once they
    have added it), every entry of its table points to a struct of
    that very port, so no struct sits under two ports, whose
    configuration passes [Valid]: a host that is not empty, a port
    from 1 to 65535, a password of eight bytes or more, a listed method
    and a positive timeout; and the struct records the working
    directory of its port, which is the directory named after the port
    under [.shadowsocks_manager] in the home directory the manager was
    made with, an open log and a command that was started. *)
Theorem table_invariant (home : string) (udp : Z) (history : list (Env * action))
    (port : Z) (s : positive) :
  let w := reached home udp history in
  servers w !! port = Some s →
  (∃ v c cmd pid log,
     heap w !! s = Some v
     ∧ Port v = port
     ∧ Valid v = true
     ∧ Host v ≠ EmptyString ∧ 0 < port < 65536
     ∧ (8 ≤ String.length (Password v))%nat
     ∧ Method v ∈ methods ∧ 0 < Timeout v
     ∧ r_path (runtime v) = workdir w port
     ∧ workdir w port
       = path_Join (path_Join home ".shadowsocks_manager") (Sprint port)
     ∧ r_logw (runtime v) = Some log
     ∧ r_cmd (runtime v) = Some c
     ∧ cmds w !! c = Some cmd
     ∧ cmd_Process cmd = Some pid
     ∧ pid < next_pid w)
  ∧ ∀ port', servers w !! port' = Some s → port' = port.
Proof.
  intros w Hps.
  destruct (reached_sound home udp history) as (Hb & Hcb & He). fold w in Hb, Hcb, He.
  destruct (He port s Hps)
    as (v & pid & (Hcell & _ & [log Hlog] & c & cmd & Hc & Hcmd & Hpid) & HP & Hdir).
  destruct (reached_valid home udp history port s Hps) as (v0 & Hcell0 & Hval).
  fold w in Hcell0. assert (v0 = v) as -> by congruence.
  pose proof (proj1 (Valid_spec v) Hval) as (Hh & Hpt & Hpw & Hm & Ht).
  split.
  - exists v, c, cmd, pid, log. rewrite HP in Hpt.
    assert (Hwd : workdir w port
                  = path_Join (path_Join home ".shadowsocks_manager") (Sprint port))
      by (unfold workdir, w; by rewrite reached_mgr_path).
    repeat (split; [done|]). by apply (Hcb c cmd Hcmd).
  - intros port' Hps'.
    destruct (He port' s Hps') as (v' & _ & (Hcell' & _) & HP' & _).
    congruence.
Qed.

Lemma table_invariant_witness :
  ∃ v, heap two_servers !! 2%positive = Some v ∧ Port v = 9000 ∧ Valid v = true.
Proof.
  assert (Hps : servers (reached "/root" 6001 adding_two) !! 9000 = Some 2%positive)
    by (vm_compute; reflexivity).
  destruct (table_invariant "/root" 6001 adding_two 9000 2%positive Hps)
    as ((v & _ & _ & _ & _ & Hcell & HP & Hval & _) & _).
  exists v. repeat apply conj; assumption.
Defined.

(** *** Snapshots *)

Lemma clone_all_fresh entries : ∀ acc w snap w',
  (∀ q c, acc !! q = Some c → (c < next_loc w)%positive) →
  (∀ q1 q2 c, acc !! q1 = Some c → acc !! q2 = Some c → q1 = q2) →
  clone_all entries acc w = (Ret snap, w') →
  (∀ q c, snap !! q = Some c → (c < next_loc w')%positive)
  ∧ (∀ q1 q2 c, snap !! q1 = Some c → snap !! q2 = Some c → q1 = q2).
Proof.
  induction entries as [|[p s] rest IH]; intros acc w snap w' Hlt Hinj Hrun.
  - simpl in Hrun. by injection Hrun as <- <-.
  - simpl in Hrun. unfold clone, bind, load in Hrun.
    destruct (heap w !! s) as [v|]; [|done].
    unfold alloc in Hrun. cbn beta iota in Hrun.
    eapply IH; [| |exact Hrun].
    + intros q c Hq. reduce. apply lookup_insert_Some in Hq as [[_ <-]|[_ Hq]]; [lia|].
      apply Hlt in Hq. lia.
    + intros q1 q2 c H1 H2.
      apply lookup_insert_Some in H1 as [[<- <-]|[Hn1 H1]];
        apply lookup_insert_Some in H2 as [[<- Heq]|[Hn2 H2]]; try done.
      * apply Hlt in H2. lia.
      * subst c. apply Hlt in H1. lia.
      * by apply (Hinj q1 q2 c).
Qed.

(** [ListServers] in any state the manager can reach: it returns, with
    exactly the ports of the table, and for each port a struct of its
    own, new and different from that of every other port, holding the
    clone of the entry (same configuration, same command, the
    statistics read at that moment, no log handle).  The table, the
    structs that existed, the commands, the processes, the files and
    the log are as before. *)
Theorem ListServers_snapshot (home : string) (udp : Z) (history : list (Env * action)) :
  let w := reached home udp history in
  ∃ snap w1,
    ListServers w = (Ret snap, w1)
    ∧ dom snap = dom (servers w)
    ∧ (∀ port s, servers w !! port = Some s →
         ∃ c v, snap !! port = Some c ∧ c ≠ s
                ∧ heap w !! c = None
                ∧ heap w !! s = Some v
                ∧ heap w1 !! c = Some (clone_value v))
    ∧ (∀ p1 p2 c, snap !! p1 = Some c → snap !! p2 = Some c → p1 = p2)
    ∧ servers w1 = servers w
    ∧ (∀ l, is_Some (heap w !! l) → heap w1 !! l = heap w !! l)
    ∧ cmds w1 = cmds w ∧ procs w1 = procs w ∧ files w1 = files w
    ∧ trace w1 = trace w.
Proof.
  intros w.
  pose proof (reached_sound home udp history) as Hs. fold w in Hs.
  assert (Hb : heap_bounded w) by apply Hs.
  destruct (ListServers_spec w Hb (sound_table_valid w Hs))
    as (snap & w1 & Hrun & Hsrv & _ & Hold & Hnone & Hsome).
  exists snap, w1. split; [done|]. split.
  { apply set_eq. intros q. rewrite !elem_of_dom.
    destruct (servers w !! q) as [s|] eqn:Hq.
    - destruct (Hsome q s Hq) as (c & v & -> & _). split; by eexists.
    - rewrite (Hnone q Hq). split; intros [? ?]; done. }
  split.
  { intros port s Hps. destruct (Hsome port s Hps) as (c & v & Hc & Hv & Hcl & Hge).
    exists c, v. split; [done|].
    assert (Hlt : (s < next_loc w)%positive)
      by (apply bounded_cell; [done|by eexists]).
    split; [lia|]. split; [|done].
    destruct (heap w !! c) as [x|] eqn:Hx; [|done].
    pose proof (Hb c x Hx) as Hc'. simpl in Hc'. lia. }
  split.
  { unfold ListServers, bind, gets in Hrun.
    eapply (clone_all_fresh _ ∅ w snap w1); [| |exact Hrun].
    - intros q c Hq. by rewrite lookup_empty in Hq.
    - intros q1 q2 c Hq. by rewrite lookup_empty in Hq. }
  split; [done|]. split.
  { intros l Hl. apply Hold. by apply bounded_cell. }
  destruct (clone_all_heap_only (map_to_list (servers w)) ∅ w) as (h & n & Hw).
  assert (Hw1 : w1 = with_heap h n w).
  { rewrite <- Hw. unfold ListServers, bind, gets in Hrun. by rewrite Hrun. }
  by rewrite Hw1.
Qed.

(** *** Decimal ports: what [fmt.Sprint] prints, [strconv.Atoi] reads back *)

Lemma digit_of_pretty_N_char (d : N) :
  (d < 10)%N → digit_of (pretty_N_char d) = Some (Z.of_N d).
Proof.
  intros H.
  assert (Hd : (d = 0 ∨ d = 1 ∨ d = 2 ∨ d = 3 ∨ d = 4 ∨ d = 5 ∨ d = 6 ∨ d = 7
               ∨ d = 8 ∨ d = 9)%N) by lia.
  destruct Hd as [->|[->|[->|[->|[->|[->|[->|[->|[->| ->]]]]]]]]]; reflexivity.
Qed.

Lemma parse_pretty_N_go (x : N) :
  ∃ m : Z, ∀ acc s,
    parse_digits acc (pretty_N_go x s) = parse_digits (acc * m + Z.of_N x) s.
Proof.
  induction (N.lt_wf_0 x) as [x _ IH].
  destruct (decide (x = 0%N)) as [->|Hx].
  - exists 1. intros acc s. rewrite pretty_N_go_0. f_equal. lia.
  - destruct (IH (x `div` 10)%N) as [m Hm]; [apply N.div_lt; lia|].
    exists (10 * m). intros acc s. rewrite pretty_N_go_step by lia.
    rewrite Hm. simpl. rewrite digit_of_pretty_N_char by (apply N.mod_lt; lia).
    f_equal.
    pose proof (N.div_mod x 10 ltac:(lia)) as Hdm. lia.
Qed.

Lemma digit_is_no_sign c d :
  digit_of c = Some d → Ascii.eqb c "-" = false ∧ Ascii.eqb c "+" = false.
Proof.
  intros H. split.
  - destruct (Ascii.eqb c "-") eqn:Heq; [|done].
    apply Ascii.eqb_eq in Heq. subst c. discriminate.
  - destruct (Ascii.eqb c "+") eqn:Heq; [|done].
    apply Ascii.eqb_eq in Heq. subst c. discriminate.
Qed.

Lemma Atoi_digits s n :
  s ≠ EmptyString → parse_digits 0 s = Some n → Atoi s = Z.min max_int n.
Proof.
  destruct s as [|c r]; [done|]. intros _ H.
  assert (Hd : ∃ d, digit_of c = Some d).
  { simpl in H. destruct (digit_of c) as [d|]; [by eexists|done]. }
  destruct Hd as [d Hd]. destruct (digit_is_no_sign c d Hd) as [Hm Hp].
  unfold Atoi. rewrite Hm, Hp. by rewrite H.
Qed.

Lemma Atoi_Sprint n : 0 ≤ n ≤ max_int → Atoi (Sprint n) = n.
Proof.
  intros Hn. destruct n as [|p|p]; [reflexivity| |lia].
  assert (Hs : Sprint (Z.pos p) = pretty_N_go (N.pos p) "") by reflexivity.
  destruct (parse_pretty_N_go (N.pos p)) as [m Hm].
  rewrite (Atoi_digits (Sprint (Z.pos p)) (Z.pos p)).
  - lia.
  - pose proof (Sprint_nonempty (Z.pos p)) as Hne.
    intros Heq. rewrite Heq in Hne. done.
  - rewrite Hs, Hm. simpl. f_equal.
Qed.

(** *** Telemetry, end to end *)

Lemma accepted_functional E w data s t s' t' :
  accepted E w data s t → accepted E w data s' t' → s = s' ∧ t = t'.
Proof.
  intros (_ & k & r & Hk & _ & _ & Hs) (_ & k' & r' & Hk' & _ & _ & Hs').
  rewrite Hk in Hk'. injection Hk' as <- <- <-. split; congruence.
Qed.

Lemma accepted_store E w data s t w' s'  :
  servers w' = servers w → accepted E w data s' t → s' = s → accepted E w' data s t.
Proof.
  intros Hsrv (Htag & k & r & Hk & Hp & Ht & Hs) <-.
  split; [done|]. exists k, r. by rewrite Hsrv.
Qed.

Lemma StatRecvHandler_accepted E home udp history data s t :
  let w := reached home udp history in
  (5 ≤ len data)%nat → (len data ≤ length (arr data))%nat →
  accepted E w data s t →
  ∃ old, heap w !! s = Some old
         ∧ StatRecvHandler E data w
           = (Ret tt,
              with_trace (trace w ++ [Logged DebugLevel (StatBodyIs (body_of data))])
                (with_heap (<[s := set_stat (Some (mkStat t)) old]> (heap w))
                           (next_loc w) w)).
Proof.
  intros w H5 Hcap Hacc.
  pose proof (sound_table_valid w (reached_sound home udp history)) as Hvalid.
  clearbody w.
  destruct Hacc as (Htag & k & r & Hk & Hp & Ht & Hs).
  destruct (table_valid_cell w _ s Hvalid Hs) as [old Hold].
  exists old. split; [done|].
  unfold StatRecvHandler. rewrite slice_to_ok by lia. rewrite slice_from_ok by lia.
  fold (body_of data). rewrite Htag, bool_decide_eq_true_2 by done. simpl.
  unfold bind, log, emit, modify. rewrite Hk. simpl.
  assert (Hneg : (Atoi k <? 0) || (t <? 0) = false).
  { apply orb_false_iff. split; apply Z.ltb_ge; lia. }
  rewrite Hneg. unfold gets, load, store. simpl. rewrite Hs. simpl. rewrite Hold.
  change (heap (with_trace (trace w ++ [Logged DebugLevel (StatBodyIs (body_of data))]) w))
    with (heap w).
  rewrite Hold. reflexivity.
Qed.

(** A report keyed by a port as [ss-server] prints it reaches the
    entry of that port.  In any state the manager can reach, a packet
    with the tag [stat] whose first decoded entry has for key the
    decimal rendering of a port in the table, and a count that is not
    negative, is handled without fault: the struct of that port gets
    the count, nothing else is written, and a [GetServer] of the port
    right after reads that count. *)
Theorem report_keyed_by_port_reaches_entry (E : Env) (home : string) (udp : Z)
    (history : list (Env * action)) (data : slice) (port : Z) (s : positive)
    (traffic : Z) (rest : list (string * Z)) :
  let w := reached home udp history in
  servers w !! port = Some s →
  (5 ≤ len data)%nat → (len data ≤ length (arr data))%nat →
  take 4 (arr data) = stat_tag →
  json_Unmarshal E (body_of data) = Some ((Sprint port, traffic) :: rest) →
  0 ≤ traffic →
  ∃ old w1 c w2 snap,
    heap w !! s = Some old
    ∧ StatRecvHandler E data w = (Ret tt, w1)
    ∧ heap w1 = <[s := set_stat (Some (mkStat traffic)) old]> (heap w)
    ∧ servers w1 = servers w ∧ cmds w1 = cmds w
    ∧ procs w1 = procs w ∧ files w1 = files w
    ∧ GetServer port w1 = (Ret (inr c), w2)
    ∧ heap w2 !! c = Some snap
    ∧ GetStat snap = mkStat traffic.
Proof.
  intros w Hps H5 Hcap Htag Hdec Ht.
  pose proof (reached_port_range home udp history port s Hps) as Hrange.
  assert (Hatoi : Atoi (Sprint port) = port)
    by (apply Atoi_Sprint; unfold max_int; lia).
  assert (Hacc : accepted E w data s traffic).
  { split; [done|]. exists (Sprint port), rest. rewrite Hatoi.
    rewrite int32_small by lia. repeat apply conj; try done. lia. }
  destruct (StatRecvHandler_accepted E home udp history data s traffic H5 Hcap Hacc)
    as (old & Hold & Hrun).
  fold w in Hold, Hrun.
  eexists old, _, _, _, _. split; [done|]. split; [exact Hrun|]. reduce.
  do 5 (split; [reflexivity|]).
  split.
  { apply GetServer_present with (s := s); [exact Hps|]. reduce.
    apply lookup_insert_eq. }
  reduce. split; [apply lookup_insert_eq|]. reflexivity.
Qed.

Lemma report_keyed_by_port_reaches_entry_witness :
  ∃ old w1 c w2 snap,
    heap two_servers !! 1%positive = Some old
    ∧ StatRecvHandler friendly stat_8388_1024 two_servers = (Ret tt, w1)
    ∧ GetServer 8388 w1 = (Ret (inr c), w2)
    ∧ heap w2 !! c = Some snap
    ∧ GetStat snap = mkStat 1024.
Proof.
  assert (Hps : servers (reached "/root" 6001 adding_two) !! 8388 = Some 1%positive)
    by (vm_compute; reflexivity).
  assert (H5 : (5 ≤ len stat_8388_1024)%nat) by (vm_compute; lia).
  assert (Hcap : (len stat_8388_1024 ≤ length (arr stat_8388_1024))%nat)
    by (vm_compute; lia).
  assert (Htag : take 4 (arr stat_8388_1024) = stat_tag) by (vm_compute; reflexivity).
  assert (Hdec : json_Unmarshal friendly (body_of stat_8388_1024)
                 = Some [(Sprint 8388, 1024)]) by (vm_compute; reflexivity).
  assert (Ht : 0 ≤ 1024) by lia.
  destruct (report_keyed_by_port_reaches_entry friendly "/root" 6001 adding_two
              stat_8388_1024 8388 1%positive 1024 [] Hps H5 Hcap Htag Hdec Ht)
    as (old & w1 & c & w2 & snap & Hold & Hrun & _ & _ & _ & _ & _ & Hget & Hc & Hst).
  exists old, w1, c, w2, snap. repeat apply conj; assumption.
Defined.

(** Of two accepted reports for the same entry the later one wins: in
    any state the manager can reach, after both packets have been
    handled the struct holds the count of the second, and the heap is
    the one the second packet alone would have left. *)
Theorem later_report_wins (E1 E2 : Env) (home : string) (udp : Z)
    (history : list (Env * action)) (d1 d2 : slice) (s : positive) (t1 t2 : Z) :
  let w := reached home udp history in
  (5 ≤ len d1)%nat → (len d1 ≤ length (arr d1))%nat →
  (5 ≤ len d2)%nat → (len d2 ≤ length (arr d2))%nat →
  accepted E1 w d1 s t1 → accepted E2 w d2 s t2 →
  ∃ old w1 w2,
    heap w !! s = Some old
    ∧ StatRecvHandler E1 d1 w = (Ret tt, w1)
    ∧ StatRecvHandler E2 d2 w1 = (Ret tt, w2)
    ∧ heap w2 = <[s := set_stat (Some (mkStat t2)) old]> (heap w)
    ∧ heap w2 = heap (StatRecvHandler E2 d2 w).2
    ∧ servers w2 = servers w.
Proof.
  intros w H51 Hc1 H52 Hc2 Ha1 Ha2.
  destruct (StatRecvHandler_accepted E1 home udp history d1 s t1 H51 Hc1 Ha1)
    as (old & Hold & Hrun1). fold w in Hold, Hrun1.
  destruct (StatRecvHandler_accepted E2 home udp history d2 s t2 H52 Hc2 Ha2)
    as (old' & Hold' & Hrun2). fold w in Hold', Hrun2.
  assert (old' = old) as -> by congruence.
  set (w1 := (StatRecvHandler E1 d1 w).2).
  assert (Hw1 : w1 = reached home udp (history ++ [(E1, Packet d1)]))
    by (by rewrite reached_snoc).
  assert (Ha2' : accepted E2 w1 d2 s t2).
  { apply (accepted_store E2 w d2 s t2 w1 s); [|done|done].
    unfold w1. by rewrite Hrun1. }
  rewrite Hw1 in Ha2'.
  destruct (StatRecvHandler_accepted E2 home udp (history ++ [(E1, Packet d1)])
              d2 s t2 H52 Hc2 Ha2') as (old1 & Hold1 & Hrun12).
  rewrite <- Hw1 in Hold1, Hrun12.
  assert (Hh1 : heap w1 = <[s := set_stat (Some (mkStat t1)) old]> (heap w))
    by (unfold w1; by rewrite Hrun1).
  assert (old1 = set_stat (Some (mkStat t1)) old) as ->.
  { rewrite Hh1, lookup_insert_eq in Hold1. congruence. }
  eexists old, w1, _. split; [done|].
  split; [unfold w1; by rewrite Hrun1|]. split; [exact Hrun12|].
  reduce. rewrite Hrun2. reduce. rewrite Hh1, insert_insert_eq.
  split; [done|]. split; [done|]. unfold w1. by rewrite Hrun1.
Qed.

Lemma later_report_wins_witness :
  ∃ old w1 w2,
    heap two_servers !! 1%positive = Some old
    ∧ StatRecvHandler friendly stat_two_keys two_servers = (Ret tt, w1)
    ∧ StatRecvHandler friendly stat_8388_1024 w1 = (Ret tt, w2)
    ∧ heap w2 = <[1%positive := set_stat (Some (mkStat 1024)) old]> (heap two_servers).
Proof.
  assert (Ha1 : accepted friendly (reached "/root" 6001 adding_two) stat_two_keys
                  1%positive 7).
  { split; [vm_compute; reflexivity|].
    exists "8388"%string, [("9000"%string, 9)].
    repeat apply conj; vm_compute; first [reflexivity | discriminate]. }
  assert (Ha2 : accepted friendly (reached "/root" 6001 adding_two) stat_8388_1024
                  1%positive 1024).
  { split; [vm_compute; reflexivity|].
    exists "8388"%string, [].
    repeat apply conj; vm_compute; first [reflexivity | discriminate]. }
  assert (H51 : (5 ≤ len stat_two_keys)%nat) by (vm_compute; lia).
  assert (Hc1 : (len stat_two_keys ≤ length (arr stat_two_keys))%nat)
    by (vm_compute; lia).
  assert (H52 : (5 ≤ len stat_8388_1024)%nat) by (vm_compute; lia).
  assert (Hc2 : (len stat_8388_1024 ≤ length (arr stat_8388_1024))%nat)
    by (vm_compute; lia).
  destruct (later_report_wins friendly friendly "/root" 6001 adding_two
              stat_two_keys stat_8388_1024 1%positive 7 1024 H51 Hc1 H52 Hc2 Ha1 Ha2)
    as (old & w1 & w2 & Hold & H1 & H2 & Hh & _).
  exists old, w1, w2. repeat apply conj; assumption.
Defined.

(** *** What the handler and the receive loop never do *)

Lemma StatRecvHandler_touches E data w :
  table_valid w →
  wp (StatRecvHandler E data)
     (fun _ w' =>
        servers w' = servers w ∧ cmds w' = cmds w
        ∧ procs w' = procs w ∧ files w' = files w
        ∧ (∃ lines, trace w' = trace w ++ lines)
        ∧ (heap w' = heap w
           ∨ ∃ port s old st, servers w !! port = Some s ∧ heap w !! s = Some old
                              ∧ heap w' = <[s := set_stat st old]> (heap w))) w.
Proof.
  intros Hv. unfold StatRecvHandler.
  assert (Hquiet : servers w = servers w ∧ cmds w = cmds w
        ∧ procs w = procs w ∧ files w = files w
        ∧ (∃ lines, trace w = trace w ++ lines)
        ∧ (heap w = heap w
           ∨ ∃ port s old st, servers w !! port = Some s ∧ heap w !! s = Some old
                              ∧ heap w = <[s := set_stat st old]> (heap w))).
  { repeat (split; [reflexivity|]). split; [exists []; by rewrite app_nil_r|by left]. }
  assert (Hlog : ∀ pre e,
    servers (with_trace ((trace w ++ pre) ++ [e]) w) = servers w
    ∧ cmds (with_trace ((trace w ++ pre) ++ [e]) w) = cmds w
    ∧ procs (with_trace ((trace w ++ pre) ++ [e]) w) = procs w
    ∧ files (with_trace ((trace w ++ pre) ++ [e]) w) = files w
    ∧ (∃ lines, trace (with_trace ((trace w ++ pre) ++ [e]) w) = trace w ++ lines)
    ∧ (heap (with_trace ((trace w ++ pre) ++ [e]) w) = heap w
       ∨ ∃ port s old st, servers w !! port = Some s ∧ heap w !! s = Some old
            ∧ heap (with_trace ((trace w ++ pre) ++ [e]) w)
              = <[s := set_stat st old]> (heap w))).
  { intros pre e. repeat (split; [reflexivity|]).
    split; [|by left]. reduce. rewrite <- app_assoc. by eexists. }
  destruct (slice_to 4 data) as [cmd|f]; [|by apply wp_panic].
  destruct (negb (bool_decide (cmd = stat_tag))).
  { apply wp_emit. specialize (Hlog [] (Logged WarnLevel (UnrecognizedCommand cmd))).
    by rewrite app_nil_r in Hlog. }
  destruct (slice_from 5 data) as [rest|f]; [|by apply wp_panic].
  apply wp_bind, wp_emit. cbv beta iota.
  destruct (json_Unmarshal E (TrimSpace rest)) as [st|];
    [|apply wp_emit; reduce; apply (Hlog [_])].
  destruct (match st with
            | [] => (-1, -1)
            | (portS, trafficS) :: _ => (Atoi portS, trafficS)
            end) as [port traffic].
  destruct ((port <? 0) || (traffic <? 0));
    [apply wp_emit; reduce; apply (Hlog [_])|].
  apply wp_bind, wp_gets. reduce.
  destruct (servers w !! int32 port) as [s|] eqn:Hs;
    [|apply wp_emit; reduce; apply (Hlog [_])].
  destruct (table_valid_cell w _ s Hv Hs) as [old Hold].
  apply wp_bind. eapply wp_load; [reduce; exact Hold|].
  eapply wp_store; [reduce; exact Hold|].
  reduce. repeat (split; [reflexivity|]). split; [by eexists|].
  right. by eexists (int32 port), s, old, _.
Qed.

(** Whatever bytes arrive, also those on which the handler faults: in
    any state the manager can reach the handler leaves the table, the
    commands, the processes and the files as they are and only adds to
    the log; no struct appears or disappears, each keeps everything
    but its statistics, only the struct of a table entry can change,
    and at most one does. *)
Theorem telemetry_only_writes_statistics (E : Env) (home : string) (udp : Z)
    (history : list (Env * action)) (data : slice) :
  let w := reached home udp history in
  let w' := (StatRecvHandler E data w).2 in
  servers w' = servers w ∧ cmds w' = cmds w
  ∧ procs w' = procs w ∧ files w' = files w
  ∧ (∃ lines, trace w' = trace w ++ lines)
  ∧ (∀ l, heap w' !! l = None ↔ heap w !! l = None)
  ∧ (∀ l v, heap w !! l = Some v → ∃ st, heap w' !! l = Some (set_stat st v))
  ∧ (∀ l, (∀ port, servers w !! port ≠ Some l) → heap w' !! l = heap w !! l)
  ∧ (∀ l1 l2, heap w' !! l1 ≠ heap w !! l1 → heap w' !! l2 ≠ heap w !! l2 → l1 = l2).
Proof.
  intros w w'.
  pose proof (StatRecvHandler_touches E data w
                (sound_table_valid w (reached_sound home udp history))) as H.
  unfold wp in H. fold w' in H. clearbody w w'.
  destruct H as (Hs & Hc & Hp & Hf & Ht & Hh).
  do 5 (split; [done|]).
  assert (Hid : ∀ v, set_stat (stat v) v = v) by (by intros []).
  destruct Hh as [-> | (port & s & old & st & Hps & Hold & ->)].
  - split; [done|]. split; [intros l v Hl; exists (stat v); by rewrite Hid|].
    split; [done|]. intros l1 l2 H1. done.
  - split; [|split; [|split]].
    + intros l. destruct (decide (l = s)) as [->|Hne].
      * rewrite lookup_insert_eq, Hold. done.
      * by rewrite lookup_insert_ne.
    + intros l v Hl. destruct (decide (l = s)) as [->|Hne].
      * exists st. rewrite lookup_insert_eq. congruence.
      * exists (stat v). by rewrite lookup_insert_ne, Hid.
    + intros l Hl. rewrite lookup_insert_ne; [done|]. intros ->. by apply (Hl port).
    + intros l1 l2 H1 H2.
      destruct (decide (l1 = s)) as [->|Hn1]; [|by rewrite lookup_insert_ne in H1].
      destruct (decide (l2 = s)) as [->|Hn2]; [done|by rewrite lookup_insert_ne in H2].
Qed.

Lemma StatRecvHandler_result E w data :
  table_valid w →
  (4 ≤ length (arr data))%nat → (len data ≤ length (arr data))%nat →
  (StatRecvHandler E data w).1
  = if bool_decide (take 4 (arr data) = stat_tag) && (len data <? 5)%nat
    then Panic SliceBounds else Ret tt.
Proof.
  intros Hv H4 Hcap.
  destruct (len data <? 5)%nat eqn:Hlen.
  - apply Nat.ltb_lt in Hlen. unfold StatRecvHandler. rewrite slice_to_ok by done.
    destruct (bool_decide (take 4 (arr data) = stat_tag)); simpl; [|done].
    unfold slice_from. by rewrite (proj2 (Nat.leb_gt _ _) Hlen).
  - apply Nat.ltb_ge in Hlen. rewrite andb_false_r.
    by destruct (StatRecvHandler_handled E w data Hv Hlen Hcap) as (w' & -> & _).
Qed.

Lemma length_landed buf dgram : length (landed buf dgram) = length buf.
Proof.
  unfold landed. rewrite length_app, length_take, length_drop. lia.
Qed.

(** What stops the receive loop.  With the buffer of 1024 bytes the
    loop reads into, in any state the manager can reach, one turn of
    the loop faults in exactly two cases: the datagram is empty, or it
    has at most five bytes and the first four bytes of the buffer then
    read [stat], be they of this datagram or left by earlier ones.
    Every other datagram is handled to the end and leaves the buffer
    with the datagram at its front. *)
Theorem receive_faults_exactly_when (E : Env) (home : string) (udp : Z)
    (history : list (Env * action)) (buf dgram : list byte) :
  let w := reached home udp history in
  length buf = 1024%nat →
  let n := Nat.min (length dgram) (length buf) in
  ((∃ f, (receive E buf dgram w).1 = Panic f)
   ↔ n = 0%nat ∨ ((n ≤ 5)%nat ∧ take 4 (landed buf dgram) = stat_tag))
  ∧ (∀ b, (receive E buf dgram w).1 = Ret b →
          b = landed buf dgram ∧ length b = 1024%nat).
Proof.
  intros w Hbuf n.
  pose proof (sound_table_valid w (reached_sound home udp history)) as Hv.
  clearbody w.
  unfold receive. fold (landed buf dgram). fold n.
  destruct n as [|m] eqn:Hn.
  { split; [|done]. split; [by left|by eexists]. }
  pose proof (length_landed buf dgram) as Hlen.
  assert (Hm : (S m ≤ length buf)%nat) by lia.
  pose proof (StatRecvHandler_result E w (mkSlice (landed buf dgram) m) Hv) as Hr.
  simpl in Hr. rewrite Hlen, Hbuf in Hr.
  specialize (Hr ltac:(lia) ltac:(lia)).
  unfold bind. destruct (StatRecvHandler E _ w) as [o w'] eqn:Hrun. simpl in Hr.
  subst o. destruct (bool_decide (take 4 (landed buf dgram) = stat_tag)) eqn:Htag;
    destruct (m <? 5)%nat eqn:Hm5; simpl.
  - apply bool_decide_eq_true in Htag. apply Nat.ltb_lt in Hm5.
    split; [|done]. split; [intros _; right; split; [lia|done]|by eexists].
  - apply Nat.ltb_ge in Hm5.
    split; [|intros b [= <-]; split; [done|lia]].
    split; [by intros [f ?]|]. intros [?|[? _]]; [done|lia].
  - apply bool_decide_eq_false in Htag.
    split; [|intros b [= <-]; split; [done|lia]].
    split; [by intros [f ?]|]. intros [?|[_ ?]]; done.
  - apply bool_decide_eq_false in Htag.
    split; [|intros b [= <-]; split; [done|lia]].
    split; [by intros [f ?]|]. intros [?|[_ ?]]; done.
Qed.

Lemma receive_faults_exactly_when_witness :
  ∃ f, (receive friendly empty_buffer (arr stat_bare) two_servers).1 = Panic f.
Proof.
  assert (Hbuf : length empty_buffer = 1024%nat) by (vm_compute; reflexivity).
  apply (proj2 (proj1 (receive_faults_exactly_when friendly "/root" 6001 adding_two
                         empty_buffer (arr stat_bare) Hbuf))).
  right. split; [vm_compute; lia | vm_compute; reflexivity].
Defined.

(** *** The monitor *)

Lemma wp_conj {S A} (m : M S A) (Q1 Q2 : outcome A → S → Prop) s :
  wp m Q1 s → wp m Q2 s → wp m (fun o s' => Q1 o s' ∧ Q2 o s') s.
Proof. unfold wp. auto. Qed.

Lemma wp_Alive_known s b (Q : outcome bool → world → Prop) w :
  (Alive s w).1 = Ret b → Q (Ret b) w → wp (Alive s) Q w.
Proof. intros H HQ. unfold wp. by rewrite Alive_pure, H. Qed.

Lemma monitor_one_alive E c w :
  (Alive c w).1 = Ret true → monitor_one E c w = (Ret tt, w).
Proof.
  intros H. unfold monitor_one, bind.
  pose proof (Alive_pure c w) as Hp. destruct (Alive c w) as [o w'].
  simpl in *. by subst.
Qed.

Lemma permitted_clone E w w' v :
  mgr_path w' = mgr_path w → udpPort w' = udpPort w →
  permitted E w' (clone_value v) ↔ permitted E w v.
Proof.
  intros Hm Hu. unfold permitted, command_line. rewrite !opts_started.
  unfold prepared, config_file, log_file, pid_file, workdir. rewrite Hm, Hu.
  reflexivity.
Qed.

(** What the loop body does with a struct whose process is dead. *)
Lemma monitor_one_dead E c w v :
  heap w !! c = Some v →
  (Alive c w).1 = Ret false →
  wp (monitor_one E c)
     (fun o w' =>
        o = Ret tt ∧ udpPort w' = udpPort w
        ∧ ((permitted E w v ∧ servers w' = servers w
            ∧ procs w' = {[next_pid w]} ∪ procs w)
           ∨ (¬ permitted E w v ∧ servers w' = delete (Port v) (servers w)
              ∧ procs w' = procs w))) w.
Proof.
  intros Hv Hdead. unfold monitor_one.
  apply wp_bind. apply (wp_Alive_known c false); [done|]. cbv beta iota.
  apply wp_bind.
  eapply wp_wand;
    [apply wp_conj; [by apply exec_launch_wp | by apply exec_full_wp]|].
  intros o w' ((Hs & Hn & Hl) & (r & v' & -> & Hh & Hc & _ & _ & _ & Hu & _)).
  assert (HP : Port v' = Port v) by apply Hc.
  assert (Hcell : heap w' !! c = Some v') by (rewrite Hh; apply lookup_insert_eq).
  destruct r as [e|].
  2:{ apply wp_ret. destruct Hl as (Hperm & _ & _ & Hp & _).
      split; [done|]. split; [done|]. left. done. }
  destruct Hl as (Href & Hp & _).
  assert (Hnot : ¬ permitted E w v)
    by (intros Hperm; by apply (permitted_not_refused E w v e)).
  unfold_ops. wp_run E.
  all: reduce; split; [done|]; split; [done|]; right.
  all: rewrite HP, Hs, Hp; done.
Qed.

Lemma monitor_one_dead_run E c w v :
  heap w !! c = Some v →
  (Alive c w).1 = Ret false →
  ∃ w', monitor_one E c w = (Ret tt, w')
        ∧ udpPort w' = udpPort w
        ∧ ((permitted E w v ∧ servers w' = servers w
            ∧ procs w' = {[next_pid w]} ∪ procs w)
           ∨ (¬ permitted E w v ∧ servers w' = delete (Port v) (servers w)
              ∧ procs w' = procs w))
        ∧ next_loc w' = next_loc w
        ∧ (∀ l, l ≠ c → heap w' !! l = heap w !! l)
        ∧ grown w w'
        ∧ (∀ port s, servers w' !! port = Some s → servers w !! port = Some s)
        ∧ mgr_path w' = mgr_path w.
Proof.
  intros Hv Hdead.
  pose proof (monitor_one_dead E c w v Hv Hdead) as H1.
  pose proof (monitor_one_wp E c w) as H2. unfold wp in H1, H2.
  destruct (monitor_one E c w) as [o w']. simpl in *.
  destruct H1 as (-> & Hu & Hcase). destruct H2 as (Hn & Hh & _ & Hg & Hs & Hm).
  exists w'. repeat (split; [done|]). done.
Qed.

Lemma ListServers_facts w :
  sound w →
  ∃ snap w1 h n,
    ListServers w = (Ret snap, w1)
    ∧ w1 = with_heap h n w
    ∧ NoDup (map_to_list snap).*2
    ∧ (∀ l, is_Some (heap w !! l) → heap w1 !! l = heap w !! l)
    ∧ (∀ q c, snap !! q = Some c →
         ∃ s v, servers w !! q = Some s ∧ heap w !! s = Some v
                ∧ heap w1 !! c = Some (clone_value v)).
Proof.
  intros Hs. assert (Hb : heap_bounded w) by apply Hs.
  destruct (ListServers_spec w Hb (sound_table_valid w Hs))
    as (snap & w1 & Hrun & Hsrv & _ & Hold & Hnone & Hsome).
  destruct (clone_all_heap_only (map_to_list (servers w)) ∅ w) as (h & n & Hw).
  exists snap, w1, h, n. split; [done|]. split.
  { rewrite <- Hw. unfold ListServers, bind, gets in Hrun. by rewrite Hrun. }
  split.
  { apply NoDup_fmap_2_strong; [|apply NoDup_map_to_list].
    intros [q1 c1] [q2 c2] H1 H2 Heq. simpl in Heq. subst c2.
    apply elem_of_map_to_list in H1, H2. f_equal.
    unfold ListServers, bind, gets in Hrun.
    refine (proj2 (clone_all_fresh _ ∅ w snap w1 _ _ Hrun) q1 q2 c1 H1 H2).
    - intros q c Hq. by rewrite lookup_empty in Hq.
    - intros q q' c Hq. by rewrite lookup_empty in Hq. }
  split; [intros l Hl; apply Hold; by apply bounded_cell|].
  intros q c Hq. destruct (servers w !! q) as [s|] eqn:Hps.
  - destruct (Hsome q s Hps) as (c' & v & Hc' & Hv & Hcl & _).
    exists s, v. assert (c' = c) as -> by congruence. done.
  - rewrite (Hnone q Hps) in Hq. done.
Qed.

Lemma monitor_each_run E w :
  sound w → ∀ (l : list (Z * positive)) wi,
  NoDup l.*2 →
  grown w wi → mgr_path wi = mgr_path w → udpPort wi = udpPort w →
  (∀ q c, (q, c) ∈ l →
     ∃ s v, servers w !! q = Some s ∧ heap w !! s = Some v
            ∧ heap wi !! c = Some (clone_value v)) →
  ∃ wf, for_each l (fun '(_, s) => monitor_one E s) wi = (Ret tt, wf)
        ∧ (∀ port s, servers wf !! port = Some s → servers wi !! port = Some s)
        ∧ (∀ q c s v, (q, c) ∈ l → servers w !! q = Some s → heap w !! s = Some v →
             (Alive s w).1 = Ret false → ¬ permitted E w v → servers wf !! q = None)
        ∧ ((∀ q c s, (q, c) ∈ l → servers w !! q = Some s → (Alive s w).1 = Ret true) →
           wf = wi).
Proof.
  intros (Hb & Hcb & He). induction l as [|[q c] rest IH]; intros wi Hnd Hg Hm Hu Hcl.
  { exists wi. split; [done|]. split; [done|]. split; [|done].
    intros q c s v Hin. by apply elem_of_nil in Hin. }
  simpl in Hnd. apply NoDup_cons in Hnd as [Hc Hnd].
  destruct (Hcl q c ltac:(left)) as (s & v & Hps & Hv & Hcv).
  destruct (He q s Hps)
    as (v0 & pid & (Hv0 & _ & _ & k & cmd & Hk & Hcmd & Hpid) & HP & _).
  assert (v0 = v) as -> by congruence.
  destruct (Hcb k cmd Hcmd) as [Hklt Hplt]. simpl in Hklt.
  specialize (Hplt pid Hpid).
  pose proof Hg as (_ & Hcf & _ & _ & Hpf).
  assert (Has : (Alive s w).1 = Ret (bool_decide (pid ∈ procs w)))
    by (by apply (Alive_spec s w v k cmd pid)).
  assert (Hac : (Alive c wi).1 = Ret (bool_decide (pid ∈ procs wi))).
  { apply (Alive_spec c wi (clone_value v) k cmd pid); try done.
    rewrite Hcf by done. done. }
  assert (Hrest : ∀ w', (∀ l0, l0 ≠ c → heap w' !! l0 = heap wi !! l0) →
            ∀ q0 c0, (q0, c0) ∈ rest →
              ∃ s0 v0, servers w !! q0 = Some s0 ∧ heap w !! s0 = Some v0
                       ∧ heap w' !! c0 = Some (clone_value v0)).
  { intros w' Hh q0 c0 Hin. destruct (Hcl q0 c0 ltac:(by right)) as (s0 & v0 & ? & ? & ?).
    exists s0, v0. split; [done|]. split; [done|]. rewrite Hh; [done|].
    intros ->. apply Hc. apply list_elem_of_fmap. by exists (q0, c). }
  simpl. unfold bind at 1.
  destruct (decide (pid ∈ procs w)) as [Hin|Hout].
  - rewrite bool_decide_eq_true_2 in Has by done.
    rewrite bool_decide_eq_true_2 in Hac by (by apply Hpf).
    rewrite (monitor_one_alive E c wi Hac).
    destruct (IH wi Hnd Hg Hm Hu (Hrest wi ltac:(done)))
      as (wf & Hrun & Hsub & Hdrop & Hsame).
    exists wf. split; [done|]. split; [done|]. split.
    + intros q0 c0 s0 v1 Hin0 Hps0 Hv1 Hdead Hnot.
      apply elem_of_cons in Hin0 as [[= -> ->]|Hin0]; [|by eapply Hdrop].
      assert (s0 = s) as -> by congruence. congruence.
    + intros Hall. apply Hsame. intros q0 c0 s0 Hin0. apply (Hall q0 c0 s0). by right.
  - rewrite bool_decide_eq_false_2 in Has by done.
    rewrite bool_decide_eq_false_2 in Hac by (by rewrite Hpf).
    destruct (monitor_one_dead_run E c wi (clone_value v) Hcv Hac)
      as (wi' & Hrun1 & Hu' & Hcase & _ & Hh' & Hg' & Hs' & Hm').
    rewrite Hrun1.
    destruct (IH wi' Hnd (grown_trans _ _ _ Hg Hg') ltac:(congruence) ltac:(congruence)
                (Hrest wi' Hh'))
      as (wf & Hrun & Hsub & Hdrop & Hsame).
    exists wf. split; [done|]. split; [by auto|]. split.
    + intros q0 c0 s0 v1 Hin0 Hps0 Hv1 Hdead Hnot.
      apply elem_of_cons in Hin0 as [[= -> ->]|Hin0]; [|by eapply Hdrop].
      assert (s0 = s) as -> by congruence. assert (v1 = v) as -> by congruence.
      destruct Hcase as [(Hperm & _)|(_ & Hdel & _)].
      { exfalso. apply Hnot. by apply (permitted_clone E w wi v Hm Hu). }
      destruct (servers wf !! q) as [s1|] eqn:Hq; [|done].
      apply Hsub in Hq. rewrite Hdel in Hq.
      change (Port (clone_value v)) with (Port v) in Hq.
      by rewrite HP, lookup_delete_eq in Hq.
    + intros Hall. specialize (Hall q c s ltac:(left) Hps). congruence.
Qed.

Lemma monitor_round_run (E : Env) (home : string) (udp : Z)
    (history : list (Env * action)) :
  let w := reached home udp history in
  ∃ w', monitor_round E w = (Ret tt, w')
        ∧ (∀ port s, servers w' !! port = Some s → servers w !! port = Some s)
        ∧ (∀ l, is_Some (heap w !! l) → heap w' !! l = heap w !! l)
        ∧ ((∀ port s, servers w !! port = Some s → (Alive s w).1 = Ret true) →
           servers w' = servers w ∧ cmds w' = cmds w ∧ procs w' = procs w
           ∧ files w' = files w ∧ trace w' = trace w).
Proof.
  intros w. pose proof (reached_sound home udp history) as Hs. fold w in Hs.
  destruct (ListServers_facts w Hs) as (snap & w1 & h & n & Hls & Hw1 & Hnd & Hold & Hcl).
  destruct (monitor_each_run E w Hs (map_to_list snap) w1 Hnd)
    as (wf & Hrun & Hsub & _ & Hsame).
  { rewrite Hw1. apply grown_same; reflexivity. }
  { by rewrite Hw1. }
  { by rewrite Hw1. }
  { intros q c Hin. apply elem_of_map_to_list in Hin. by apply Hcl. }
  exists wf. split; [unfold monitor_round, bind; by rewrite Hls|].
  split; [intros port s Hps; apply Hsub in Hps; by rewrite Hw1 in Hps|].
  split.
  { intros l Hl.
    destruct (monitor_round_untouched E w ltac:(apply Hs) (sound_table_valid w Hs))
      as (_ & Hf & _).
    assert (Hwf : (monitor_round E w).2 = wf)
      by (unfold monitor_round, bind; by rewrite Hls, Hrun).
    rewrite Hwf in Hf. apply Hf. apply bounded_cell; [apply Hs|done]. }
  intros Hall. rewrite Hsame; [by rewrite Hw1|].
  intros q c s _ Hps. by apply (Hall q s).
Qed.

Lemma Alive_frame s w w' :
  heap w' !! s = heap w !! s → cmds w' = cmds w → procs w' = procs w →
  (Alive s w').1 = (Alive s w).1.
Proof.
  intros Hh Hc Hp. unfold Alive, Process, process_Alive, bind, load, gets.
  rewrite Hh. destruct (heap w !! s) as [v|]; [|done].
  destruct (r_cmd (runtime v)) as [c|]; [|done]. simpl.
  rewrite Hc. destruct (cmds w !! c) as [cmd|]; [|done].
  destruct (cmd_Process cmd); [|done]. simpl. by rewrite Hp.
Qed.

(** The monitor never faults.  In any state the manager can reach,
    whatever the operating system answers, any number of rounds of the
    monitor run to the end; they put no entry into the table and write
    no struct that existed before them.  As long as every entry is
    alive they change nothing at all but the clones made on the way:
    table, commands, processes, files and log are as before. *)
Theorem ServerMonitor_never_faults (E : Env) (rounds : nat) (home : string) (udp : Z)
    (history : list (Env * action)) :
  let w := reached home udp history in
  ∃ w', ServerMonitor E rounds w = (Ret tt, w')
        ∧ (∀ port s, servers w' !! port = Some s → servers w !! port = Some s)
        ∧ (∀ l, is_Some (heap w !! l) → heap w' !! l = heap w !! l)
        ∧ ((∀ port s, servers w !! port = Some s → (Alive s w).1 = Ret true) →
           servers w' = servers w ∧ cmds w' = cmds w ∧ procs w' = procs w
           ∧ files w' = files w ∧ trace w' = trace w).
Proof.
  revert history. induction rounds as [|n IH]; intros history w.
  { exists w. by repeat (split; [done|]). }
  destruct (monitor_round_run E home udp history) as (w1 & Hrun & Hsub & Hold & Hsame).
  fold w in Hrun, Hsub, Hold, Hsame.
  assert (Hw1 : w1 = reached home udp (history ++ [(E, MonitorRound)])).
  { rewrite reached_snoc. simpl. fold w. by rewrite Hrun. }
  destruct (IH (history ++ [(E, MonitorRound)])) as (w' & Hrun' & Hsub' & Hold' & Hsame').
  rewrite <- Hw1 in Hrun', Hsub', Hold', Hsame'.
  exists w'. split; [simpl; unfold bind; by rewrite Hrun|].
  split; [by auto|]. split.
  { intros l Hl. rewrite Hold'; [by apply Hold|]. by rewrite Hold. }
  intros Hall. destruct (Hsame Hall) as (Hs1 & Hc1 & Hp1 & Hf1 & Ht1).
  destruct Hsame' as (Hs2 & Hc2 & Hp2 & Hf2 & Ht2).
  { intros port s Hps. rewrite Hs1 in Hps. rewrite <- (Hall port s Hps).
    apply Alive_frame; [|done|done]. apply Hold.
    apply (sound_table_valid w (reached_sound home udp history) port s Hps). }
  repeat apply conj; congruence.
Qed.

(** An entry whose process is dead and whose relaunch the operating
    system refuses is dropped.  In any state the manager can reach,
    when [Alive] says no for the entry of a port and one of the four
    steps of its launch (directory, configuration, log, start) is
    refused, the round of the monitor returns and the port is no longer
    in the table. *)
Theorem failed_relaunch_drops_entry (E : Env) (home : string) (udp : Z)
    (history : list (Env * action)) (port : Z) (s : positive) (v : Server) :
  let w := reached home udp history in
  servers w !! port = Some s →
  heap w !! s = Some v →
  (Alive s w).1 = Ret false →
  ¬ permitted E w v →
  ∃ w', monitor_round E w = (Ret tt, w')
        ∧ servers w' !! port = None
        ∧ ∀ q s', servers w' !! q = Some s' → servers w !! q = Some s'.
Proof.
  intros w Hps Hv Hdead Hnot.
  pose proof (reached_sound home udp history) as Hs. fold w in Hs.
  destruct (ListServers_facts w Hs) as (snap & w1 & h & n & Hls & Hw1 & Hnd & Hold & Hcl).
  destruct (monitor_each_run E w Hs (map_to_list snap) w1 Hnd)
    as (wf & Hrun & Hsub & Hdrop & _).
  { rewrite Hw1. apply grown_same; reflexivity. }
  { by rewrite Hw1. }
  { by rewrite Hw1. }
  { intros q c Hin. apply elem_of_map_to_list in Hin. by apply Hcl. }
  exists wf. split; [unfold monitor_round, bind; by rewrite Hls|].
  split; [|intros q s' Hq; apply Hsub in Hq; by rewrite Hw1 in Hq].
  assert (Hin : ∃ c, snap !! port = Some c).
  { destruct (ListServers_spec w ltac:(apply Hs) (sound_table_valid w Hs))
      as (snap' & w1' & Hrun' & _ & _ & _ & _ & Hsome).
    rewrite Hls in Hrun'. injection Hrun' as <- <-.
    destruct (Hsome port s Hps) as (c & _ & Hc & _). by exists c. }
  destruct Hin as [c Hc].
  apply (Hdrop port c s v); try done. by apply elem_of_map_to_list.
Qed.

Lemma failed_relaunch_drops_entry_witness :
  ∃ w', monitor_round binary_missing crashed = (Ret tt, w')
        ∧ servers w' !! 8388 = None.
Proof.
  assert (Hps : servers (reached "/root" 6001 (adding_one ++ [(friendly, ProcessDies 1)]))
                  !! 8388 = Some 1%positive) by (vm_compute; reflexivity).
  assert (Hv : ∃ v, heap (reached "/root" 6001 (adding_one ++ [(friendly, ProcessDies 1)]))
                      !! 1%positive = Some v) by (vm_compute; by eexists).
  destruct Hv as [v Hv].
  assert (Hdead : (Alive 1%positive
                     (reached "/root" 6001 (adding_one ++ [(friendly, ProcessDies 1)]))).1
                  = Ret false) by (vm_compute; reflexivity).
  assert (Hnot : ¬ permitted binary_missing
                     (reached "/root" 6001 (adding_one ++ [(friendly, ProcessDies 1)])) v).
  { intros (_ & _ & _ & H). vm_compute in H. discriminate. }
  destruct (failed_relaunch_drops_entry binary_missing "/root" 6001
              (adding_one ++ [(friendly, ProcessDies 1)]) 8388 1%positive v
              Hps Hv Hdead Hnot) as (w' & Hrun & Hgone & _).
  exists w'. split; assumption.
Defined.

Lemma monitor_never_revives_witness :
  (Alive 1%positive (monitor_round friendly crashed).2).1 = Ret false.
Proof.
  assert (Hps : servers (reached "/root" 6001 (adding_one ++ [(friendly, ProcessDies 1)]))
                  !! 8388 = Some 1%positive) by (vm_compute; reflexivity).
  assert (Hdead : (Alive 1%positive
                     (reached "/root" 6001 (adding_one ++ [(friendly, ProcessDies 1)]))).1
                  = Ret false) by (vm_compute; reflexivity).
  exact (proj2 (proj2 (monitor_never_revives friendly "/root" 6001
                         (adding_one ++ [(friendly, ProcessDies 1)]) 8388 1%positive
                         Hps Hdead))).
Defined.

End SupervisorMore.
